(** * API Embedding Orchestrator: embedding engine, semantic graph, orchestration engine

    A shallow embedding of [src/services/embedding-engine.ts],
    [src/services/semantic-graph.ts] and [src/services/orchestration-engine.ts],
    followed by the properties proved about them.

    Modelling conventions.
    - A JavaScript [number] is an IEEE-754 binary64 value: Rocq's primitive
      [float], whose operations are the same roundings.  [===] on numbers is
      [PrimFloat.eqb], [<] is [PrimFloat.ltb], [>=] is [PrimFloat.leb] flipped.
    - A JavaScript string is a Rocq [string]; [charCodeAt] is the code of the
      character (texts are taken in the one-byte range of code units).
    - An array is a [list]; [push] appends at the end.
    - A [Map] is an association list in insertion order ([Js.get], [Js.set]).
    - [throw] is the [Throw] case of [Result]; [Date.now()] is an argument. *)

From Stdlib Require Import List ZArith NArith Bool Lia String Ascii.
From Stdlib Require Import Floats Uint63 DecimalString DecimalN Sorted Permutation.
Import ListNotations.

Local Open Scope string_scope.
Local Open Scope list_scope.

(* ================================================================== *)
(** * Part I: the model                                                *)
(* ================================================================== *)

(** ** Errors and results *)

Inductive Error : Type :=
| DimensionMismatch                 (* 'Embeddings must have the same dimension' *)
| FlowNotFound (flowId : string)    (* `Flow ${flowId} not found` *)
| UnknownAction (action : string)   (* `Unknown action: ${step.action}` *)
| TypeError.                        (* property read on null or undefined *)

Inductive Result (A : Type) : Type :=
| Ok (a : A)
| Throw (e : Error).

Arguments Ok {A} a.
Arguments Throw {A} e.

Definition bind {A B : Type} (c : Result A) (k : A -> Result B) : Result B :=
  match c with
  | Ok a => k a
  | Throw e => Throw e
  end.

Notation "x <- c ;; k" := (bind c (fun x => k))
  (at level 61, c at next level, right associativity).
Notation "' p <- c ;; k" := (bind c (fun p => k))
  (at level 61, p pattern, c at next level, right associativity).

(** ** JavaScript built-ins used by the services *)

Module Js.

(** [x || d] on numbers: [0], [-0] and [NaN] are falsy. *)
Definition falsy (x : float) : bool := (x =? 0)%float || is_nan x.
Definition or_default (x d : float) : float := if falsy x then d else x.

(** [arr.includes(x)] on an array of strings. *)
Definition includes (arr : list string) (x : string) : bool :=
  existsb (String.eqb x) arr.

(** [String(n)] for a non-negative integer. *)
Definition decimal (n : N) : string := NilEmpty.string_of_uint (N.to_uint n).

(** [arr.join(sep)]. *)
Definition join (sep : string) (arr : list string) : string := String.concat sep arr.

(** [s.charCodeAt(i)] for the character found at [i]. *)
Definition charCode (c : ascii) : float :=
  PrimFloat.of_uint63 (Uint63.of_Z (Z.of_N (N_of_ascii c))).

(** [arr[i] += v]; writes inside the array only (the callers stay inside). *)
Fixpoint add_at (i : nat) (v : float) (arr : list float) : list float :=
  match arr, i with
  | [], _ => []
  | x :: rest, O => (x + v)%float :: rest
  | x :: rest, S i' => x :: add_at i' v rest
  end.

(** [arr.sort(comparefn)]: the sort is stable (ES2019).  [after a b] stands
    for [comparefn(a, b) > 0], "a goes after b"; a [NaN] from the comparator
    counts as [0].  Elements are inserted from the right end, each one in
    front of the first element it need not go after, so equal elements keep
    their order. *)
Section Sort.
Context {A : Type} (after : A -> A -> bool).

Fixpoint insert (x : A) (l : list A) : list A :=
  match l with
  | [] => [x]
  | y :: l' => if after x y then y :: insert x l' else x :: y :: l'
  end.

Definition sort (l : list A) : list A := fold_right insert [] l.
End Sort.

(** [Map<string, V>]: entries in insertion order, keys unique. *)
Definition Map (V : Type) : Type := list (string * V).

Section MapOps.
Context {V : Type}.

Fixpoint get (k : string) (m : Map V) : option V :=
  match m with
  | [] => None
  | (k', v) :: m' => if String.eqb k k' then Some v else get k m'
  end.

Definition has (k : string) (m : Map V) : bool :=
  match get k m with Some _ => true | None => false end.

(** [m.set(k, v)]: an existing key keeps its place, a new one goes last. *)
Fixpoint set (k : string) (v : V) (m : Map V) : Map V :=
  match m with
  | [] => [(k, v)]
  | (k', v') :: m' =>
      if String.eqb k k' then (k, v) :: m' else (k', v') :: set k v m'
  end.

(** [m.delete(k)]. *)
Fixpoint delete (k : string) (m : Map V) : Map V :=
  match m with
  | [] => []
  | (k', v') :: m' =>
      if String.eqb k k' then m' else (k', v') :: delete k m'
  end.

Definition keys (m : Map V) : list string := map fst m.
Definition values (m : Map V) : list V := map snd m.
End MapOps.

(** The grouping idiom of the graph builder,
    [if (!m.has(k)) m.set(k, init); ... m.get(k)! ...], where the last part
    updates the value held under [k] in place with the element [e]. *)
Section Grouping.
Context {V E : Type} (init : V) (upd : V -> E -> V).

Definition upsert (m : Map V) (ke : string * E) : Map V :=
  let m' := if has (fst ke) m then m else set (fst ke) init m in
  match get (fst ke) m' with
  | Some v => set (fst ke) (upd v (snd ke)) m'
  | None => m'
  end.
End Grouping.

(** [arr.forEach(a => { if (...) out.push(b) })]: the elements that [f] keeps
    are pushed onto [out] in the order of [arr]. *)
Definition forEach_push {A B : Type} (f : A -> option B) (arr : list A) (out : list B)
  : list B :=
  fold_left (fun out a => match f a with Some b => out ++ [b] | None => out end) arr out.

(** [if (!arr.includes(x)) arr.push(x)]. *)
Definition push_new (arr : list string) (x : string) : list string :=
  if includes arr x then arr else arr ++ [x].

(** [c.toUpperCase()] of a character, for the letters [a] to [z]. *)
Definition toUpperCase (c : ascii) : ascii :=
  let n := nat_of_ascii c in
  if ((97 <=? n) && (n <=? 122))%nat then ascii_of_nat (n - 32) else c.

(** [s.charAt(0).toUpperCase() + s.slice(1)]. *)
Definition capitalize (s : string) : string :=
  match s with
  | EmptyString => EmptyString
  | String c rest => String (toUpperCase c) rest
  end.

End Js.

(** ** JavaScript strings: case and search *)

Module JsString.

(** [c.toLowerCase()] of one code unit below 256: the letters [A] to [Z] and
    the capital letters of Latin-1 (U+00C0 to U+00DE, the sign U+00D7 apart)
    move up by 32; every other code unit stays. *)
Definition toLowerCaseChar (c : ascii) : ascii :=
  let n := nat_of_ascii c in
  if ((65 <=? n) && (n <=? 90))%nat
     || ((192 <=? n) && (n <=? 222) && negb (n =? 215))%nat
  then ascii_of_nat (n + 32)
  else c.

(** [s.toLowerCase()]. *)
Fixpoint toLowerCase (s : string) : string :=
  match s with
  | EmptyString => EmptyString
  | String c rest => String (toLowerCaseChar c) (toLowerCase rest)
  end.

(** [s.includes(sub)]: [sub] starts at some index of [s]. *)
Fixpoint includes (s sub : string) : bool :=
  String.prefix sub s
  || match s with
     | EmptyString => false
     | String _ rest => includes rest sub
     end.

End JsString.

(** ** The order of binary64 numbers

    The primitive operations are specified by [FloatAxioms] against
    [SpecFloat]; the definitions below give a value its place in the order. *)

Module Binary64.

Local Open Scope Z_scope.

(** The rank of a binary64 value: an integer that orders the values that are
    not NaN as the numbers they denote.  A finite value [m * 2^e] has
    [e >= -1074] and ranks as [m * 2^(e + 1074)]; the infinities rank beyond
    every finite value. *)
Definition rank (x : spec_float) : Z :=
  match x with
  | S754_zero _ => 0
  | S754_infinity s => cond_Zopp s (2 ^ 2098)
  | S754_nan => 0
  | S754_finite s m e => cond_Zopp s (Zpos m * 2 ^ (e + 1074))
  end.

Definition is_nan_sf (x : spec_float) : bool :=
  match x with S754_nan => true | _ => false end.

(** [0 < x]. *)
Definition positive_sf (x : spec_float) : bool :=
  SFltb (S754_zero false) x.

(** The rank of a primitive number. *)
Definition frank (x : float) : Z := rank (Prim2SF x).

End Binary64.

(** ** [types/api-types.ts] *)

Record APIConfig : Type := {
  cfg_id : string;
  cfg_name : string;
  cfg_type : string;
  cfg_description : string;
  cfg_endpoints : list string;
  cfg_capabilities : list string;
  cfg_apiKey : string;
  cfg_envKey : string;
  cfg_configSource : string
}.

Record Metadata : Type := {
  md_name : string;
  md_type : string;
  md_capabilities : list string;
  md_description : string
}.

Record APIEmbedding : Type := {
  apiId : string;
  embedding : list float;
  metadata : Metadata
}.

Record SemanticSimilarity : Type := {
  api1 : string;
  api2 : string;
  similarity : float;
  sharedCapabilities : list string
}.

(** ** [services/embedding-engine.ts] *)

Module EmbeddingEngine.

(** The dimension of the mock embedding: [new Array(384)]. *)
Definition DIMENSION : nat := 384.

(** [createAPIText]. *)
Definition createAPIText (api : APIConfig) : string :=
  (cfg_name api ++ " " ++ cfg_type api ++ " " ++ cfg_description api ++ " "
     ++ Js.join " " (cfg_capabilities api))%string.

(** The loop of [generateMockEmbedding]:
    [for (let i = 0; i < text.length && i < embedding.length; i++)
       embedding[i % embedding.length] += text.charCodeAt(i) / 1000].
    [rest] is the text from index [i] on. *)
Fixpoint mock_loop (rest : list ascii) (i : nat) (emb : list float) : list float :=
  match rest with
  | [] => emb
  | c :: rest' =>
      if (i <? List.length emb)%nat
      then mock_loop rest' (S i)
             (Js.add_at (i mod List.length emb) (Js.charCode c / 1000)%float emb)
      else emb
  end.

(** [embedding.reduce((sum, val) => sum + val * val, 0)]. *)
Definition sum_squares (v : list float) : float :=
  fold_left (fun sum val => (sum + val * val)%float) v 0%float.

(** [generateMockEmbedding] over an accumulator of [dim] zeros. *)
Definition generateMockEmbeddingOfDim (dim : nat) (text : string) : list float :=
  let emb := mock_loop (list_ascii_of_string text) 0 (repeat 0%float dim) in
  let magnitude := PrimFloat.sqrt (sum_squares emb) in
  map (fun val => (val / Js.or_default magnitude 1)%float) emb.

Definition generateMockEmbedding (text : string) : list float :=
  generateMockEmbeddingOfDim DIMENSION text.

(** [generateLocalEmbedding], [generateOpenAIEmbedding] and
    [generateHuggingFaceEmbedding] are the same mock. *)
Definition generateLocalEmbedding (api : APIConfig) : list float :=
  generateMockEmbedding (createAPIText api).

(** The loop of [calculateSimilarity]: one pass that accumulates the dot
    product and both squared magnitudes. *)
Fixpoint similarity_loop (e1 e2 : list float) (dot m1 m2 : float)
  : float * float * float :=
  match e1, e2 with
  | x :: e1', y :: e2' =>
      similarity_loop e1' e2' (dot + x * y)%float (m1 + x * x)%float (m2 + y * y)%float
  | _, _ => (dot, m1, m2)
  end.

Definition calculateSimilarity (embedding1 embedding2 : list float) : Result float :=
  if negb (List.length embedding1 =? List.length embedding2)%nat
  then Throw DimensionMismatch
  else
    let '(dotProduct, sq1, sq2) := similarity_loop embedding1 embedding2 0 0 0 in
    let magnitude1 := PrimFloat.sqrt sq1 in
    let magnitude2 := PrimFloat.sqrt sq2 in
    if (magnitude1 =? 0)%float || (magnitude2 =? 0)%float
    then Ok 0%float
    else Ok (dotProduct / (magnitude1 * magnitude2))%float.

(** The engine's state: [private embeddings: Map<string, APIEmbedding>]. *)
Definition Cache : Type := Js.Map APIEmbedding.

(** [generateOpenAIEmbedding] and [generateHuggingFaceEmbedding]: the mock
    too. *)
Definition generateOpenAIEmbedding (api : APIConfig) : list float :=
  generateMockEmbedding (createAPIText api).

Definition generateHuggingFaceEmbedding (api : APIConfig) : list float :=
  generateMockEmbedding (createAPIText api).

(** [config.get<string>('embeddingProvider') || 'local']: a missing setting
    and the empty string give ['local']. *)
Definition provider_of (setting : option string) : string :=
  match setting with
  | Some (String c rest) => String c rest
  | _ => "local"
  end.

(** The [switch (provider)] of [generateEmbeddings]. *)
Definition generate (provider : string) (api : APIConfig) : list float :=
  if String.eqb provider "openai" then generateOpenAIEmbedding api
  else if String.eqb provider "huggingface" then generateHuggingFaceEmbedding api
  else generateLocalEmbedding api.

Definition embed (provider : string) (api : APIConfig) : APIEmbedding :=
  {| apiId := cfg_id api;
     embedding := generate provider api;
     metadata := {| md_name := cfg_name api;
                    md_type := cfg_type api;
                    md_capabilities := cfg_capabilities api;
                    md_description := cfg_description api |} |}.

(** The loop of [generateEmbeddings]: each embedding is pushed to the result
    and cached under the id of its api.  On a descriptor that has all the
    fields of [APIConfig], none of the three generators throws, so the
    [catch] is never entered. *)
Fixpoint embeddings_loop (provider : string) (apis : list APIConfig) (cache : Cache)
  : list APIEmbedding * Cache :=
  match apis with
  | [] => ([], cache)
  | api :: rest =>
      let e := embed provider api in
      let '(es, cache') := embeddings_loop provider rest (Js.set (cfg_id api) e cache) in
      (e :: es, cache')
  end.

(** [generateEmbeddings]; [setting] is the configured [embeddingProvider]. *)
Definition generateEmbeddings (setting : option string) (apis : list APIConfig)
    (cache : Cache) : list APIEmbedding * Cache :=
  embeddings_loop (provider_of setting) apis cache.

(** [getAllEmbeddings]. *)
Definition getAllEmbeddings (cache : Cache) : Cache := cache.

(** [targetEmbedding.metadata.capabilities.filter(cap =>
      embedding.metadata.capabilities.includes(cap))]. *)
Definition shared (a b : APIEmbedding) : list string :=
  filter (Js.includes (md_capabilities (metadata b))) (md_capabilities (metadata a)).

(** The loop of [findSimilarAPIs] over the cache entries [[apiId, embedding]],
    in Map order. *)
Fixpoint similar_loop (targetApiId : string) (targetEmbedding : APIEmbedding)
    (threshold : float) (entries : Cache) (similarities : list SemanticSimilarity)
  : Result (list SemanticSimilarity) :=
  match entries with
  | [] => Ok similarities
  | (id, e) :: rest =>
      if String.eqb id targetApiId
      then similar_loop targetApiId targetEmbedding threshold rest similarities
      else
        s <- calculateSimilarity (embedding targetEmbedding) (embedding e) ;;
        if (threshold <=? s)%float
        then similar_loop targetApiId targetEmbedding threshold rest
               (similarities ++ [ {| api1 := targetApiId; api2 := id;
                                     similarity := s;
                                     sharedCapabilities := shared targetEmbedding e |} ])
        else similar_loop targetApiId targetEmbedding threshold rest similarities
  end.

(** [(a, b) => b.similarity - a.similarity] is positive. *)
Definition by_similarity_desc (a b : SemanticSimilarity) : bool :=
  (0 <? similarity b - similarity a)%float.

(** The default threshold [0.7], as the binary64 value the literal denotes. *)
Definition DEFAULT_THRESHOLD : float := 0x1.6666666666666p-1%float.

Definition findSimilarAPIs (cache : Cache) (targetApiId : string) (threshold : float)
  : Result (list SemanticSimilarity) :=
  match Js.get targetApiId cache with
  | None => Ok []
  | Some targetEmbedding =>
      similarities <- similar_loop targetApiId targetEmbedding threshold cache [] ;;
      Ok (Js.sort by_similarity_desc similarities)
  end.

End EmbeddingEngine.

(** ** [services/semantic-graph.ts] *)

Record GraphNode : Type := {
  node_id : string;
  node_name : string;
  node_type : string;
  node_capabilities : list string;
  node_description : string
}.

Record GraphEdge : Type := {
  edge_from : string;
  edge_to : string;
  edge_weight : float;
  edge_type : string;
  edge_sharedCapabilities : list string
}.

Record Cluster : Type := {
  cluster_id : string;
  cluster_name : string;
  cluster_type : string;
  cluster_members : list string;
  cluster_description : string
}.

Inductive Priority : Type := high | medium | low.

(** The [description] of a recommendation is a template literal; it is kept
    as the values the template interpolates. *)
Inductive Description : Type :=
| HighSimilarityText (api1 api2 : string) (percent : float)
    (* `APIs ${api1} and ${api2} have high semantic similarity
        (${percent.toFixed(1)}%)` *)
| CapabilityClusterText (count : nat) (capability : string).
    (* `${count} APIs provide ${capability} capability` *)

Record Recommendation : Type := {
  rec_type : string;
  rec_priority : Priority;
  rec_title : string;
  rec_description : Description;
  rec_suggestedAction : string;
  rec_affectedAPIs : list string
}.

Record GraphMetadata : Type := {
  gm_title : string;
  gm_description : string;
  gm_generatedAt : string;
  gm_totalAPIs : nat;
  gm_totalConnections : nat
}.

Record SemanticGraph : Type := {
  graph_metadata : GraphMetadata;
  graph_nodes : list GraphNode;
  graph_edges : list GraphEdge;
  graph_clusters : list Cluster;
  graph_recommendations : list Recommendation
}.

Module SemanticGraphGenerator.

Import EmbeddingEngine.

(** [0.3] and [0.8], as the binary64 values the literals denote. *)
Definition EDGE_THRESHOLD : float := 0x1.3333333333333p-2%float.
Definition HIGH_SIMILARITY : float := 0x1.999999999999ap-1%float.

Definition complementaryPairs : list (list string) :=
  [ ["ai"; "version-control"]; ["ai"; "storage"]; ["version-control"; "ci-cd"] ].

Definition determineEdgeType (api1 api2 : APIEmbedding) : string :=
  let type1 := md_type (metadata api1) in
  let type2 := md_type (metadata api2) in
  if String.eqb type1 type2 then "same-type"
  else if existsb (fun pair => Js.includes pair type1 && Js.includes pair type2)
            complementaryPairs
       then "complementary"
       else "cross-type".

Definition toNode (e : APIEmbedding) : GraphNode :=
  {| node_id := apiId e;
     node_name := md_name (metadata e);
     node_type := md_type (metadata e);
     node_capabilities := md_capabilities (metadata e);
     node_description := md_description (metadata e) |}.

Definition makeEdge (ei ej : APIEmbedding) (similarity : float) : GraphEdge :=
  {| edge_from := apiId ei;
     edge_to := apiId ej;
     edge_weight := similarity;
     edge_type := determineEdgeType ei ej;
     edge_sharedCapabilities := shared ei ej |}.

Definition makeSimilarity (ei ej : APIEmbedding) (similarity : float) : SemanticSimilarity :=
  {| api1 := apiId ei;
     api2 := apiId ej;
     similarity := similarity;
     sharedCapabilities := shared ei ej |}.

(** The inner loop, [for (let j = i + 1; j < embeddings.length; j++)]:
    [ei] is [embeddings[i]] and [rest] the embeddings from [j] on. *)
Fixpoint inner_loop (ei : APIEmbedding) (rest : list APIEmbedding)
    (edges : list GraphEdge) (similarities : list SemanticSimilarity)
  : Result (list GraphEdge * list SemanticSimilarity) :=
  match rest with
  | [] => Ok (edges, similarities)
  | ej :: rest' =>
      similarity <- calculateSimilarity (embedding ei) (embedding ej) ;;
      if (EDGE_THRESHOLD <? similarity)%float
      then inner_loop ei rest' (edges ++ [makeEdge ei ej similarity])
             (similarities ++ [makeSimilarity ei ej similarity])
      else inner_loop ei rest' edges similarities
  end.

(** The outer loop, [for (let i = 0; i < embeddings.length; i++)], over the
    embeddings from [i] on. *)
Fixpoint outer_loop (embeddings : list APIEmbedding)
    (edges : list GraphEdge) (similarities : list SemanticSimilarity)
  : Result (list GraphEdge * list SemanticSimilarity) :=
  match embeddings with
  | [] => Ok (edges, similarities)
  | ei :: rest =>
      '(edges', similarities') <- inner_loop ei rest edges similarities ;;
      outer_loop rest edges' similarities'
  end.

(** [typeGroups]: the nodes grouped under their type. *)
Definition typeGroups (nodes : list GraphNode) : Js.Map (list GraphNode) :=
  fold_left
    (fun groups node =>
       Js.upsert [] (fun group n => group ++ [n]) groups (node_type node, node))
    nodes [].

(** [capabilityGroups]: the nodes grouped under each capability they list. *)
Definition capabilityGroups (nodes : list GraphNode) : Js.Map (list GraphNode) :=
  fold_left
    (fun groups node =>
       fold_left
         (fun groups capability =>
            Js.upsert [] (fun group n => group ++ [n]) groups (capability, node))
         (node_capabilities node) groups)
    nodes [].

Definition typeCluster (group : string * list GraphNode) : option Cluster :=
  let '(type, groupNodes) := group in
  if (1 <? List.length groupNodes)%nat
  then Some {| cluster_id := "cluster-" ++ type;
               cluster_name := Js.capitalize type ++ " APIs";
               cluster_type := "type-based";
               cluster_members := map node_id groupNodes;
               cluster_description := "APIs of type: " ++ type |}%string
  else None.

Definition capabilityCluster (group : string * list GraphNode) : option Cluster :=
  let '(capability, groupNodes) := group in
  if (1 <? List.length groupNodes)%nat
  then Some {| cluster_id := "cluster-capability-" ++ capability;
               cluster_name := capability ++ " Providers";
               cluster_type := "capability-based";
               cluster_members := map node_id groupNodes;
               cluster_description := "APIs providing " ++ capability ++ " capability" |}%string
  else None.

(** [identifyClusters]; the [edges] argument is not read. *)
Definition identifyClusters (nodes : list GraphNode) (edges : list GraphEdge)
  : list Cluster :=
  let clusters := Js.forEach_push typeCluster (typeGroups nodes) [] in
  Js.forEach_push capabilityCluster (capabilityGroups nodes) clusters.

Definition highSimilarity (sim : SemanticSimilarity) : option Recommendation :=
  Some {| rec_type := "high-similarity";
          rec_priority := high;
          rec_title := "Strong Semantic Match Found";
          rec_description :=
            HighSimilarityText (api1 sim) (api2 sim) (similarity sim * 100)%float;
          rec_suggestedAction := "Consider creating a workflow that combines these APIs";
          rec_affectedAPIs := [api1 sim; api2 sim] |}.

(** [capabilityClusters]: under each shared capability, the ids of the apis
    of the records that share it, each id once. *)
Definition capabilityClusters (similarities : list SemanticSimilarity)
  : Js.Map (list string) :=
  fold_left
    (fun clusters sim =>
       fold_left
         (fun clusters cap =>
            Js.upsert []
              (fun apis (s : SemanticSimilarity) =>
                 Js.push_new (Js.push_new apis (api1 s)) (api2 s))
              clusters (cap, sim))
         (sharedCapabilities sim) clusters)
    similarities [].

Definition capabilityClusterRec (entry : string * list string) : option Recommendation :=
  let '(capability, apis) := entry in
  if (2 <? List.length apis)%nat
  then Some {| rec_type := "capability-cluster";
               rec_priority := medium;
               rec_title := "Multiple " ++ capability ++ " Providers";
               rec_description := CapabilityClusterText (List.length apis) capability;
               rec_suggestedAction := "Consider load balancing or failover strategies";
               rec_affectedAPIs := apis |}%string
  else None.

Definition generateRecommendations (similarities : list SemanticSimilarity)
  : list Recommendation :=
  let highSimilarities :=
    filter (fun s => (HIGH_SIMILARITY <? similarity s)%float) similarities in
  let recommendations := Js.forEach_push highSimilarity highSimilarities [] in
  Js.forEach_push capabilityClusterRec (capabilityClusters similarities) recommendations.

(** [createSemanticGraph]; [generatedAt] is [new Date().toISOString()]. *)
Definition createSemanticGraph (generatedAt : string) (embeddings : list APIEmbedding)
  : Result SemanticGraph :=
  let nodes := map toNode embeddings in
  '(edges, similarities) <- outer_loop embeddings [] [] ;;
  Ok {| graph_metadata :=
          {| gm_title := "API Semantic Communication Graph";
             gm_description := "Semantic relationships between discovered APIs";
             gm_generatedAt := generatedAt;
             gm_totalAPIs := List.length embeddings;
             gm_totalConnections := List.length edges |};
        graph_nodes := nodes;
        graph_edges := edges;
        graph_clusters := identifyClusters nodes edges;
        graph_recommendations := generateRecommendations similarities |}.

End SemanticGraphGenerator.

(** ** Groupings in first-seen order

    What the Map-based groupings of the graph builder amount to: the keys in
    the order in which they are first seen, each with what its elements
    accumulate to. *)

Module Grouping.

(** The elements that [f] keeps, in order. *)
Definition kept {A B : Type} (f : A -> option B) (arr : list A) : list B :=
  flat_map (fun a => match f a with Some b => [b] | None => [] end) arr.

(** The distinct strings of a list, in the order of their first occurrence. *)
Definition distinct (l : list string) : list string := fold_left Js.push_new l [].

(** The elements recorded under the key [k]. *)
Definition under {E : Type} (k : string) (events : list (string * E)) : list E :=
  map snd (filter (fun ke => String.eqb (fst ke) k) events).

Definition grouped {V E : Type} (init : V) (upd : V -> E -> V)
    (events : list (string * E)) : Js.Map V :=
  map (fun k => (k, fold_left upd (under k events) init)) (distinct (map fst events)).

End Grouping.

(** ** The edges as the specification words them *)

Module EdgeSpec.

Import EmbeddingEngine SemanticGraphGenerator.

(** The pairs [(l[i], l[j])] with [i < j], in the order in which the two
    loops of the builder visit them. *)
Fixpoint ordered_pairs {A : Type} (l : list A) : list (A * A) :=
  match l with
  | [] => []
  | x :: rest => map (pair x) rest ++ ordered_pairs rest
  end.

Definition same_dimension (p : APIEmbedding * APIEmbedding) : bool :=
  (List.length (embedding (fst p)) =? List.length (embedding (snd p)))%nat.

(** The edge of a pair, when its score is above the threshold. *)
Definition edge_of_pair (p : APIEmbedding * APIEmbedding) : list GraphEdge :=
  match calculateSimilarity (embedding (fst p)) (embedding (snd p)) with
  | Ok score =>
      if (EDGE_THRESHOLD <? score)%float then [makeEdge (fst p) (snd p) score] else []
  | Throw _ => []
  end.

Definition similarity_of_pair (p : APIEmbedding * APIEmbedding) : list SemanticSimilarity :=
  match calculateSimilarity (embedding (fst p)) (embedding (snd p)) with
  | Ok score =>
      if (EDGE_THRESHOLD <? score)%float then [makeSimilarity (fst p) (snd p) score] else []
  | Throw _ => []
  end.

Definition edges_of (embeddings : list APIEmbedding) : list GraphEdge :=
  flat_map edge_of_pair (ordered_pairs embeddings).

Definition similarities_of (embeddings : list APIEmbedding) : list SemanticSimilarity :=
  flat_map similarity_of_pair (ordered_pairs embeddings).


(** Three embeddings in the plane: "x" and "y" are close, "z" is orthogonal
    to "x". *)
Definition point (id type : string) (x y : float) (caps : list string) : APIEmbedding :=
  {| apiId := id; embedding := [x; y];
     metadata := {| md_name := id; md_type := type;
                    md_capabilities := caps; md_description := "" |} |}.

Definition demo_embeddings : list APIEmbedding :=
  [ point "x" "ai" 1 0 ["text-generation"; "embeddings"];
    point "y" "ai" 1 1 ["text-generation"; "classification"];
    point "z" "storage" 0 1 ["files"] ].

End EdgeSpec.

(** ** The clusters as the specification words them *)

Module ClusterSpec.

Import SemanticGraphGenerator Grouping.

(** The nodes of category [t], and the nodes that declare capability [c],
    in node-list order. *)
Definition nodes_of_type (t : string) (nodes : list GraphNode) : list GraphNode :=
  filter (fun n => String.eqb (node_type n) t) nodes.

Definition nodes_with (c : string) (nodes : list GraphNode) : list GraphNode :=
  filter (fun n => Js.includes (node_capabilities n) c) nodes.

(** The category tags and the capability tags of the node list, first seen
    first. *)
Definition types (nodes : list GraphNode) : list string :=
  distinct (map node_type nodes).

Definition capabilities (nodes : list GraphNode) : list string :=
  distinct (flat_map node_capabilities nodes).





End ClusterSpec.

(** ** The recommendations as the specification words them *)

Module RecommendationSpec.

Import SemanticGraphGenerator Grouping.

(** The records of score above [0.8], in record order. *)
Definition high_records (similarities : list SemanticSimilarity) : list SemanticSimilarity :=
  filter (fun s => (HIGH_SIMILARITY <? similarity s)%float) similarities.

(** The capabilities that some record shares, in the order in which the
    records first show them. *)
Definition shared_capabilities (similarities : list SemanticSimilarity) : list string :=
  distinct (flat_map sharedCapabilities similarities).

(** The distinct ids of the nodes of the records that share [cap], in the
    order in which they first take part. *)
Definition participants (cap : string) (similarities : list SemanticSimilarity)
  : list string :=
  distinct
    (flat_map
       (fun s => if Js.includes (sharedCapabilities s) cap then [api1 s; api2 s] else [])
       similarities).

Definition high_recommendation (s : SemanticSimilarity) : Recommendation :=
  {| rec_type := "high-similarity";
     rec_priority := high;
     rec_title := "Strong Semantic Match Found";
     rec_description := HighSimilarityText (api1 s) (api2 s) (similarity s * 100)%float;
     rec_suggestedAction := "Consider creating a workflow that combines these APIs";
     rec_affectedAPIs := [api1 s; api2 s] |}.

Definition cluster_recommendation (cap : string) (apis : list string) : Recommendation :=
  {| rec_type := "capability-cluster";
     rec_priority := medium;
     rec_title := "Multiple " ++ cap ++ " Providers";
     rec_description := CapabilityClusterText (List.length apis) cap;
     rec_suggestedAction := "Consider load balancing or failover strategies";
     rec_affectedAPIs := apis |}%string.

(** The capabilities that get a recommendation: those with more than two
    participants. *)
Definition saturated (similarities : list SemanticSimilarity) : list string :=
  filter (fun cap => (2 <? List.length (participants cap similarities))%nat)
    (shared_capabilities similarities).

Definition recommendations (similarities : list SemanticSimilarity) : list Recommendation :=
  map high_recommendation (high_records similarities)
  ++ map (fun cap => cluster_recommendation cap (participants cap similarities))
       (saturated similarities).

(** Three records that share "chat" among three nodes; the first and the
    last have a score above [0.8]. *)
Definition record (a b : string) (score : float) (caps : list string) : SemanticSimilarity :=
  {| api1 := a; api2 := b; similarity := score; sharedCapabilities := caps |}.

Definition demo_records : list SemanticSimilarity :=
  [ record "a" "b" 0x1.ccccccccccccdp-1 ["chat"; "embeddings"];
    record "a" "c" 0x1p-1 ["chat"];
    record "b" "c" 1 ["search"; "chat"] ].

End RecommendationSpec.

(** ** [services/orchestration-engine.ts] *)

Inductive FlowStatus : Type := pending | running | completed | failed.

(** A step's [payload: any], as far as the handlers read it: reading a
    property of [null] or [undefined] throws, any other value answers. *)
Inductive Payload : Type :=
| PayloadNullish
| PayloadObject (props : Js.Map string).

(** [order: number] holds the integer the steps are sequenced by. *)
Record OrchestrationStep : Type := {
  step_id : string;
  step_action : string;
  step_apiId : string;
  step_payload : Payload;
  step_order : Z
}.

(** [Omit<OrchestrationStep, 'id'>]. *)
Record StepInput : Type := {
  in_action : string;
  in_apiId : string;
  in_payload : Payload;
  in_order : Z
}.

Record APIOrchestrationFlow : Type := {
  flow_id : string;
  flow_name : string;
  flow_steps : list OrchestrationStep;
  flow_apis : list string;
  flow_status : FlowStatus
}.

(** The step action handlers.  [executeFlow] awaits a handler and drops what
    it resolves to, so a handler is read as resolving or rejecting. *)
Class StepHandlers : Type := {
  authenticateAPI : string -> Payload -> Result unit;
  queryAPI : string -> Payload -> Result unit;
  transformData : Payload -> Result unit;
  forwardData : string -> Payload -> Result unit
}.

(** What an execution does that can be observed: a write of a flow's
    [status], and a call of [executeStep]. *)
Inductive Event : Type :=
| StatusSet (flowId : string) (status : FlowStatus)
| StepRun (step : OrchestrationStep).

Module OrchestrationEngine.

(** [private activeFlows: Map<string, APIOrchestrationFlow>]. *)
Definition Engine : Type := Js.Map APIOrchestrationFlow.

(** [createOrchestrationFlow]; [now] is what [Date.now()] reads. *)
Definition createOrchestrationFlow (now : N) (name : string) (apis : list APIConfig)
    (engine : Engine) : APIOrchestrationFlow * Engine :=
  let flow := {| flow_id := "flow-" ++ Js.decimal now;
                 flow_name := name;
                 flow_steps := [];
                 flow_apis := map cfg_id apis;
                 flow_status := pending |}%string in
  (flow, Js.set (flow_id flow) flow engine).

(** [(a, b) => a.order - b.order] is positive. *)
Definition by_order (a b : OrchestrationStep) : bool :=
  (0 <? step_order a - step_order b)%Z.

(** [addOrchestrationStep].  The flow held by the registry is changed in
    place: the entry under [flowId] gets the new step list. *)
Definition addOrchestrationStep (now : N) (flowId : string) (step : StepInput)
    (engine : Engine) : Result Engine :=
  match Js.get flowId engine with
  | None => Throw (FlowNotFound flowId)
  | Some flow =>
      let newStep := {| step_id := "step-" ++ Js.decimal now;
                        step_action := in_action step;
                        step_apiId := in_apiId step;
                        step_payload := in_payload step;
                        step_order := in_order step |}%string in
      let steps := Js.sort by_order (flow_steps flow ++ [newStep]) in
      Ok (Js.set flowId
            {| flow_id := flow_id flow; flow_name := flow_name flow;
               flow_steps := steps; flow_apis := flow_apis flow;
               flow_status := flow_status flow |} engine)
  end.

Section Execution.

Context {handlers : StepHandlers}.

(** [executeStep]: the [switch] on the action tag. *)
Definition executeStep (step : OrchestrationStep) : Result unit :=
  if String.eqb (step_action step) "authenticate"
  then authenticateAPI (step_apiId step) (step_payload step)
  else if String.eqb (step_action step) "query"
  then queryAPI (step_apiId step) (step_payload step)
  else if String.eqb (step_action step) "transform"
  then transformData (step_payload step)
  else if String.eqb (step_action step) "forward"
  then forwardData (step_apiId step) (step_payload step)
  else Throw (UnknownAction (step_action step)).

(** [for (const step of flow.steps) { await this.executeStep(step); ... }]:
    the steps run until one throws. *)
Fixpoint run_steps (steps : list OrchestrationStep) : list Event * Result unit :=
  match steps with
  | [] => ([], Ok tt)
  | step :: rest =>
      match executeStep step with
      | Ok _ => let '(events, result) := run_steps rest in (StepRun step :: events, result)
      | Throw e => ([StepRun step], Throw e)
      end
  end.

Definition set_status (flowId : string) (status : FlowStatus) (engine : Engine) : Engine :=
  match Js.get flowId engine with
  | None => engine
  | Some flow =>
      Js.set flowId
        {| flow_id := flow_id flow; flow_name := flow_name flow;
           flow_steps := flow_steps flow; flow_apis := flow_apis flow;
           flow_status := status |} engine
  end.

(** [executeFlow], run to its end without another operation in between:
    the engine it leaves, what it did, and whether it returned or threw. *)
Definition executeFlow (flowId : string) (engine : Engine)
  : Engine * list Event * Result unit :=
  match Js.get flowId engine with
  | None => (engine, [], Throw (FlowNotFound flowId))
  | Some flow =>
      let started := set_status flowId running engine in
      match run_steps (flow_steps flow) with
      | (events, Ok _) =>
          (set_status flowId completed started,
           StatusSet flowId running :: events ++ [StatusSet flowId completed],
           Ok tt)
      | (events, Throw error) =>
          (set_status flowId failed started,
           StatusSet flowId running :: events ++ [StatusSet flowId failed],
           Throw error)
      end
  end.

End Execution.

(** The mock handlers of the engine.  [authenticateAPI] does not read the
    payload; the three others read a property of it first. *)
Definition reads_payload (payload : Payload) : Result unit :=
  match payload with
  | PayloadNullish => Throw TypeError
  | PayloadObject _ => Ok tt
  end.

#[export] Instance mockHandlers : StepHandlers := {
  authenticateAPI := fun _ _ => Ok tt;
  queryAPI := fun _ payload => reads_payload payload;
  transformData := fun payload => reads_payload payload;
  forwardData := fun _ payload => reads_payload payload
}.

Definition getActiveFlows (engine : Engine) : list APIOrchestrationFlow :=
  Js.values engine.

Definition getFlow (flowId : string) (engine : Engine) : option APIOrchestrationFlow :=
  Js.get flowId engine.

Definition deleteFlow (flowId : string) (engine : Engine) : Engine :=
  Js.delete flowId engine.

(** [findOptimalRoute].  [apis] is what [discoverAPIs] resolved to (when it
    rejects, so does the route search, before anything else); [cache] is
    the cache of the engine's own [EmbeddingEngine], which
    [generateEmbeddings] fills although the embeddings are not read. *)
Definition findOptimalRoute (setting : option string) (apis : list APIConfig)
    (sourceApi targetApi capability : string) (cache : EmbeddingEngine.Cache)
  : list string * EmbeddingEngine.Cache :=
  let '(_, cache') := EmbeddingEngine.generateEmbeddings setting apis cache in
  let route := [sourceApi] in
  let intermediateAPIs :=
    filter (fun api => negb (String.eqb (cfg_id api) sourceApi)
                       && negb (String.eqb (cfg_id api) targetApi)
                       && Js.includes (cfg_capabilities api) capability) apis in
  let route := match intermediateAPIs with
               | api :: _ => route ++ [cfg_id api]
               | [] => route
               end in
  (route ++ [targetApi], cache').

(** The flow object that [flow] names, as the registry holds it now: the
    operations change that one object in place. *)
Definition current (flow : APIOrchestrationFlow) (engine : Engine) : APIOrchestrationFlow :=
  match Js.get (flow_id flow) engine with
  | Some flow' => flow'
  | None => flow
  end.

(** [suggestOrchestration].  [apis] is what [discoverAPIs] resolved to;
    [now0], [now1], [now2] are the clock readings of the creation and of the
    two additions. *)
Definition suggestOrchestration (now0 now1 now2 : N) (apis : list APIConfig)
    (requirement : string) (engine : Engine) : Result (APIOrchestrationFlow * Engine) :=
  let '(flow, engine) :=
    createOrchestrationFlow now0 (("Auto-generated: " ++ requirement)%string) apis engine in
  let lower := JsString.toLowerCase requirement in
  engine <-
    (if JsString.includes lower "text" || JsString.includes lower "content"
     then match filter (fun api => String.eqb (cfg_type api) "ai") apis with
          | api :: _ =>
              addOrchestrationStep now1 (flow_id flow)
                {| in_action := "query"; in_apiId := cfg_id api;
                   in_payload := PayloadObject [("query", requirement)];
                   in_order := 1 |} engine
          | [] => Ok engine
          end
     else Ok engine) ;;
  engine <-
    (if JsString.includes lower "save" || JsString.includes lower "store"
     then match filter (fun api => Js.includes (cfg_capabilities api) "repository-management"
                                   || String.eqb (cfg_type api) "version-control") apis with
          | api :: _ =>
              addOrchestrationStep now2 (flow_id flow)
                {| in_action := "forward"; in_apiId := cfg_id api;
                   in_payload := PayloadObject [("data", "processed content")];
                   in_order := 2 |} engine
          | [] => Ok engine
          end
     else Ok engine) ;;
  Ok (current flow engine, engine).


(** The steps of the flow registered under an id. *)
Definition steps_of (flowId : string) (engine : Engine) : list OrchestrationStep :=
  match Js.get flowId engine with
  | Some flow => flow_steps flow
  | None => []
  end.

End OrchestrationEngine.

(** ** The flow state machine as the specification words it *)

Module FlowSpec.




(** The steps an execution runs, in order. *)
Definition steps_run (events : list Event) : list OrchestrationStep :=
  flat_map (fun ev => match ev with StepRun s => [s] | StatusSet _ _ => [] end) events.

Definition step (action : string) (order : Z) : StepInput :=
  {| in_action := action; in_apiId := "openai"; in_payload := PayloadObject [];
     in_order := order |}.

(** The engine an operation leaves, or the engine as it was when it throws. *)
Definition then_add (now : N) (flowId : string) (s : StepInput)
    (engine : OrchestrationEngine.Engine) : OrchestrationEngine.Engine :=
  match OrchestrationEngine.addOrchestrationStep now flowId s engine with
  | Ok engine' => engine'
  | Throw _ => engine
  end.

(** A fresh engine with one flow, created at clock reading 1000. *)
Definition one_flow : OrchestrationEngine.Engine :=
  snd (OrchestrationEngine.createOrchestrationFlow 1000 "docs" [] []).

(** The flow of the demo script in part: its step "sync" has no handler. *)
Definition demo_engine : OrchestrationEngine.Engine :=
  then_add 1003 "flow-1000" (step "forward" 3)
    (then_add 1002 "flow-1000" (step "sync" 2)
       (then_add 1001 "flow-1000" (step "authenticate" 1) one_flow)).



Definition demo_step (now : N) (action : string) (order : Z) : OrchestrationStep :=
  {| step_id := "step-" ++ Js.decimal now; step_action := action;
     step_apiId := "openai"; step_payload := PayloadObject [];
     step_order := order |}.

End FlowSpec.

(** ** Cosine similarity as the specification words it

    The dot product and the Euclidean norm of vectors of binary64 numbers,
    each summed from the left starting at zero. *)

Module Cosine.

Definition dot (a b : list float) : float :=
  fold_left (fun acc xy => (acc + fst xy * snd xy)%float) (combine a b) 0%float.

Definition norm (a : list float) : float :=
  PrimFloat.sqrt (fold_left (fun acc x => (acc + x * x)%float) a 0%float).

(** Dot product over the product of the norms, [0] when a norm is zero. *)
Definition cosine (a b : list float) : float :=
  if (norm a =? 0)%float || (norm b =? 0)%float
  then 0%float
  else (dot a b / (norm a * norm b))%float.

End Cosine.

(** ** The fallback embedding as the specification words it

    "Fold the signature's character codes into a length-D accumulator using
    modular position assignment (position = charIndex mod D), scaled by a
    constant factor; then L2-normalize the accumulator": every character of
    the signature is folded, whatever its index. *)

Module FoldSpec.

(** [rest] is the signature from index [i] on. *)
Fixpoint fold_codes (rest : list ascii) (i : nat) (acc : list float) : list float :=
  match rest with
  | [] => acc
  | c :: rest' =>
      fold_codes rest' (S i)
        (Js.add_at (i mod List.length acc) (Js.charCode c / 1000)%float acc)
  end.

Definition l2_normalize (acc : list float) : list float :=
  let magnitude := PrimFloat.sqrt (EmbeddingEngine.sum_squares acc) in
  map (fun val => (val / Js.or_default magnitude 1)%float) acc.

Definition embed_text (dim : nat) (text : string) : list float :=
  l2_normalize (fold_codes (list_ascii_of_string text) 0 (repeat 0%float dim)).

End FoldSpec.

(** A text of [n] copies of one character, for examples. *)
Fixpoint replicate (n : nat) (c : ascii) : string :=
  match n with
  | O => EmptyString
  | S n' => String c (replicate n' c)
  end.

(** The descriptor that discovery builds for [OPENAI_API_KEY]. *)
Definition openai_api : APIConfig :=
  {| cfg_id := "openai-1000"; cfg_name := "OpenAI"; cfg_type := "ai";
     cfg_description := "OpenAI API for language models and embeddings";
     cfg_endpoints := ["https://api.openai.com/v1"];
     cfg_capabilities := ["text-generation"; "embeddings"; "chat"];
     cfg_apiKey := "sk"; cfg_envKey := "OPENAI_API_KEY"; cfg_configSource := ".env" |}.

(** Two descriptors that differ in their capability tags only, behind a
    description of 400 characters. *)
Definition long_api (capability : string) : APIConfig :=
  {| cfg_id := "svc"; cfg_name := "A"; cfg_type := "ai";
     cfg_description := replicate 400 "x";
     cfg_endpoints := []; cfg_capabilities := [capability];
     cfg_apiKey := ""; cfg_envKey := ""; cfg_configSource := ".env" |}.

(** ** Comparing computed vectors

    Bitwise equality of two vectors, to tell computed vectors apart. *)

Fixpoint same_floats (a b : list float) : bool :=
  match a, b with
  | [], [] => true
  | x :: a', y :: b' => PrimFloat.Leibniz.eqb x y && same_floats a' b'
  | _, _ => false
  end.

(** Closes [a <> b] for two closed vectors that differ somewhere. *)
Ltac floats_differ :=
  let H := fresh in
  intros H;
  match type of H with
  | ?a = ?b =>
      apply (f_equal (same_floats a)) in H; vm_compute in H; discriminate H
  end.

(** ** What [findSimilarAPIs] is to return *)

Module SimilarSpec.

Import EmbeddingEngine.

(** A record for the target [t], cached under [targetApiId]: it pairs the
    target with the key of another cache entry [e], carries their similarity,
    which is at least the threshold, and the capabilities of the target that
    [e] has too. *)
Definition similar_record (cache : Cache) (targetApiId : string) (t : APIEmbedding)
    (threshold : float) (r : SemanticSimilarity) : Prop :=
  api1 r = targetApiId
  /\ api2 r <> targetApiId
  /\ exists e : APIEmbedding,
       In (api2 r, e) cache
       /\ calculateSimilarity (embedding t) (embedding e) = Ok (similarity r)
       /\ (threshold <=? similarity r)%float = true
       /\ sharedCapabilities r = shared t e
       /\ (forall c : string,
             In c (sharedCapabilities r)
             <-> In c (md_capabilities (metadata t))
                 /\ In c (md_capabilities (metadata e))).

(** Descending order of similarity: every record is at least as similar as
    all the records behind it. *)
Definition descending (l : list SemanticSimilarity) : Prop :=
  StronglySorted (fun a b => (similarity b <=? similarity a)%float = true) l.

(** A cache of three embeddings in the plane. *)
Definition plane (id : string) (x y : float) (caps : list string) : string * APIEmbedding :=
  (id, {| apiId := id; embedding := [x; y];
          metadata := {| md_name := id; md_type := "ai";
                         md_capabilities := caps; md_description := "" |} |}).

Definition sample_cache : Cache :=
  [ plane "a" 1 0 ["chat"; "embeddings"];
    plane "b" 1 1 ["chat"];
    plane "c" 2 0 ["embeddings"; "search"] ].

End SimilarSpec.

(** ** Caches of the embedding engine *)

Module CacheSpec.

Import EmbeddingEngine.

(** The vectors of a cache all have the dimension of the mock. *)
Definition cache_dimension (cache : Cache) : Prop :=
  Forall (fun kv => List.length (embedding (snd kv)) = DIMENSION) cache.

(** The embedding that [generateEmbeddings] builds for an api. *)
Definition embedding_of (api : APIConfig) : APIEmbedding :=
  {| apiId := cfg_id api;
     embedding := generateMockEmbedding (createAPIText api);
     metadata := {| md_name := cfg_name api;
                    md_type := cfg_type api;
                    md_capabilities := cfg_capabilities api;
                    md_description := cfg_description api |} |}.

(** The last api of a list that has the id [id]. *)
Definition last_with_id (id : string) (apis : list APIConfig) : option APIConfig :=
  find (fun api => String.eqb (cfg_id api) id) (rev apis).

(** The record that a cache entry owes to the target [t], cached under
    [targetApiId]: none for the target's own entry and for an entry below the
    threshold. *)
Definition record_of (targetApiId : string) (t : APIEmbedding) (threshold : float)
    (entry : string * APIEmbedding) : list SemanticSimilarity :=
  if String.eqb (fst entry) targetApiId then []
  else match calculateSimilarity (embedding t) (embedding (snd entry)) with
       | Ok s =>
           if (threshold <=? s)%float
           then [ {| api1 := targetApiId; api2 := fst entry; similarity := s;
                     sharedCapabilities := shared t (snd entry) |} ]
           else []
       | Throw _ => []
       end.

End CacheSpec.

(** ** [services/api-discovery.ts] *)

Module APIDiscoveryService.

(** An entry of [knownAPIPatterns]. *)
Record Pattern : Type := {
  pat_name : string;
  pat_type : string;
  pat_description : string;
  pat_endpoints : list string;
  pat_capabilities : list string
}.

(** [knownAPIPatterns], in the order of the object literal. *)
Definition knownAPIPatterns : list (string * Pattern) :=
  [ ("OPENAI_API_KEY",
     {| pat_name := "OpenAI"; pat_type := "ai";
        pat_description := "OpenAI API for language models and embeddings";
        pat_endpoints := ["https://api.openai.com/v1"];
        pat_capabilities := ["text-generation"; "embeddings"; "chat"] |});
    ("HUGGINGFACE_API_KEY",
     {| pat_name := "Hugging Face"; pat_type := "ai";
        pat_description := "Hugging Face API for machine learning models";
        pat_endpoints := ["https://api-inference.huggingface.co"];
        pat_capabilities := ["text-generation"; "embeddings"; "classification"] |});
    ("GITHUB_TOKEN",
     {| pat_name := "GitHub"; pat_type := "version-control";
        pat_description := "GitHub API for repository management";
        pat_endpoints := ["https://api.github.com"];
        pat_capabilities := ["repository-management"; "user-management"; "webhook"] |});
    ("GITLAB_TOKEN",
     {| pat_name := "GitLab"; pat_type := "version-control";
        pat_description := "GitLab API for repository management";
        pat_endpoints := ["https://gitlab.com/api/v4"];
        pat_capabilities := ["repository-management"; "ci-cd"; "user-management"] |});
    ("COHERE_API_KEY",
     {| pat_name := "Cohere"; pat_type := "ai";
        pat_description := "Cohere API for natural language processing";
        pat_endpoints := ["https://api.cohere.ai/v1"];
        pat_capabilities := ["text-generation"; "embeddings"; "classification"] |});
    ("ANTHROPIC_API_KEY",
     {| pat_name := "Anthropic"; pat_type := "ai";
        pat_description := "Anthropic API for Claude AI models";
        pat_endpoints := ["https://api.anthropic.com/v1"];
        pat_capabilities := ["text-generation"; "chat"; "analysis"] |}) ].

(** The [replace] of the value: all its single and double quote characters
    (code units 39 and 34) are removed. *)
Fixpoint removeQuotes (value : string) : string :=
  match value with
  | EmptyString => EmptyString
  | String c rest =>
      if ((nat_of_ascii c =? 34) || (nat_of_ascii c =? 39))%nat
      then removeQuotes rest
      else String c (removeQuotes rest)
  end.

(** The descriptor that [parseEnvFile] pushes for a line [key=value] of the
    file [filePath] whose key is one of the six of [knownAPIPatterns], with
    the pattern [pattern], at the clock reading [now]. *)
Definition descriptor (now : N) (key value filePath : string) (pattern : Pattern)
  : APIConfig :=
  {| cfg_id := JsString.toLowerCase (pat_name pattern) ++ "-" ++ Js.decimal now;
     cfg_name := pat_name pattern;
     cfg_type := pat_type pattern;
     cfg_description := pat_description pattern;
     cfg_endpoints := pat_endpoints pattern;
     cfg_capabilities := pat_capabilities pattern;
     cfg_apiKey := removeQuotes value;
     cfg_envKey := key;
     cfg_configSource := filePath |}%string.

(** [getAPICapabilities]: the capabilities of the first pattern of that
    name, or none. *)
Definition getAPICapabilities (apiName : string) : list string :=
  match find (fun p => String.eqb (pat_name p) apiName) (map snd knownAPIPatterns) with
  | Some pattern => pat_capabilities pattern
  | None => []
  end.

(** [isCompatibleAPIs]. *)
Definition isCompatibleAPIs (api1 api2 : APIConfig) : bool :=
  let sharedCapabilities :=
    filter (Js.includes (cfg_capabilities api2)) (cfg_capabilities api1) in
  (0 <? List.length sharedCapabilities)%nat.

End APIDiscoveryService.

(** ** The engines an orchestration engine can be in *)

Module Lifecycle.

Import OrchestrationEngine.

(** The registries that the operations of the engine build from the empty
    one, each operation run to its end before the next. *)
Inductive reachable {handlers : StepHandlers} : Engine -> Prop :=
| reach_new : reachable []
| reach_create (now : N) (name : string) (apis : list APIConfig) (engine : Engine) :
    reachable engine ->
    reachable (snd (createOrchestrationFlow now name apis engine))
| reach_add (now : N) (flowId : string) (step : StepInput) (engine engine' : Engine) :
    reachable engine ->
    addOrchestrationStep now flowId step engine = Ok engine' ->
    reachable engine'
| reach_execute (flowId : string) (engine : Engine) :
    reachable engine ->
    reachable (fst (fst (executeFlow flowId engine)))
| reach_delete (flowId : string) (engine : Engine) :
    reachable engine ->
    reachable (deleteFlow flowId engine).

(** Steps in ascending order of [order]. *)
Definition ascending (steps : list OrchestrationStep) : Prop :=
  StronglySorted (fun a b => (step_order a <= step_order b)%Z) steps.

(** [l] starts with [p]. *)
Definition starts_with {A : Type} (l p : list A) : Prop := exists rest, l = p ++ rest.

(** A flow with another status and everything else as it is. *)
Definition with_status (flow : APIOrchestrationFlow) (status : FlowStatus)
  : APIOrchestrationFlow :=
  {| flow_id := flow_id flow; flow_name := flow_name flow;
     flow_steps := flow_steps flow; flow_apis := flow_apis flow;
     flow_status := status |}.

(** A flow with another step list and everything else as it is. *)
Definition with_steps (flow : APIOrchestrationFlow) (steps : list OrchestrationStep)
  : APIOrchestrationFlow :=
  {| flow_id := flow_id flow; flow_name := flow_name flow;
     flow_steps := steps; flow_apis := flow_apis flow;
     flow_status := flow_status flow |}.

(** The step that [addOrchestrationStep] builds at the clock reading
    [now]. *)
Definition new_step (now : N) (step : StepInput) : OrchestrationStep :=
  {| step_id := "step-" ++ Js.decimal now;
     step_action := in_action step;
     step_apiId := in_apiId step;
     step_payload := in_payload step;
     step_order := in_order step |}%string.

(** A registry in good order: no id is registered twice, every flow is
    registered under its own id, and its steps are in ascending order. *)
Definition well_formed (engine : Engine) : Prop :=
  NoDup (Js.keys engine)
  /\ forall (id : string) (flow : APIOrchestrationFlow),
       In (id, flow) engine -> flow_id flow = id /\ ascending (flow_steps flow).

End Lifecycle.

(** ** What [findOptimalRoute] and [suggestOrchestration] look for *)

Module SuggestSpec.

(** An api that can stand between [sourceApi] and [targetApi]. *)
Definition bridges (sourceApi targetApi capability : string) (api : APIConfig) : bool :=
  negb (String.eqb (cfg_id api) sourceApi)
  && negb (String.eqb (cfg_id api) targetApi)
  && Js.includes (cfg_capabilities api) capability.

(** The requirement speaks of text, or of storing, in whatever case. *)
Definition wants_text (requirement : string) : bool :=
  JsString.includes (JsString.toLowerCase requirement) "text"
  || JsString.includes (JsString.toLowerCase requirement) "content".

Definition wants_storage (requirement : string) : bool :=
  JsString.includes (JsString.toLowerCase requirement) "save"
  || JsString.includes (JsString.toLowerCase requirement) "store".

Definition is_ai (api : APIConfig) : bool := String.eqb (cfg_type api) "ai".

Definition is_storage (api : APIConfig) : bool :=
  Js.includes (cfg_capabilities api) "repository-management"
  || String.eqb (cfg_type api) "version-control".

(** The query step for the first ai api, when the requirement speaks of
    text and there is one. *)
Definition query_steps (now : N) (apis : list APIConfig) (requirement : string)
  : list OrchestrationStep :=
  if wants_text requirement
  then match find is_ai apis with
       | Some api =>
           [ {| step_id := "step-" ++ Js.decimal now; step_action := "query";
                step_apiId := cfg_id api;
                step_payload := PayloadObject [("query", requirement)];
                step_order := 1 |}%string ]
       | None => []
       end
  else [].

(** The forward step for the first storage api, when the requirement speaks
    of storing and there is one. *)
Definition forward_steps (now : N) (apis : list APIConfig) (requirement : string)
  : list OrchestrationStep :=
  if wants_storage requirement
  then match find is_storage apis with
       | Some api =>
           [ {| step_id := "step-" ++ Js.decimal now; step_action := "forward";
                step_apiId := cfg_id api;
                step_payload := PayloadObject [("data", "processed content")];
                step_order := 2 |}%string ]
       | None => []
       end
  else [].

End SuggestSpec.

(** ** Descriptors for examples *)

Definition github_api : APIConfig :=
  {| cfg_id := "github-1000"; cfg_name := "GitHub"; cfg_type := "version-control";
     cfg_description := "GitHub API for repository management";
     cfg_endpoints := ["https://api.github.com"];
     cfg_capabilities := ["repository-management"; "user-management"; "webhook"];
     cfg_apiKey := "ghp"; cfg_envKey := "GITHUB_TOKEN"; cfg_configSource := ".env" |}.

Definition huggingface_api : APIConfig :=
  {| cfg_id := "hugging face-1000"; cfg_name := "Hugging Face"; cfg_type := "ai";
     cfg_description := "Hugging Face API for machine learning models";
     cfg_endpoints := ["https://api-inference.huggingface.co"];
     cfg_capabilities := ["text-generation"; "embeddings"; "classification"];
     cfg_apiKey := "hf"; cfg_envKey := "HUGGINGFACE_API_KEY"; cfg_configSource := ".env" |}.

(** What discovery finds in an [.env] file with the three keys. *)
Definition discovered : list APIConfig := [openai_api; github_api; huggingface_api].

(* ================================================================== *)
(** * Part II: properties                                              *)
(* ================================================================== *)

Import EmbeddingEngine.

(** The unit test of the engine: a unit vector is at similarity [1] from
    itself. *)
Example similarity_unit_vectors :
  calculateSimilarity [1; 0; 0]%float [1; 0; 0]%float = Ok 1%float.
Proof. vm_compute. reflexivity. Qed.

(** ** Binary64: comparison and the sign of a difference *)

Section Binary64Facts.

Import Binary64.
Local Open Scope Z_scope.

Lemma digits2_size (m : positive) : digits2_pos m = Pos.size m.
Proof. induction m; simpl; congruence. Qed.

Lemma digits2_bounds (m : positive) :
  2 ^ (Zpos (digits2_pos m) - 1) <= Zpos m < 2 ^ Zpos (digits2_pos m).
Proof.
  rewrite digits2_size. split.
  - pose proof (Pos.size_le m) as H.
    assert (Hz : 2 ^ Zpos (Pos.size m) <= 2 * Zpos m).
    { apply Pos2Z.pos_le_pos in H. rewrite Pos2Z.inj_pow in H.
      rewrite Pos2Z.inj_xO in H. exact H. }
    replace (Zpos (Pos.size m)) with (Z.succ (Zpos (Pos.size m) - 1)) in Hz by lia.
    rewrite Z.pow_succ_r in Hz by lia. lia.
  - pose proof (Pos.size_gt m) as H.
    rewrite <- Pos2Z.inj_pow. now apply Pos2Z.pos_lt_pos.
Qed.

(** What validity says of a finite binary64 value. *)
Lemma bounded_inv (m : positive) (e : Z) :
  bounded prec emax m e = true ->
  -1074 <= e <= 971 /\ Zpos (digits2_pos m) <= 53
  /\ (-1074 < e -> Zpos (digits2_pos m) = 53).
Proof.
  unfold bounded, canonical_mantissa, fexp, SpecFloat.emin, prec, emax.
  intros H. apply andb_true_iff in H as [H1 H2].
  apply Z.eqb_eq in H1. apply Z.leb_le in H2. lia.
Qed.

Lemma finite_rank_bound (m : positive) (e : Z) :
  bounded prec emax m e = true ->
  0 < Zpos m * 2 ^ (e + 1074) < 2 ^ 2098.
Proof.
  intros H. destruct (bounded_inv m e H) as (He & Hd & _).
  pose proof (digits2_bounds m) as [_ Hm].
  assert (Hp : 0 < 2 ^ (e + 1074)) by (apply Z.pow_pos_nonneg; lia).
  split; [lia|].
  assert (Zpos m < 2 ^ 53).
  { eapply Z.lt_le_trans; [exact Hm|]. apply Z.pow_le_mono_r; lia. }
  assert (2 ^ (e + 1074) <= 2 ^ 2045) by (apply Z.pow_le_mono_r; lia).
  replace (2 ^ 2098) with (2 ^ 53 * 2 ^ 2045) by (rewrite <- Z.pow_add_r by lia; reflexivity).
  nia.
Qed.

Lemma finite_compare (m1 m2 : positive) (e1 e2 : Z) :
  bounded prec emax m1 e1 = true -> bounded prec emax m2 e2 = true ->
  match (e1 ?= e2) with
  | Lt => Lt
  | Gt => Gt
  | Eq => Pos.compare_cont Eq m1 m2
  end = (Zpos m1 * 2 ^ (e1 + 1074) ?= Zpos m2 * 2 ^ (e2 + 1074)).
Proof.
  intros H1 H2.
  destruct (bounded_inv m1 e1 H1) as (He1 & Hd1 & Hn1).
  destruct (bounded_inv m2 e2 H2) as (He2 & Hd2 & Hn2).
  pose proof (digits2_bounds m1) as [Hl1 Hu1].
  pose proof (digits2_bounds m2) as [Hl2 Hu2].
  assert (Hlt : forall ma mb ea eb,
             -1074 <= ea -> ea < eb -> Zpos ma < 2 ^ 53 -> 2 ^ 52 <= Zpos mb ->
             Zpos ma * 2 ^ (ea + 1074) < Zpos mb * 2 ^ (eb + 1074)).
  { intros ma mb ea eb Ha Hab Hma Hmb.
    replace (eb + 1074) with ((eb - ea - 1) + 1 + (ea + 1074)) by lia.
    rewrite (Z.pow_add_r 2 (eb - ea - 1 + 1) (ea + 1074)) by lia.
    rewrite (Z.pow_add_r 2 (eb - ea - 1) 1) by lia.
    assert (0 < 2 ^ (ea + 1074)) by (apply Z.pow_pos_nonneg; lia).
    assert (1 <= 2 ^ (eb - ea - 1)) by (apply (Z.pow_le_mono_r 2 0); lia).
    change (2 ^ 53) with (2 * 2 ^ 52) in Hma. change (2 ^ 1) with 2.
    generalize dependent (2 ^ 52). generalize dependent (2 ^ (ea + 1074)).
    generalize dependent (2 ^ (eb - ea - 1)). intros Q HQ P HP K HK1 HK2.
    apply Z.lt_le_trans with (2 * K * P); [nia|].
    apply Z.le_trans with (2 * Zpos mb * P); nia. }
  assert (Hm53 : forall m, Zpos (digits2_pos m) <= 53 -> Zpos m < 2 ^ Zpos (digits2_pos m) -> Zpos m < 2 ^ 53).
  { intros m Hd Hu. eapply Z.lt_le_trans; [exact Hu|]. apply Z.pow_le_mono_r; lia. }
  destruct (Z.compare_spec e1 e2) as [Heq|Hlt'|Hgt]; symmetry.
  - subst e2. rewrite Pos.compare_cont_spec.
    assert (0 < 2 ^ (e1 + 1074)) by (apply Z.pow_pos_nonneg; lia).
    destruct (Pos.compare_spec m1 m2) as [E|L|G]; cbn [Pos.switch_Eq].
    + rewrite E. apply Z.compare_refl.
    + apply Z.compare_lt_iff. apply Pos2Z.pos_lt_pos in L.
      now apply Z.mul_lt_mono_pos_r.
    + apply Z.compare_gt_iff. apply Pos2Z.pos_lt_pos in G.
      now apply Z.mul_lt_mono_pos_r.
  - apply Z.compare_lt_iff. apply Hlt; try lia.
    + now apply Hm53.
    + rewrite Hn2 in Hl2 by lia. exact Hl2.
  - apply Z.compare_gt_iff. apply Hlt; try lia.
    + now apply Hm53.
    + rewrite Hn1 in Hl1 by lia. exact Hl1.
Qed.

(** [SFcompare] on valid values that are not NaN is the order of ranks. *)
Lemma SFcompare_rank (x y : spec_float) :
  valid_binary x = true -> valid_binary y = true ->
  is_nan_sf x = false -> is_nan_sf y = false ->
  SFcompare x y = Some (rank x ?= rank y).
Proof.
  intros Vx Vy Nx Ny.
  assert (Hbig : 0 < 2 ^ 2098) by reflexivity.
  destruct x as [sx|sx| |sx mx ex], y as [sy|sy| |sy my ey];
    try discriminate; cbn [valid_binary] in Vx, Vy;
    try pose proof (finite_rank_bound mx ex Vx);
    try pose proof (finite_rank_bound my ey Vy);
    try (destruct sx); try (destruct sy);
    cbn [SFcompare rank cond_Zopp]; f_equal; symmetry;
    try reflexivity;
    try (apply Z.compare_lt_iff; lia);
    try (apply Z.compare_gt_iff; lia).
  - rewrite Z.compare_opp.
    rewrite <- (finite_compare my mx ey ex Vy Vx).
    rewrite (Z.compare_antisym ex ey).
    pose proof (Pos.compare_cont_antisym mx my Eq) as Ha. cbn [CompOpp] in Ha.
    rewrite <- Ha.
    destruct (ex ?= ey); reflexivity.
  - symmetry. exact (finite_compare mx my ex ey Vx Vy).
Qed.

(** *** The sign of a difference *)

Lemma iter_xO_pow (m d : positive) :
  Zpos (Pos.iter xO m d) = Zpos m * 2 ^ Zpos d.
Proof.
  induction d as [|d IH] using Pos.peano_ind.
  - simpl. lia.
  - rewrite Pos.iter_succ, Pos2Z.inj_xO, IH, Pos2Z.inj_succ.
    rewrite Z.pow_succ_r by apply Pos2Z.is_nonneg. ring.
Qed.

Lemma shl_align_value (m : positive) (e ez : Z) :
  ez <= e ->
  Zpos (fst (shl_align m e ez)) = Zpos m * 2 ^ (e - ez).
Proof.
  intros Hle. unfold shl_align.
  destruct (ez - e) as [|d|d] eqn:Hd; cbn [fst].
  - replace (e - ez) with 0 by lia. lia.
  - lia.
  - rewrite iter_xO_pow. f_equal. f_equal. lia.
Qed.

Lemma iter_pos_iter {A : Type} (f : A -> A) (p : positive) :
  forall x, iter_pos f p x = Pos.iter f x p.
Proof.
  induction p as [p IH|p IH|]; intros x; simpl.
  - rewrite !IH, !Pos.iter_swap. reflexivity.
  - now rewrite !IH.
  - reflexivity.
Qed.

Lemma shr_1_lower (mrs : shr_record) (k : Z) :
  2 * k <= shr_m mrs -> k <= shr_m (shr_1 mrs).
Proof.
  destruct mrs as [m r t]. cbn [shr_m].
  destruct m as [|[p|p|]|[p|p|]]; cbn [shr_1 shr_m]; lia.
Qed.

Lemma iter_shr_1_lower (p : positive) :
  forall (mrs : shr_record) (k : Z),
    2 ^ Zpos p * k <= shr_m mrs -> k <= shr_m (Pos.iter shr_1 mrs p).
Proof.
  induction p as [|p IH] using Pos.peano_ind; intros mrs k Hk.
  - apply shr_1_lower. change (2 ^ 1) with 2 in Hk. exact Hk.
  - rewrite Pos.iter_succ. apply shr_1_lower. apply IH.
    rewrite Pos2Z.inj_succ, Z.pow_succ_r in Hk by lia. lia.
Qed.

Lemma shr_record_of_loc_m (m : Z) (l : location) :
  shr_m (shr_record_of_loc m l) = m.
Proof. destruct l as [|[| |]]; reflexivity. Qed.

(** Rounding a positive mantissa on an exponent of the format keeps it
    positive: at most [digits - 53] bits are shifted out. *)
Lemma shr_fexp_pos (m : positive) (e : Z) (l : location) :
  -1074 <= e ->
  0 < shr_m (fst (shr_fexp prec emax (Zpos m) e l))
  /\ -1074 <= snd (shr_fexp prec emax (Zpos m) e l).
Proof.
  intros He. unfold shr_fexp, shr, fexp, SpecFloat.emin, prec, emax.
  cbn [Zdigits2].
  destruct (Z.max (Zpos (digits2_pos m) + e - 53) (3 - 1024 - 53) - e)
    as [|q|q] eqn:Hq; cbn [fst snd]; rewrite ?shr_record_of_loc_m; try lia.
  split; [|lia].
  rewrite iter_pos_iter.
  apply (Z.lt_le_trans 0 1); [lia|].
  apply iter_shr_1_lower. rewrite shr_record_of_loc_m, Z.mul_1_r.
  pose proof (digits2_bounds m) as [Hl _].
  eapply Z.le_trans; [|exact Hl].
  apply Z.pow_le_mono_r; lia.
Qed.

Lemma round_nearest_even_pos (m : Z) (l : location) :
  0 < m -> 0 < round_nearest_even m l.
Proof.
  intros Hm. destruct l as [|[| |]]; cbn [round_nearest_even]; try lia.
  destruct (Z.even m); lia.
Qed.

Lemma binary_round_aux_pos (m : positive) (e : Z) (l : location) :
  -1074 <= e ->
  positive_sf (binary_round_aux prec emax false (Zpos m) e l) = true.
Proof.
  intros He. unfold binary_round_aux.
  destruct (shr_fexp_pos m e l He) as [H1 H1e].
  destruct (shr_fexp prec emax (Zpos m) e l) as [mrs' e'].
  cbn [fst snd] in H1, H1e.
  pose proof (round_nearest_even_pos (shr_m mrs') (loc_of_shr_record mrs') H1) as H2.
  destruct (round_nearest_even (shr_m mrs') (loc_of_shr_record mrs')) as [|m2|m2];
    try lia.
  destruct (shr_fexp_pos m2 e' loc_Exact H1e) as [H3 _].
  destruct (shr_fexp prec emax (Zpos m2) e' loc_Exact) as [mrs'' e''].
  cbn [fst] in H3.
  destruct (shr_m mrs'') as [|m3|m3]; try lia.
  destruct (e'' <=? emax - prec); reflexivity.
Qed.

Lemma binary_round_pos (m : positive) (e : Z) :
  -1074 <= e ->
  positive_sf (binary_round prec emax false m e) = true.
Proof.
  intros He. unfold binary_round.
  destruct (shl_align m e (fexp prec emax (Zpos (digits2_pos m) + e)))
    as [mz ez] eqn:Hal.
  apply binary_round_aux_pos.
  unfold shl_align in Hal.
  destruct (fexp prec emax (Zpos (digits2_pos m) + e) - e) eqn:Hd;
    inversion Hal; subst; try lia.
  unfold fexp, SpecFloat.emin, prec, emax. lia.
Qed.

Lemma binary_round_neg (m : positive) (e : Z) :
  positive_sf (binary_round prec emax true m e) = false.
Proof.
  unfold binary_round, binary_round_aux.
  destruct (shl_align _ _ _) as [mz ez].
  destruct (shr_fexp prec emax (Zpos mz) ez loc_Exact) as [mrs' e'].
  destruct (shr_fexp _ _ _ _ _) as [mrs'' e''].
  destruct (shr_m mrs''); try reflexivity.
  destruct (e'' <=? emax - prec); reflexivity.
Qed.

Lemma binary_normalize_sign (d e : Z) :
  -1074 <= e ->
  positive_sf (binary_normalize prec emax d e false) = (0 <? d).
Proof.
  intros He. destruct d as [|p|p]; cbn [binary_normalize].
  - reflexivity.
  - now apply binary_round_pos.
  - apply binary_round_neg.
Qed.

(** The difference [y - x] of two valid values that are not NaN is positive
    exactly when [x] ranks below [y]. *)
Lemma SFsub_positive (x y : spec_float) :
  valid_binary x = true -> valid_binary y = true ->
  is_nan_sf x = false -> is_nan_sf y = false ->
  positive_sf (SFsub prec emax y x) = (rank x <? rank y).
Proof.
  intros Vx Vy Nx Ny.
  assert (Hbig : 0 < 2 ^ 2098) by reflexivity.
  destruct x as [sx|sx| |sx mx ex], y as [sy|sy| |sy my ey];
    try discriminate; cbn [valid_binary] in Vx, Vy;
    try pose proof (finite_rank_bound mx ex Vx) as Bx;
    try pose proof (finite_rank_bound my ey Vy) as By.
  1-8: try (destruct sx); try (destruct sy);
    cbn [SFsub rank cond_Zopp negb positive_sf SFltb SFcompare];
    symmetry; try reflexivity;
    first [ apply Z.ltb_lt; lia | apply Z.ltb_ge; lia ].
  cbn [SFsub].
  destruct (bounded_inv mx ex Vx) as (Hex & _).
  destruct (bounded_inv my ey Vy) as (Hey & _).
  rewrite binary_normalize_sign by lia.
  rewrite !shl_align_value by lia.
  cbn [rank].
  set (ez := Z.min ey ex).
  assert (Hx : Zpos mx * 2 ^ (ex + 1074) = Zpos mx * 2 ^ (ex - ez) * 2 ^ (ez + 1074)).
  { rewrite <- Z.mul_assoc, <- Z.pow_add_r by lia. f_equal. f_equal. lia. }
  assert (Hy : Zpos my * 2 ^ (ey + 1074) = Zpos my * 2 ^ (ey - ez) * 2 ^ (ez + 1074)).
  { rewrite <- Z.mul_assoc, <- Z.pow_add_r by lia. f_equal. f_equal. lia. }
  rewrite Hx, Hy.
  assert (HP : 0 < 2 ^ (ez + 1074)) by (apply Z.pow_pos_nonneg; lia).
  assert (Ha : 0 < Zpos mx * 2 ^ (ex - ez))
    by (apply Z.mul_pos_pos; [lia | apply Z.pow_pos_nonneg; lia]).
  assert (Hb : 0 < Zpos my * 2 ^ (ey - ez))
    by (apply Z.mul_pos_pos; [lia | apply Z.pow_pos_nonneg; lia]).
  clear Hx Hy Bx By.
  generalize dependent (2 ^ (ez + 1074)). intros P HP.
  generalize dependent (Zpos my * 2 ^ (ey - ez)). intros b Hb.
  generalize dependent (Zpos mx * 2 ^ (ex - ez)). intros a Ha.
  apply Bool.eq_iff_eq_true. rewrite !Z.ltb_lt.
  destruct sx, sy; cbn [cond_Zopp]; split; intros; nia.
Qed.

(** *** The primitive operations *)

Lemma Prim2SF_nan (x : float) : is_nan_sf (Prim2SF x) = PrimFloat.is_nan x.
Proof.
  unfold Prim2SF. destruct (PrimFloat.is_nan x); [reflexivity|].
  destruct (PrimFloat.is_zero x); [reflexivity|].
  destruct (PrimFloat.is_infinity x); [reflexivity|].
  destruct (Z.frexp x) as [r ex].
  destruct (shr_fexp _ _ _ _ _) as [mrs e'].
  destruct (shr_m mrs); reflexivity.
Qed.

Lemma ltb_frank (x y : float) :
  PrimFloat.is_nan x = false -> PrimFloat.is_nan y = false ->
  (x <? y)%float = (frank x <? frank y).
Proof.
  intros Nx Ny. rewrite FloatAxioms.ltb_spec. unfold SFltb, frank.
  rewrite SFcompare_rank by (rewrite ?Prim2SF_nan; auto using Prim2SF_valid).
  rewrite Z.ltb_compare. reflexivity.
Qed.

Lemma leb_frank (x y : float) :
  PrimFloat.is_nan x = false -> PrimFloat.is_nan y = false ->
  (x <=? y)%float = (frank x <=? frank y).
Proof.
  intros Nx Ny. rewrite FloatAxioms.leb_spec. unfold SFleb, frank.
  rewrite SFcompare_rank by (rewrite ?Prim2SF_nan; auto using Prim2SF_valid).
  rewrite Z.leb_compare. reflexivity.
Qed.

Lemma leb_true_not_nan (x y : float) :
  (x <=? y)%float = true ->
  PrimFloat.is_nan x = false /\ PrimFloat.is_nan y = false.
Proof.
  rewrite FloatAxioms.leb_spec, <- !Prim2SF_nan. unfold SFleb.
  destruct (Prim2SF x), (Prim2SF y); cbn; intros H; try discriminate; auto.
Qed.

(** [y - x > 0] holds exactly when [x < y]. *)
Lemma sub_positive (x y : float) :
  PrimFloat.is_nan x = false -> PrimFloat.is_nan y = false ->
  (0 <? y - x)%float = (x <? y)%float.
Proof.
  intros Nx Ny. rewrite (ltb_frank x y Nx Ny).
  rewrite FloatAxioms.ltb_spec, FloatAxioms.sub_spec. 
  change (Prim2SF 0) with (S754_zero false).
  apply (SFsub_positive (Prim2SF x) (Prim2SF y));
    rewrite ?Prim2SF_nan; auto using Prim2SF_valid.
Qed.

End Binary64Facts.

(** ** The similarity engine *)

Section Similarity.

Lemma similarity_loop_folds (a : list float) :
  forall (b : list float) (d m1 m2 : float),
    List.length a = List.length b ->
    similarity_loop a b d m1 m2 =
      (fold_left (fun acc xy => (acc + fst xy * snd xy)%float) (combine a b) d,
       fold_left (fun acc x => (acc + x * x)%float) a m1,
       fold_left (fun acc x => (acc + x * x)%float) b m2).
Proof.
  induction a as [|x a IH]; intros [|y b] d m1 m2 Hlen; simpl in *;
    try discriminate; [reflexivity|].
  apply IH. congruence.
Qed.

(** On vectors of one length the loop computes the cosine of the
    specification; on others it throws. *)
Lemma calculateSimilarity_eq (a b : list float) :
  calculateSimilarity a b =
    if (List.length a =? List.length b)%nat
    then Ok (Cosine.cosine a b)
    else Throw DimensionMismatch.
Proof.
  unfold calculateSimilarity.
  destruct (List.length a =? List.length b)%nat eqn:Hlen; simpl; [|reflexivity].
  apply Nat.eqb_eq in Hlen.
  rewrite (similarity_loop_folds a b _ _ _ Hlen).
  unfold Cosine.cosine, Cosine.norm, Cosine.dot.
  destruct (_ || _); reflexivity.
Qed.

End Similarity.

(** C3.  [calculateSimilarity] throws [DimensionMismatch] exactly when the two
    vectors differ in length.  On vectors of one length it returns, as a pure
    function of the two vectors: exactly [0], which is not NaN, when the
    Euclidean norm of either vector is zero; and otherwise the dot product
    divided by the product of the two Euclidean norms. *)
Theorem calculateSimilarity_cosine (a b : list float) :
  (calculateSimilarity a b = Throw DimensionMismatch
     <-> List.length a <> List.length b)
  /\ calculateSimilarity a b =
       (if (List.length a =? List.length b)%nat
        then Ok (if (Cosine.norm a =? 0)%float || (Cosine.norm b =? 0)%float
                 then 0%float
                 else (Cosine.dot a b / (Cosine.norm a * Cosine.norm b))%float)
        else Throw DimensionMismatch)
  /\ PrimFloat.is_nan 0%float = false.
Proof.
  rewrite calculateSimilarity_eq.
  repeat split.
  - destruct (Nat.eqb_spec (List.length a) (List.length b)); [discriminate | auto].
  - intros Hne. apply Nat.eqb_neq in Hne. rewrite Hne. reflexivity.
Qed.

(** ** The fallback embedding *)

Section MockEmbedding.

Lemma add_at_length (i : nat) (v : float) (arr : list float) :
  List.length (Js.add_at i v arr) = List.length arr.
Proof.
  revert i; induction arr as [|x arr IH]; intros [|i]; simpl; auto.
Qed.

(** The loop never reads the text past the accumulator's length. *)
Lemma mock_loop_firstn (rest : list ascii) :
  forall (i : nat) (emb : list float),
    mock_loop rest i emb = mock_loop (firstn (List.length emb - i) rest) i emb.
Proof.
  induction rest as [|c rest IH]; intros i emb.
  - now rewrite firstn_nil.
  - simpl. destruct (i <? List.length emb)%nat eqn:Hi.
    + apply Nat.ltb_lt in Hi.
      replace (List.length emb - i)%nat with (S (List.length emb - S i)) by lia.
      simpl. apply Nat.ltb_lt in Hi. rewrite Hi.
      rewrite IH, add_at_length. reflexivity.
    + apply Nat.ltb_ge in Hi.
      replace (List.length emb - i)%nat with 0%nat by lia. reflexivity.
Qed.

(** While the index stays inside the accumulator the loop is the fold of
    the specification. *)
Lemma mock_loop_fold_codes (rest : list ascii) :
  forall (i : nat) (emb : list float),
    (i + List.length rest <= List.length emb)%nat ->
    mock_loop rest i emb = FoldSpec.fold_codes rest i emb.
Proof.
  induction rest as [|c rest IH]; intros i emb Hlen; simpl in *; [reflexivity|].
  assert (Hi : (i <? List.length emb)%nat = true) by (apply Nat.ltb_lt; lia).
  rewrite Hi. apply IH. rewrite add_at_length. lia.
Qed.

Lemma list_ascii_length (text : string) :
  List.length (list_ascii_of_string text) = String.length text.
Proof. induction text; simpl; congruence. Qed.

(** X3 (with C4).  A signature of at most [DIMENSION] characters is embedded
    as specified: every character code is folded into the accumulator at its
    index, and the accumulator is L2-normalized. *)
Lemma generateMockEmbedding_short (text : string) :
  (String.length text <= DIMENSION)%nat ->
  generateMockEmbedding text = FoldSpec.embed_text DIMENSION text.
Proof.
  intros Hlen. unfold generateMockEmbedding, generateMockEmbeddingOfDim,
    FoldSpec.embed_text, FoldSpec.l2_normalize.
  rewrite mock_loop_fold_codes; [reflexivity|].
  rewrite repeat_length, list_ascii_length. simpl. exact Hlen.
Qed.

End MockEmbedding.

(** The signature of the OpenAI descriptor has 87 characters: its embedding
    is the fold of the specification. *)
Lemma generateMockEmbedding_short_witness :
  (String.length (createAPIText openai_api) <= DIMENSION)%nat
  /\ generateMockEmbedding (createAPIText openai_api)
     = FoldSpec.embed_text DIMENSION (createAPIText openai_api).
Proof.
  assert (Hlen : (String.length (createAPIText openai_api) <= DIMENSION)%nat)
    by (vm_compute; lia).
  split; [exact Hlen|].
  exact (generateMockEmbedding_short (createAPIText openai_api) Hlen).
Defined.

(** C4.  The code embeds only the first [DIMENSION] = 384 characters of the
    signature: the embedding of a text is the embedding of its first 384
    characters, so a character at index 384 or later contributes nothing.
    The two descriptors [long_api "chat"] and [long_api "embeddings"], whose
    signatures differ from index 406 on, get the same vector, which is not the
    vector of the specification's fold. *)
Theorem generateMockEmbedding_truncates :
  (forall text : string,
      generateMockEmbedding text
      = generateMockEmbedding (string_of_list_ascii
                                 (firstn DIMENSION (list_ascii_of_string text))))
  /\ createAPIText (long_api "chat") <> createAPIText (long_api "embeddings")
  /\ generateLocalEmbedding (long_api "chat")
     = generateLocalEmbedding (long_api "embeddings")
  /\ generateLocalEmbedding (long_api "chat")
     <> FoldSpec.embed_text DIMENSION (createAPIText (long_api "chat")).
Proof.
  split; [|split; [|split]].
  - intros text. unfold generateMockEmbedding, generateMockEmbeddingOfDim.
    rewrite list_ascii_of_string_of_list_ascii.
    rewrite (mock_loop_firstn (list_ascii_of_string text)).
    rewrite repeat_length, Nat.sub_0_r. reflexivity.
  - vm_compute. discriminate.
  - vm_compute. reflexivity.
  - floats_differ.
Qed.

(** ** [Array.prototype.sort] *)

Section SortFacts.

Context {A : Type} (after : A -> A -> bool).

Lemma insert_In (x z : A) (l : list A) :
  In z (Js.insert after x l) <-> z = x \/ In z l.
Proof.
  induction l as [|y l IH]; simpl.
  - intuition congruence.
  - destruct (after x y); simpl; rewrite ?IH; intuition congruence.
Qed.

Lemma insert_perm (x : A) (l : list A) :
  Permutation (x :: l) (Js.insert after x l).
Proof.
  induction l as [|y l IH]; simpl; [reflexivity|].
  destruct (after x y); [|reflexivity].
  rewrite perm_swap. now apply perm_skip.
Qed.

(** The sorted array holds the elements of the array, each as often. *)
Lemma sort_perm (l : list A) : Permutation l (Js.sort after l).
Proof.
  induction l as [|x l IH]; simpl; [constructor|].
  rewrite <- insert_perm. now apply perm_skip.
Qed.

Lemma sort_In (z : A) (l : list A) : In z (Js.sort after l) <-> In z l.
Proof.
  split; apply Permutation_in; [symmetry|]; apply sort_perm.
Qed.

Section Ordered.

(** [dom] holds of the elements the comparator orders consistently, and [R]
    is the order it stands for on them. *)
Context (dom : A -> Prop) (R : A -> A -> Prop).
Hypothesis after_true : forall x y, dom x -> dom y -> after x y = true -> R y x.
Hypothesis after_false : forall x y, dom x -> dom y -> after x y = false -> R x y.
Hypothesis R_trans :
  forall x y z, dom x -> dom y -> dom z -> R x y -> R y z -> R x z.

Lemma insert_sorted (x : A) (l : list A) :
  dom x -> Forall dom l -> StronglySorted R l ->
  StronglySorted R (Js.insert after x l).
Proof.
  intros Dx Dl Hs. induction Hs as [|y l Hs IH Hy]; simpl.
  - repeat constructor.
  - inversion Dl as [|? ? Dy Dl']; subst.
    destruct (after x y) eqn:Hxy.
    + constructor; [now apply IH|].
      apply Forall_forall. intros z Hz. apply insert_In in Hz as [->|Hz].
      * now apply after_true.
      * rewrite Forall_forall in Hy. now apply Hy.
    + constructor; [now constructor|].
      assert (Rxy : R x y) by now apply after_false.
      constructor; [exact Rxy|].
      rewrite Forall_forall in *. intros z Hz.
      apply (R_trans x y z); auto.
Qed.

Lemma sort_sorted (l : list A) :
  Forall dom l -> StronglySorted R (Js.sort after l).
Proof.
  induction l as [|x l IH]; intros Dl; simpl; [constructor|].
  inversion Dl as [|? ? Dx Dl']; subst. apply insert_sorted.
  - exact Dx.
  - apply Forall_forall. intros z Hz. apply (proj1 (sort_In z l)) in Hz.
    rewrite Forall_forall in Dl'. now apply Dl'.
  - now apply IH.
Qed.

End Ordered.

Section Stable.

(** [p] picks a class of elements none of which goes after another. *)
Context (p : A -> bool).
Hypothesis same_class : forall x y, p x = true -> p y = true -> after x y = false.

Lemma insert_filter (x : A) (l : list A) :
  filter p (Js.insert after x l) = filter p (x :: l).
Proof.
  induction l as [|y l IH]; [reflexivity|].
  cbn [Js.insert]. destruct (after x y) eqn:Hxy; [|reflexivity].
  cbn [filter] in *. rewrite IH.
  destruct (p x) eqn:Px, (p y) eqn:Py; try reflexivity.
  rewrite (same_class x y Px Py) in Hxy. discriminate.
Qed.

(** Stability: the elements of a class keep the order they had. *)
Lemma sort_filter (l : list A) : filter p (Js.sort after l) = filter p l.
Proof.
  induction l as [|x l IH]; [reflexivity|].
  cbn [Js.sort fold_right]. rewrite insert_filter.
  cbn [filter]. fold (Js.sort after l). now rewrite IH.
Qed.

End Stable.

End SortFacts.

(** ** [findSimilarAPIs] *)

Section FindSimilar.

Import SimilarSpec.

Lemma includes_In (arr : list string) (x : string) :
  Js.includes arr x = true <-> In x arr.
Proof.
  unfold Js.includes. rewrite existsb_exists. split.
  - intros (y & Hy & Heq). apply String.eqb_eq in Heq. now subst.
  - intros Hx. exists x. split; [exact Hx | apply String.eqb_refl].
Qed.

(** The shared capabilities are the intersection of the two lists. *)
Lemma shared_In (a b : APIEmbedding) (c : string) :
  In c (shared a b)
  <-> In c (md_capabilities (metadata a)) /\ In c (md_capabilities (metadata b)).
Proof.
  unfold shared. rewrite filter_In, includes_In. tauto.
Qed.

Lemma similar_record_cons (kv : string * APIEmbedding) (cache : Cache)
    (tid : string) (t : APIEmbedding) (th : float) (r : SemanticSimilarity) :
  similar_record cache tid t th r -> similar_record (kv :: cache) tid t th r.
Proof.
  intros (H1 & H2 & e & Hin & H). repeat split; auto.
  exists e. split; [now right | exact H].
Qed.

Lemma similar_loop_sound (tid : string) (t : APIEmbedding) (th : float)
    (entries : Cache) :
  forall (acc l : list SemanticSimilarity),
    similar_loop tid t th entries acc = Ok l ->
    exists l', l = acc ++ l' /\ Forall (similar_record entries tid t th) l'.
Proof.
  induction entries as [|[id e] rest IH]; intros acc l Hl; simpl in Hl.
  - inversion Hl; subst. exists []. now rewrite app_nil_r.
  - assert (Hmono : forall l', Forall (similar_record rest tid t th) l' ->
                               Forall (similar_record ((id, e) :: rest) tid t th) l').
    { intros l'. apply Forall_impl. intros r. apply similar_record_cons. }
    destruct (String.eqb id tid) eqn:Hid.
    + destruct (IH _ _ Hl) as (l' & -> & Hall). exists l'. auto.
    + destruct (calculateSimilarity (embedding t) (embedding e)) as [s|err] eqn:Hs;
        simpl in Hl; [|discriminate].
      destruct (th <=? s)%float eqn:Hth.
      * destruct (IH _ _ Hl) as (l' & -> & Hall).
        eexists. rewrite <- app_assoc. split; [reflexivity|].
        constructor; [|now apply Hmono].
        split; [reflexivity|]. split.
        -- simpl. intros ->. now rewrite String.eqb_refl in Hid.
        -- exists e. simpl. split; [now left|].
           split; [exact Hs|]. split; [exact Hth|]. split; [reflexivity|].
           intros c. apply shared_In.
      * destruct (IH _ _ Hl) as (l' & -> & Hall). exists l'. auto.
Qed.

Lemma similar_loop_returns (tid : string) (t : APIEmbedding) (th : float)
    (entries : Cache) :
  Forall (fun kv => List.length (embedding (snd kv)) = List.length (embedding t)) entries ->
  forall acc, exists l, similar_loop tid t th entries acc = Ok l.
Proof.
  induction 1 as [|[id e] rest Hlen _ IH]; intros acc; simpl.
  - now exists acc.
  - destruct (String.eqb id tid); [apply IH|].
    rewrite calculateSimilarity_eq. simpl in Hlen. rewrite Hlen, Nat.eqb_refl.
    simpl. destruct (th <=? _)%float; apply IH.
Qed.

(** The records the loop keeps sort into descending order. *)
Lemma sort_descending (th : float) (l : list SemanticSimilarity) :
  Forall (fun r => (th <=? similarity r)%float = true) l ->
  descending (Js.sort by_similarity_desc l).
Proof.
  intros Hall. unfold descending.
  apply (sort_sorted by_similarity_desc
           (fun r => PrimFloat.is_nan (similarity r) = false)).
  - intros x y Dx Dy. unfold by_similarity_desc.
    rewrite sub_positive, ltb_frank, leb_frank by assumption.
    intros H. apply Z.ltb_lt in H. apply Z.leb_le. lia.
  - intros x y Dx Dy. unfold by_similarity_desc.
    rewrite sub_positive, ltb_frank, leb_frank by assumption.
    intros H. apply Z.ltb_ge in H. apply Z.leb_le. lia.
  - intros x y z Dx Dy Dz. rewrite !leb_frank by assumption.
    intros H1 H2. apply Z.leb_le in H1, H2. apply Z.leb_le. lia.
  - revert Hall. apply Forall_impl. intros r Hr.
    now destruct (leb_true_not_nan _ _ Hr).
Qed.

End FindSimilar.

(** C10.  [findSimilarAPIs] returns the empty list when nothing is cached under
    the target id.  Otherwise every record of a returned list pairs the target
    with the key of another cache entry, never with the target itself, has a
    similarity at or above the threshold, and carries the intersection of the
    two capability lists; the list is in descending order of similarity; and
    a list is returned whenever the cached vectors have the target's length. *)
Theorem findSimilarAPIs_records (cache : Cache) (targetApiId : string) (threshold : float) :
  (Js.get targetApiId cache = None ->
     findSimilarAPIs cache targetApiId threshold = Ok [])
  /\ (forall t : APIEmbedding, Js.get targetApiId cache = Some t ->
        (forall l : list SemanticSimilarity,
            findSimilarAPIs cache targetApiId threshold = Ok l ->
            Forall (SimilarSpec.similar_record cache targetApiId t threshold) l
            /\ SimilarSpec.descending l)
        /\ (Forall (fun kv => List.length (embedding (snd kv))
                              = List.length (embedding t)) cache ->
            exists l, findSimilarAPIs cache targetApiId threshold = Ok l)).
Proof.
  unfold findSimilarAPIs. split.
  - intros ->. reflexivity.
  - intros t ->. split.
    + intros l Hl.
      destruct (similar_loop targetApiId t threshold cache []) as [sims|] eqn:Hloop;
        simpl in Hl; [|discriminate].
      inversion Hl; subst; clear Hl.
      destruct (similar_loop_sound _ _ _ _ _ _ Hloop) as (l' & -> & Hall).
      simpl. split.
      * apply Forall_forall. intros r Hr. apply sort_In in Hr.
        rewrite Forall_forall in Hall. now apply Hall.
      * apply (sort_descending threshold). revert Hall. apply Forall_impl.
        intros r (_ & _ & e & _ & _ & Hth & _). exact Hth.
    + intros Hlen.
      destruct (similar_loop_returns targetApiId t threshold cache Hlen []) as [l Hl].
      rewrite Hl. simpl. eauto.
Qed.

(** On the sample cache the target "a" is paired with "c" and "b", the most
    similar first. *)
Lemma findSimilarAPIs_records_witness :
  findSimilarAPIs SimilarSpec.sample_cache "a" DEFAULT_THRESHOLD
  = Ok [ {| api1 := "a"; api2 := "c"; similarity := 1;
            sharedCapabilities := ["embeddings"] |};
         {| api1 := "a"; api2 := "b"; similarity := 0x1.6a09e667f3bccp-1;
            sharedCapabilities := ["chat"] |} ]
  /\ SimilarSpec.descending
       [ {| api1 := "a"; api2 := "c"; similarity := 1;
            sharedCapabilities := ["embeddings"] |};
         {| api1 := "a"; api2 := "b"; similarity := 0x1.6a09e667f3bccp-1;
            sharedCapabilities := ["chat"] |} ].
Proof.
  assert (E : findSimilarAPIs SimilarSpec.sample_cache "a" DEFAULT_THRESHOLD
              = Ok [ {| api1 := "a"; api2 := "c"; similarity := 1;
                        sharedCapabilities := ["embeddings"] |};
                     {| api1 := "a"; api2 := "b"; similarity := 0x1.6a09e667f3bccp-1;
                        sharedCapabilities := ["chat"] |} ])
    by (vm_compute; reflexivity).
  split; [exact E|].
  destruct (findSimilarAPIs_records SimilarSpec.sample_cache "a" DEFAULT_THRESHOLD)
    as [_ H].
  destruct (H (snd (SimilarSpec.plane "a" 1 0 ["chat"; "embeddings"])) eq_refl)
    as [Hrec _].
  exact (proj2 (Hrec _ E)).
Defined.

(** ** Map-based groupings *)

Section GroupingFacts.

Import Grouping.

Lemma forEach_push_kept {A B : Type} (f : A -> option B) (arr : list A) :
  forall out, Js.forEach_push f arr out = out ++ kept f arr.
Proof.
  unfold Js.forEach_push, kept.
  induction arr as [|a arr IH]; intros out; simpl.
  - now rewrite app_nil_r.
  - rewrite IH. destruct (f a); [now rewrite <- app_assoc | reflexivity].
Qed.

Lemma push_new_In (acc : list string) (x y : string) :
  In y (Js.push_new acc x) <-> In y acc \/ y = x.
Proof.
  unfold Js.push_new. destruct (Js.includes acc x) eqn:Hx.
  - apply includes_In in Hx. intuition congruence.
  - rewrite in_app_iff. simpl. intuition congruence.
Qed.

Lemma push_new_NoDup (acc : list string) (x : string) :
  NoDup acc -> NoDup (Js.push_new acc x).
Proof.
  intros Hnd. unfold Js.push_new. destruct (Js.includes acc x) eqn:Hx; [exact Hnd|].
  apply NoDup_app; [exact Hnd | repeat constructor; auto |].
  intros y Hy [<-|[]]. apply includes_In in Hy. congruence.
Qed.

Lemma fold_push_new_In (l : list string) :
  forall acc y, In y (fold_left Js.push_new l acc) <-> In y acc \/ In y l.
Proof.
  induction l as [|x l IH]; intros acc y; simpl; [tauto|].
  rewrite IH, push_new_In. intuition congruence.
Qed.

Lemma fold_push_new_NoDup (l : list string) :
  forall acc, NoDup acc -> NoDup (fold_left Js.push_new l acc).
Proof.
  induction l as [|x l IH]; intros acc Hnd; simpl; auto using push_new_NoDup.
Qed.

Lemma distinct_In (l : list string) (y : string) : In y (distinct l) <-> In y l.
Proof. unfold distinct. rewrite fold_push_new_In. simpl. tauto. Qed.

Lemma distinct_NoDup (l : list string) : NoDup (distinct l).
Proof. apply fold_push_new_NoDup. constructor. Qed.

Lemma distinct_snoc (l : list string) (x : string) :
  distinct (l ++ [x]) = Js.push_new (distinct l) x.
Proof. unfold distinct. now rewrite fold_left_app. Qed.

Section Upsert.

Context {V E : Type} (init : V) (upd : V -> E -> V).

Lemma get_map_keys (f : string -> V) (keys : list string) (k : string) :
  Js.get k (map (fun c => (c, f c)) keys) = if Js.includes keys k then Some (f k) else None.
Proof.
  induction keys as [|c keys IH]; simpl; [reflexivity|].
  destruct (String.eqb_spec k c) as [->|Hne]; [reflexivity | exact IH].
Qed.

Lemma set_absent (k : string) (v : V) (m : Js.Map V) :
  Js.get k m = None -> Js.set k v m = m ++ [(k, v)].
Proof.
  induction m as [|[c w] m IH]; simpl; [reflexivity|].
  destruct (String.eqb k c); [discriminate|]. intros H. now rewrite IH.
Qed.

Lemma set_map_keys (f : string -> V) (keys : list string) (k : string) (v : V) :
  NoDup keys -> In k keys ->
  Js.set k v (map (fun c => (c, f c)) keys)
  = map (fun c => (c, if String.eqb c k then v else f c)) keys.
Proof.
  induction keys as [|c keys IH]; intros Hnd Hin; [destruct Hin|].
  inversion Hnd as [|? ? Hc Hnd']; subst. simpl.
  destruct (String.eqb_spec k c) as [->|Hne].
  - rewrite String.eqb_refl. f_equal.
    apply map_ext_in. intros a Ha.
    destruct (String.eqb_spec a c) as [->|]; [contradiction | reflexivity].
  - destruct (String.eqb_spec c k) as [->|_]; [congruence|].
    f_equal. apply IH; [exact Hnd'|]. destruct Hin; congruence.
Qed.

Lemma under_snoc (c k : string) (e : E) (events : list (string * E)) :
  under c (events ++ [(k, e)])
  = if String.eqb k c then under c events ++ [e] else under c events.
Proof.
  unfold under. rewrite filter_app, map_app. simpl.
  destruct (String.eqb k c); simpl; [reflexivity | now rewrite app_nil_r].
Qed.

Lemma under_absent (k : string) (events : list (string * E)) :
  ~ In k (map fst events) -> under k events = [].
Proof.
  unfold under. induction events as [|[c e] events IH]; simpl; [reflexivity|].
  intros Hk. destruct (String.eqb_spec c k) as [->|_]; [tauto|].
  apply IH. tauto.
Qed.

Lemma upsert_grouped_snoc (events : list (string * E)) (ke : string * E) :
  Js.upsert init upd (grouped init upd events) ke = grouped init upd (events ++ [ke]).
Proof.
  destruct ke as [k e]. unfold Js.upsert, grouped, Js.has. cbn [fst snd].
  rewrite (map_app fst). cbn [map fst]. rewrite distinct_snoc.
  rewrite get_map_keys. unfold Js.push_new.
  destruct (Js.includes (distinct (map fst events)) k) eqn:Hk.
  - rewrite get_map_keys, Hk.
    rewrite set_map_keys;
      [| apply distinct_NoDup | now apply includes_In].
    apply map_ext. intros c. rewrite under_snoc.
    rewrite (String.eqb_sym c k).
    destruct (String.eqb_spec k c) as [->|_]; [|reflexivity].
    now rewrite fold_left_app.
  - assert (Hnone : Js.get k (map (fun c => (c, fold_left upd (under c events) init))
                               (distinct (map fst events))) = None)
      by (now rewrite get_map_keys, Hk).
    rewrite (set_absent _ _ _ Hnone).
    assert (Hget : forall (m : Js.Map V) v, Js.get k m = None ->
                     Js.get k (m ++ [(k, v)]) = Some v).
    { induction m as [|[c w] m IHm]; simpl; intros v.
      - now rewrite String.eqb_refl.
      - destruct (String.eqb k c); [discriminate | apply IHm]. }
    rewrite (Hget _ _ Hnone).
    assert (Hset : forall (m : Js.Map V) v w, Js.get k m = None ->
                     Js.set k w (m ++ [(k, v)]) = m ++ [(k, w)]).
    { induction m as [|[c u] m IHm]; simpl; intros v w.
      - now rewrite String.eqb_refl.
      - destruct (String.eqb k c); [discriminate|]. intros H. now rewrite IHm. }
    rewrite (Hset _ _ _ Hnone).
    rewrite map_app. cbn [map]. f_equal.
    + apply map_ext_in. intros c Hc. rewrite under_snoc.
      destruct (String.eqb_spec k c) as [->|_]; [|reflexivity].
      apply includes_In in Hc. congruence.
    + rewrite under_snoc, String.eqb_refl.
      rewrite under_absent; [reflexivity|].
      intros Hin. apply distinct_In, includes_In in Hin. congruence.
Qed.

(** Folding [upsert] over the events builds the grouping. *)
Lemma fold_upsert_grouped (events : list (string * E)) :
  fold_left (Js.upsert init upd) events [] = grouped init upd events.
Proof.
  induction events as [|ke events IH] using rev_ind; [reflexivity|].
  rewrite fold_left_app. simpl. rewrite IH. apply upsert_grouped_snoc.
Qed.

(** The nested [forEach] of the builder visits the events in order. *)
Lemma fold_nested_upsert {X : Type} (keys_of : X -> list string) (elem : X -> E)
    (xs : list X) :
  forall m,
    fold_left
      (fun m x => fold_left (fun m k => Js.upsert init upd m (k, elem x)) (keys_of x) m)
      xs m
    = fold_left (Js.upsert init upd)
        (flat_map (fun x => map (fun k => (k, elem x)) (keys_of x)) xs) m.
Proof.
  induction xs as [|x xs IH]; intros m; simpl; [reflexivity|].
  rewrite fold_left_app, IH. f_equal.
  generalize (keys_of x) m. intros ks. induction ks as [|k ks IHk]; intros m'; simpl; auto.
Qed.

End Upsert.

End GroupingFacts.

(** ** Clusters *)

Section Clusters.

Import Grouping SemanticGraphGenerator ClusterSpec.

Lemma fold_snoc_id {X : Type} (l : list X) :
  forall acc, fold_left (fun g n => g ++ [n]) l acc = acc ++ l.
Proof.
  induction l as [|x l IH]; intros acc; simpl.
  - now rewrite app_nil_r.
  - rewrite IH, <- app_assoc. reflexivity.
Qed.

Lemma fold_left_map {X Y Z : Type} (f : Z -> Y -> Z) (g : X -> Y) (l : list X) :
  forall z, fold_left (fun z x => f z (g x)) l z = fold_left f (map g l) z.
Proof. induction l as [|x l IH]; intros z; simpl; auto. Qed.

Lemma typeGroups_grouped (nodes : list GraphNode) :
  typeGroups nodes = map (fun t => (t, nodes_of_type t nodes)) (types nodes).
Proof.
  unfold typeGroups.
  rewrite (fold_left_map (Js.upsert [] (fun group n => group ++ [n]))
             (fun node => (node_type node, node))).
  rewrite fold_upsert_grouped. unfold grouped, types.
  rewrite map_map. cbn [fst]. apply map_ext. intros t. f_equal.
  rewrite fold_snoc_id. cbn [app]. unfold under, nodes_of_type.
  induction nodes as [|n nodes IH]; [reflexivity|]. cbn [map filter fst].
  destruct (String.eqb (node_type n) t); cbn [map snd]; now rewrite IH.
Qed.

Lemma filter_eqb_NoDup (l : list string) (c : string) :
  NoDup l ->
  filter (fun x => String.eqb x c) l = if Js.includes l c then [c] else [].
Proof.
  unfold Js.includes. induction 1 as [|x l Hx Hnd IH]; [reflexivity|].
  cbn [filter existsb]. rewrite (String.eqb_sym c x).
  destruct (String.eqb_spec x c) as [->|Hne]; cbn [orb]; [|exact IH].
  rewrite IH. destruct (existsb (String.eqb c) l) eqn:Hex; [|reflexivity].
  apply existsb_exists in Hex as (y & Hy & Heq).
  apply String.eqb_eq in Heq. subst. contradiction.
Qed.

Lemma capabilityGroups_grouped (nodes : list GraphNode) :
  Forall (fun n => NoDup (node_capabilities n)) nodes ->
  capabilityGroups nodes = map (fun c => (c, nodes_with c nodes)) (capabilities nodes).
Proof.
  intros Hnd. unfold capabilityGroups.
  rewrite (fold_nested_upsert [] (fun group n => group ++ [n])
             node_capabilities (fun n => n)).
  rewrite fold_upsert_grouped. unfold grouped, capabilities.
  replace (map fst (flat_map (fun x => map (fun k => (k, x)) (node_capabilities x)) nodes))
    with (flat_map node_capabilities nodes).
  2:{ clear Hnd. induction nodes as [|n nodes IH]; [reflexivity|]. cbn [flat_map].
      rewrite map_app, map_map. cbn [fst]. rewrite map_id. now f_equal. }
  apply map_ext. intros c. f_equal.
  rewrite fold_snoc_id. cbn [app]. unfold under, nodes_with.
  induction Hnd as [|n nodes Hn _ IH]; [reflexivity|].
  cbn [flat_map filter]. rewrite filter_app, map_app, IH. clear IH.
  replace (map snd (filter (fun ke => String.eqb (fst ke) c)
                      (map (fun k => (k, n)) (node_capabilities n))))
    with (map (fun _ => n) (filter (fun x => String.eqb x c) (node_capabilities n))).
  2:{ generalize (node_capabilities n). intros l.
      induction l as [|x l IHl]; [reflexivity|]. cbn [map filter fst].
      destruct (String.eqb x c); cbn [map snd]; now rewrite IHl. }
  rewrite (filter_eqb_NoDup _ c Hn).
  destruct (Js.includes (node_capabilities n) c); reflexivity.
Qed.

Lemma kept_In {X Y : Type} (f : X -> option Y) (l : list X) (y : Y) :
  In y (kept f l) <-> exists x, In x l /\ f x = Some y.
Proof.
  unfold kept. rewrite in_flat_map. split; intros (x & Hx & H); exists x; split; auto.
  - destruct (f x); [destruct H as [->|[]]; reflexivity | destruct H].
  - rewrite H. now left.
Qed.

Lemma typeCluster_members (t : string) (g : list GraphNode) (c : Cluster) :
  typeCluster (t, g) = Some c ->
  (2 <= List.length g)%nat /\ cluster_members c = map node_id g
  /\ cluster_type c = "type-based".
Proof.
  unfold typeCluster. destruct (Nat.ltb_spec 1 (List.length g)); [|discriminate].
  intros H'. inversion H'; subst. cbn. auto.
Qed.

Lemma capabilityCluster_members (k : string) (g : list GraphNode) (c : Cluster) :
  capabilityCluster (k, g) = Some c ->
  (2 <= List.length g)%nat /\ cluster_members c = map node_id g
  /\ cluster_type c = "capability-based".
Proof.
  unfold capabilityCluster. destruct (Nat.ltb_spec 1 (List.length g)); [|discriminate].
  intros H'. inversion H'; subst. cbn. auto.
Qed.

(** Whatever the node list, [identifyClusters] pushes the clusters of the
    type groups and then those of the capability groups. *)
Lemma identifyClusters_kept (nodes : list GraphNode) (edges : list GraphEdge) :
  identifyClusters nodes edges
  = kept typeCluster (typeGroups nodes) ++ kept capabilityCluster (capabilityGroups nodes).
Proof.
  unfold identifyClusters. now rewrite !forEach_push_kept.
Qed.




End Clusters.



(** ** Recommendations *)

Section Recommendations.

Import Grouping SemanticGraphGenerator RecommendationSpec.

Lemma fold_push_new_present (l acc : list string) :
  (forall x, In x l -> In x acc) -> fold_left Js.push_new l acc = acc.
Proof.
  induction l as [|x l IH]; intros Hin; [reflexivity|]. simpl.
  assert (Hx : Js.push_new acc x = acc).
  { unfold Js.push_new. rewrite (proj2 (includes_In acc x)); [reflexivity|].
    apply Hin. now left. }
  rewrite Hx. apply IH. intros y Hy. apply Hin. now right.
Qed.

(** Pushing the two ids of a record a second time changes nothing. *)
Lemma push_pair_twice (acc : list string) (a b : string) :
  fold_left Js.push_new [a; b] (fold_left Js.push_new [a; b] acc)
  = fold_left Js.push_new [a; b] acc.
Proof.
  apply fold_push_new_present. intros x Hx.
  apply fold_push_new_In. now right.
Qed.

Lemma fold_repeat_record (s : SemanticSimilarity) (l : list string) (cap : string) :
  forall acc,
    fold_left (fun apis (r : SemanticSimilarity) =>
                 Js.push_new (Js.push_new apis (api1 r)) (api2 r))
      (map (fun _ => s) (filter (fun x => String.eqb x cap) l)) acc
    = if Js.includes l cap then fold_left Js.push_new [api1 s; api2 s] acc else acc.
Proof.
  unfold Js.includes.
  induction l as [|x l IH]; intros acc; [reflexivity|].
  cbn [filter existsb]. rewrite (String.eqb_sym cap x).
  destruct (String.eqb x cap); cbn [orb map fold_left]; [|apply IH].
  rewrite IH. destruct (existsb (String.eqb cap) l); [|reflexivity].
  apply (push_pair_twice acc (api1 s) (api2 s)).
Qed.

Lemma capabilityClusters_grouped (similarities : list SemanticSimilarity) :
  capabilityClusters similarities
  = map (fun cap => (cap, participants cap similarities))
      (shared_capabilities similarities).
Proof.
  unfold capabilityClusters.
  rewrite (fold_nested_upsert []
             (fun apis (s : SemanticSimilarity) =>
                Js.push_new (Js.push_new apis (api1 s)) (api2 s))
             sharedCapabilities (fun s => s)).
  rewrite fold_upsert_grouped. unfold grouped, shared_capabilities.
  replace (map fst (flat_map (fun x => map (fun k => (k, x)) (sharedCapabilities x))
                      similarities))
    with (flat_map sharedCapabilities similarities).
  2:{ induction similarities as [|r rs IH]; [reflexivity|]. cbn [flat_map].
      rewrite map_app, map_map. cbn [fst]. rewrite map_id. now f_equal. }
  apply map_ext. intros cap. f_equal.
  unfold participants, distinct, under.
  enough (Hacc : forall acc,
             fold_left (fun apis (s : SemanticSimilarity) =>
                          Js.push_new (Js.push_new apis (api1 s)) (api2 s))
               (map snd (filter (fun ke => String.eqb (fst ke) cap)
                           (flat_map (fun x => map (fun k => (k, x)) (sharedCapabilities x))
                              similarities))) acc
             = fold_left Js.push_new
                 (flat_map (fun s => if Js.includes (sharedCapabilities s) cap
                                     then [api1 s; api2 s] else []) similarities) acc)
    by apply Hacc.
  induction similarities as [|r rs IH]; intros acc; [reflexivity|].
  cbn [flat_map]. rewrite filter_app, map_app, !fold_left_app.
  replace (map snd (filter (fun ke => String.eqb (fst ke) cap)
                      (map (fun k => (k, r)) (sharedCapabilities r))))
    with (map (fun _ => r) (filter (fun x => String.eqb x cap) (sharedCapabilities r))).
  2:{ generalize (sharedCapabilities r). intros l.
      induction l as [|x l IHl]; [reflexivity|]. cbn [map filter fst].
      destruct (String.eqb x cap); cbn [map snd]; now rewrite IHl. }
  rewrite fold_repeat_record, IH.
  destruct (Js.includes (sharedCapabilities r) cap); reflexivity.
Qed.

Lemma kept_capabilityClusterRec (caps : list string) (f : string -> list string) :
  kept capabilityClusterRec (map (fun cap => (cap, f cap)) caps)
  = map (fun cap => cluster_recommendation cap (f cap))
      (filter (fun cap => (2 <? List.length (f cap))%nat) caps).
Proof.
  unfold kept. induction caps as [|cap caps IH]; [reflexivity|].
  cbn [map flat_map filter capabilityClusterRec]. rewrite IH.
  destruct (2 <? List.length (f cap))%nat; reflexivity.
Qed.

Lemma kept_highSimilarity (l : list SemanticSimilarity) :
  kept highSimilarity l = map high_recommendation l.
Proof.
  induction l as [|r l IH]; [reflexivity|].
  change (kept highSimilarity (r :: l))
    with (high_recommendation r :: kept highSimilarity l).
  cbn [map]. now rewrite IH.
Qed.

End Recommendations.

(** C7.  The recommendation list is: first one "high-similarity"
    recommendation of priority [high] naming both node ids for each record of
    score above [0.8], in record order; then, for the capabilities shared by
    some record taken in the order of their discovery, one "capability-cluster"
    recommendation of priority [medium] listing all the distinct participating
    node ids, for those capabilities only that have more than two of them.
    Nothing is removed or reordered across the two classes: on the demo
    records the [medium] recommendation stays behind the two [high] ones, and
    the three name overlapping nodes. *)
Theorem generateRecommendations_order (similarities : list SemanticSimilarity) :
  SemanticGraphGenerator.generateRecommendations similarities
  = map RecommendationSpec.high_recommendation
      (filter (fun s => (SemanticGraphGenerator.HIGH_SIMILARITY <? similarity s)%float)
         similarities)
    ++ map (fun cap =>
              RecommendationSpec.cluster_recommendation cap
                (RecommendationSpec.participants cap similarities))
         (filter
            (fun cap =>
               (2 <? List.length (RecommendationSpec.participants cap similarities))%nat)
            (RecommendationSpec.shared_capabilities similarities))
  /\ map (fun r => (rec_type r, rec_priority r, rec_affectedAPIs r))
       (SemanticGraphGenerator.generateRecommendations RecommendationSpec.demo_records)
     = [ ("high-similarity", high, ["a"; "b"]);
         ("high-similarity", high, ["b"; "c"]);
         ("capability-cluster", medium, ["a"; "b"; "c"]) ].
Proof.
  split; [|vm_compute; reflexivity].
  unfold SemanticGraphGenerator.generateRecommendations.
  rewrite !forEach_push_kept, capabilityClusters_grouped, kept_capabilityClusterRec.
  rewrite kept_highSimilarity. reflexivity.
Qed.

(** ** Edges *)

Section Edges.

Import SemanticGraphGenerator EdgeSpec.

Lemma inner_loop_eq (ei : APIEmbedding) (rest : list APIEmbedding) :
  forall edges sims,
    inner_loop ei rest edges sims
    = if forallb same_dimension (map (pair ei) rest)
      then Ok (edges ++ flat_map edge_of_pair (map (pair ei) rest),
               sims ++ flat_map similarity_of_pair (map (pair ei) rest))
      else Throw DimensionMismatch.
Proof.
  induction rest as [|ej rest IH]; intros edges sims.
  - simpl. now rewrite !app_nil_r.
  - cbn [inner_loop map forallb flat_map].
    unfold edge_of_pair at 1, similarity_of_pair at 1, same_dimension at 1.
    cbn [fst snd]. rewrite calculateSimilarity_eq.
    destruct (List.length (embedding ei) =? List.length (embedding ej))%nat;
      cbn [bind andb]; [|reflexivity].
    destruct (EDGE_THRESHOLD <? Cosine.cosine (embedding ei) (embedding ej))%float;
      rewrite IH; destruct (forallb same_dimension (map (pair ei) rest));
      try reflexivity; now rewrite <- !app_assoc.
Qed.

(** The two loops return the edges and the records of the ordered pairs,
    and throw when some pair differs in dimension. *)
Lemma outer_loop_eq (embeddings : list APIEmbedding) :
  forall edges sims,
    outer_loop embeddings edges sims
    = if forallb same_dimension (ordered_pairs embeddings)
      then Ok (edges ++ edges_of embeddings, sims ++ similarities_of embeddings)
      else Throw DimensionMismatch.
Proof.
  unfold edges_of, similarities_of.
  induction embeddings as [|ei rest IH]; intros edges sims.
  - simpl. now rewrite !app_nil_r.
  - cbn [outer_loop ordered_pairs]. rewrite inner_loop_eq, forallb_app, !flat_map_app.
    destruct (forallb same_dimension (map (pair ei) rest)); cbn [bind andb]; [|reflexivity].
    rewrite IH. destruct (forallb same_dimension (ordered_pairs rest)); [|reflexivity].
    now rewrite <- !app_assoc.
Qed.

Lemma createSemanticGraph_edges (generatedAt : string) (embeddings : list APIEmbedding)
    (g : SemanticGraph) :
  createSemanticGraph generatedAt embeddings = Ok g ->
  forallb same_dimension (ordered_pairs embeddings) = true
  /\ graph_edges g = edges_of embeddings
  /\ graph_nodes g = map toNode embeddings.
Proof.
  unfold createSemanticGraph. rewrite outer_loop_eq.
  destruct (forallb same_dimension (ordered_pairs embeddings)); cbn [bind];
    [|discriminate].
  intros H. inversion H; subst; clear H. cbn. auto.
Qed.

Lemma createSemanticGraph_returns (generatedAt : string) (embeddings : list APIEmbedding) :
  forallb same_dimension (ordered_pairs embeddings) = true ->
  exists g, createSemanticGraph generatedAt embeddings = Ok g.
Proof.
  intros H. unfold createSemanticGraph. rewrite outer_loop_eq, H. cbn [bind]. eauto.
Qed.

Lemma ordered_pairs_In {A : Type} (l : list A) (a b : A) :
  In (a, b) (ordered_pairs l)
  <-> exists i j, (i < j)%nat /\ nth_error l i = Some a /\ nth_error l j = Some b.
Proof.
  induction l as [|x l IH]; cbn [ordered_pairs].
  - split; [intros [] | intros (i & j & _ & H & _); destruct i; discriminate].
  - rewrite in_app_iff, in_map_iff, IH. split.
    + intros [(y & Heq & Hy) | (i & j & Hij & Hi & Hj)].
      * inversion Heq; subst. apply In_nth_error in Hy as [j Hj].
        exists 0%nat, (S j). repeat split; auto. lia.
      * exists (S i), (S j). repeat split; auto. lia.
    + intros (i & j & Hij & Hi & Hj). destruct j as [|j]; [lia|].
      destruct i as [|i]; cbn [nth_error] in Hi, Hj.
      * left. inversion Hi; subst. exists b. split; [reflexivity|].
        eapply nth_error_In; eauto.
      * right. exists i, j. repeat split; auto. lia.
Qed.


Lemma edges_of_In (embeddings : list APIEmbedding) (e : GraphEdge) :
  In e (edges_of embeddings)
  <-> exists a b w,
        In (a, b) (ordered_pairs embeddings)
        /\ EmbeddingEngine.calculateSimilarity (embedding a) (embedding b) = Ok w
        /\ (EDGE_THRESHOLD <? w)%float = true
        /\ e = makeEdge a b w.
Proof.
  unfold edges_of. rewrite in_flat_map. split.
  - intros ([a b] & Hp & He). unfold edge_of_pair in He. cbn [fst snd] in He.
    destruct (EmbeddingEngine.calculateSimilarity _ _) as [w|] eqn:Hw; [|destruct He].
    destruct (EDGE_THRESHOLD <? w)%float eqn:Hth; [|destruct He].
    destruct He as [<-|[]]. exists a, b, w. auto.
  - intros (a & b & w & Hp & Hw & Hth & ->). exists (a, b). split; [exact Hp|].
    unfold edge_of_pair. cbn [fst snd]. rewrite Hw, Hth. now left.
Qed.

End Edges.

(** ** Symmetry of the similarity *)

Section Symmetry.

Import SemanticGraphGenerator EdgeSpec.

Lemma SFmul_comm (x y : spec_float) : SFmul prec emax x y = SFmul prec emax y x.
Proof.
  destruct x as [sx|sx| |sx mx ex], y as [sy|sy| |sy my ey]; cbn [SFmul];
    rewrite ?(xorb_comm sy sx); try reflexivity.
  now rewrite (Pos.mul_comm my mx), (Z.add_comm ey ex).
Qed.

Lemma float_mul_comm (x y : float) : (x * y = y * x)%float.
Proof.
  apply Prim2SF_inj. rewrite !FloatAxioms.mul_spec. apply SFmul_comm.
Qed.

Lemma dot_comm (a b : list float) : Cosine.dot a b = Cosine.dot b a.
Proof.
  unfold Cosine.dot. generalize 0%float.
  revert b. induction a as [|x a IH]; intros [|y b] acc; try reflexivity.
  cbn [combine fold_left fst snd]. rewrite (float_mul_comm y x). apply IH.
Qed.

Lemma cosine_comm (a b : list float) : Cosine.cosine a b = Cosine.cosine b a.
Proof.
  unfold Cosine.cosine.
  now rewrite orb_comm, dot_comm, (float_mul_comm (Cosine.norm b)).
Qed.

Lemma similarity_swap (a b : list float) (w : float) :
  calculateSimilarity a b = Ok w -> calculateSimilarity b a = Ok w.
Proof.
  rewrite !calculateSimilarity_eq, cosine_comm, (Nat.eqb_sym (List.length b)).
  trivial.
Qed.

Lemma determineEdgeType_comm (a b : APIEmbedding) :
  determineEdgeType a b = determineEdgeType b a.
Proof.
  unfold determineEdgeType. rewrite (String.eqb_sym (md_type (metadata b))).
  destruct (String.eqb _ _); [reflexivity|].
  assert (Hex : forall l : list (list string),
             existsb (fun pair => Js.includes pair (md_type (metadata a))
                                  && Js.includes pair (md_type (metadata b))) l
             = existsb (fun pair => Js.includes pair (md_type (metadata b))
                                    && Js.includes pair (md_type (metadata a))) l).
  { induction l as [|pair l IH]; [reflexivity|]. cbn [existsb].
    now rewrite IH, andb_comm. }
  now rewrite Hex.
Qed.





End Symmetry.

(** X4.  Similarity is symmetric: the two orders of the arguments give the
    same number, bit for bit, or throw alike. *)
Theorem calculateSimilarity_symmetric (a b : list float) :
  calculateSimilarity a b = calculateSimilarity b a.
Proof.
  rewrite !calculateSimilarity_eq, cosine_comm, (Nat.eqb_sym (List.length b)).
  reflexivity.
Qed.



(** ** The flow registry *)

Section Registry.

Context {V : Type}.

Lemma get_set_same (k : string) (v : V) (m : Js.Map V) :
  Js.get k (Js.set k v m) = Some v.
Proof.
  induction m as [|[c w] m IH]; simpl.
  - now rewrite String.eqb_refl.
  - destruct (String.eqb k c) eqn:Hk; simpl; rewrite ?String.eqb_refl, ?Hk; auto.
Qed.

Lemma get_set_other (k k' : string) (v : V) (m : Js.Map V) :
  k' <> k -> Js.get k' (Js.set k v m) = Js.get k' m.
Proof.
  intros Hne. induction m as [|[c w] m IH]; simpl.
  - destruct (String.eqb_spec k' k); [contradiction | reflexivity].
  - destruct (String.eqb_spec k c) as [->|Hkc]; simpl.
    + destruct (String.eqb_spec k' c); [contradiction | reflexivity].
    + destruct (String.eqb k' c); [reflexivity | exact IH].
Qed.

Lemma get_delete_other (k k' : string) (m : Js.Map V) :
  k' <> k -> Js.get k' (Js.delete k m) = Js.get k' m.
Proof.
  intros Hne. induction m as [|[c w] m IH]; simpl; [reflexivity|].
  destruct (String.eqb_spec k c) as [->|Hkc]; simpl.
  - destruct (String.eqb_spec k' c); [contradiction | reflexivity].
  - destruct (String.eqb k' c); [reflexivity | exact IH].
Qed.

End Registry.

(** ** The orchestration engine *)

Section Orchestration.

Import OrchestrationEngine FlowSpec.

Context {handlers : StepHandlers}.




(** The steps that ran are all the steps when none throws. *)
Lemma run_steps_all (steps : list OrchestrationStep) :
  Forall (fun s => executeStep s = Ok tt) steps ->
  run_steps steps = (map StepRun steps, Ok tt).
Proof.
  induction 1 as [|s steps Hs _ IH]; simpl; [reflexivity|].
  now rewrite Hs, IH.
Qed.





End Orchestration.



(** ** The status of a flow *)

Section FlowStatus.

Import OrchestrationEngine FlowSpec.

Context {handlers : StepHandlers}.


End FlowStatus.




(** ** Creating flows and adding steps *)

Section FlowsAndSteps.

Import OrchestrationEngine FlowSpec.

(** Two clock readings with one decimal form are one reading. *)
Lemma decimal_inj (n m : N) : Js.decimal n = Js.decimal m -> n = m.
Proof.
  unfold Js.decimal. intros H.
  apply (f_equal NilEmpty.uint_of_string) in H.
  rewrite !NilEmpty.usu in H. inversion H as [H'].
  now apply DecimalN.Unsigned.to_uint_inj.
Qed.

Lemma createOrchestrationFlow_id_inj (n m : N) (name name' : string)
    (apis apis' : list APIConfig) (engine engine' : Engine) :
  flow_id (fst (createOrchestrationFlow n name apis engine))
  = flow_id (fst (createOrchestrationFlow m name' apis' engine')) ->
  n = m.
Proof.
  cbn. intros H. inversion H as [H']. now apply decimal_inj.
Qed.

(** X2 (with C6).  The new flow is registered under its id, has no step and
    is [pending]; the list of apis may be empty.  When its id is not in use, the flows
    registered before stay registered under ids of their own. *)
Lemma createOrchestrationFlow_registers (now : N) (name : string)
    (apis : list APIConfig) (engine : Engine) :
  let flow := fst (createOrchestrationFlow now name apis engine) in
  let engine' := snd (createOrchestrationFlow now name apis engine) in
  flow_steps flow = []
  /\ flow_status flow = pending
  /\ flow_name flow = name
  /\ flow_apis flow = map cfg_id apis
  /\ getFlow (flow_id flow) engine' = Some flow
  /\ (getFlow (flow_id flow) engine = None ->
      forall id f, getFlow id engine = Some f ->
                   id <> flow_id flow /\ getFlow id engine' = Some f).
Proof.
  cbn zeta. unfold createOrchestrationFlow, getFlow. cbn [fst snd flow_id].
  repeat split.
  - apply get_set_same.
  - intros ->. congruence.
  - rewrite get_set_other; [assumption|]. intros ->. congruence.
Qed.

Lemma by_order_true (a b : OrchestrationStep) :
  by_order a b = true -> (step_order b <= step_order a)%Z.
Proof. unfold by_order. intros H. apply Z.ltb_lt in H. lia. Qed.

Lemma by_order_false (a b : OrchestrationStep) :
  by_order a b = false -> (step_order a <= step_order b)%Z.
Proof. unfold by_order. intros H. apply Z.ltb_ge in H. lia. Qed.

(** The step list after a sort is in ascending order. *)
Lemma sort_by_order_ascending (steps : list OrchestrationStep) :
  StronglySorted (fun a b => (step_order a <= step_order b)%Z)
    (Js.sort by_order steps).
Proof.
  apply (sort_sorted by_order (fun _ => True)).
  - intros x y _ _. apply by_order_true.
  - intros x y _ _. apply by_order_false.
  - intros x y z _ _ _. lia.
  - apply Forall_forall. trivial.
Qed.

(** The steps of one order keep their places relative to each other. *)
Lemma sort_by_order_stable (k : Z) (steps : list OrchestrationStep) :
  filter (fun s => (step_order s =? k)%Z) (Js.sort by_order steps)
  = filter (fun s => (step_order s =? k)%Z) steps.
Proof.
  apply sort_filter. intros x y Hx Hy. apply Z.eqb_eq in Hx, Hy.
  unfold by_order. apply Z.ltb_ge. lia.
Qed.

Lemma addOrchestrationStep_throws (now : N) (flowId : string) (s : StepInput)
    (engine : Engine) :
  addOrchestrationStep now flowId s engine = Throw (FlowNotFound flowId)
  <-> getFlow flowId engine = None.
Proof.
  unfold addOrchestrationStep, getFlow.
  destruct (Js.get flowId engine); split; intros H; try discriminate; reflexivity.
Qed.

End FlowsAndSteps.

(** X1 (with C8).  [addOrchestrationStep] throws [FlowNotFound] exactly for
    an id that is not registered.  On a registered flow it appends the step under the id
    "step-" and the clock reading and sorts the step list by order: the new
    list holds the old steps and the new one, in ascending order, the steps
    of one order in the places they had relative to each other. *)
Theorem addOrchestrationStep_sorts (now : N) (flowId : string) (s : StepInput)
    (engine : OrchestrationEngine.Engine) :
  (OrchestrationEngine.addOrchestrationStep now flowId s engine
   = Throw (FlowNotFound flowId)
   <-> OrchestrationEngine.getFlow flowId engine = None)
  /\ (forall flow : APIOrchestrationFlow,
        OrchestrationEngine.getFlow flowId engine = Some flow ->
        let added := flow_steps flow
                     ++ [ {| step_id := "step-" ++ Js.decimal now;
                             step_action := in_action s;
                             step_apiId := in_apiId s;
                             step_payload := in_payload s;
                             step_order := in_order s |}%string ] in
        exists engine',
          OrchestrationEngine.addOrchestrationStep now flowId s engine = Ok engine'
          /\ OrchestrationEngine.steps_of flowId engine'
             = Js.sort OrchestrationEngine.by_order added
          /\ Permutation added (OrchestrationEngine.steps_of flowId engine')
          /\ StronglySorted (fun a b => (step_order a <= step_order b)%Z)
               (OrchestrationEngine.steps_of flowId engine')
          /\ (forall k : Z,
                filter (fun x => (step_order x =? k)%Z)
                  (OrchestrationEngine.steps_of flowId engine')
                = filter (fun x => (step_order x =? k)%Z) added)).
Proof.
  split; [apply addOrchestrationStep_throws|].
  intros flow Hget added. unfold OrchestrationEngine.getFlow in Hget.
  unfold OrchestrationEngine.addOrchestrationStep. rewrite Hget.
  eexists. split; [reflexivity|].
  unfold OrchestrationEngine.steps_of. rewrite get_set_same. cbn [flow_steps].
  fold added. repeat split.
  - apply sort_perm.
  - apply sort_by_order_ascending.
  - intros k. apply sort_by_order_stable.
Qed.

(** On a flow without steps, a step of order 2 and then a step of order 1:
    the step of order 1 comes first. *)
Lemma addOrchestrationStep_sorts_witness :
  exists engine',
    OrchestrationEngine.addOrchestrationStep 1002 "flow-1000" (FlowSpec.step "query" 1)
      (FlowSpec.then_add 1001 "flow-1000" (FlowSpec.step "forward" 2) FlowSpec.one_flow)
    = Ok engine'
    /\ OrchestrationEngine.steps_of "flow-1000" engine'
       = [FlowSpec.demo_step 1002 "query" 1; FlowSpec.demo_step 1001 "forward" 2].
Proof.
  destruct (addOrchestrationStep_sorts 1002 "flow-1000" (FlowSpec.step "query" 1)
              (FlowSpec.then_add 1001 "flow-1000" (FlowSpec.step "forward" 2)
                 FlowSpec.one_flow)) as [_ H].
  destruct (H _ eq_refl) as (engine' & Hadd & Hsteps & _).
  exists engine'. split; [exact Hadd|].
  rewrite Hsteps. vm_compute. reflexivity.
Defined.

(** C6 at two calls within one millisecond: the second flow gets the id of
    the first and takes its place in the registry, which then holds one flow. *)
Theorem createOrchestrationFlow_id_collision :
  let first := OrchestrationEngine.createOrchestrationFlow 1000 "first" [] [] in
  let second := OrchestrationEngine.createOrchestrationFlow 1000 "second" [] (snd first) in
  flow_id (fst second) = flow_id (fst first)
  /\ fst second <> fst first
  /\ OrchestrationEngine.getFlow (flow_id (fst first)) (snd second) = Some (fst second)
  /\ OrchestrationEngine.getActiveFlows (snd second) = [fst second].
Proof.
  cbn zeta. repeat split. vm_compute. discriminate.
Qed.

(** C8 at two calls within one millisecond: both steps get the id
    "step-1001". *)
Theorem addOrchestrationStep_id_collision :
  map step_id
    (OrchestrationEngine.steps_of "flow-1000"
       (FlowSpec.then_add 1001 "flow-1000" (FlowSpec.step "forward" 2)
          (FlowSpec.then_add 1001 "flow-1000" (FlowSpec.step "query" 1)
             FlowSpec.one_flow)))
  = ["step-1001"; "step-1001"].
Proof. vm_compute. reflexivity. Qed.

(** ** More on Maps *)

Section MapFacts.

Context {V : Type}.

Lemma get_None_keys (k : string) (m : Js.Map V) :
  Js.get k m = None <-> ~ In k (Js.keys m).
Proof.
  unfold Js.keys. induction m as [|[c v] m IH]; simpl; [tauto|].
  destruct (String.eqb_spec k c) as [->|Hne].
  - split; [discriminate | tauto].
  - rewrite IH. intuition congruence.
Qed.

Lemma get_Some_In (k : string) (v : V) (m : Js.Map V) :
  Js.get k m = Some v -> In (k, v) m.
Proof.
  induction m as [|[c w] m IH]; simpl; [discriminate|].
  destruct (String.eqb_spec k c) as [->|Hne].
  - intros H. inversion H. now left.
  - intros H. right. now apply IH.
Qed.

Lemma In_get_Some (k : string) (v : V) (m : Js.Map V) :
  NoDup (Js.keys m) -> In (k, v) m -> Js.get k m = Some v.
Proof.
  unfold Js.keys. induction m as [|[c w] m IH]; simpl; [tauto|].
  intros Hnd [Heq|Hin]; inversion Hnd as [|? ? Hc Hnd']; subst.
  - inversion Heq; subst. now rewrite String.eqb_refl.
  - destruct (String.eqb_spec k c) as [->|Hne]; [|now apply IH].
    exfalso. apply Hc. apply in_map_iff. now exists (c, v).
Qed.

Lemma keys_set (k : string) (v : V) (m : Js.Map V) :
  Js.keys (Js.set k v m) = if Js.has k m then Js.keys m else Js.keys m ++ [k].
Proof.
  unfold Js.keys, Js.has. induction m as [|[c w] m IH]; simpl; [reflexivity|].
  destruct (String.eqb_spec k c) as [->|Hne]; simpl; [reflexivity|].
  rewrite IH. destruct (Js.get k m); reflexivity.
Qed.

Lemma keys_set_NoDup (k : string) (v : V) (m : Js.Map V) :
  NoDup (Js.keys m) -> NoDup (Js.keys (Js.set k v m)).
Proof.
  intros Hnd. rewrite keys_set. unfold Js.has.
  destruct (Js.get k m) eqn:Hget; [exact Hnd|].
  apply get_None_keys in Hget.
  apply NoDup_app; [exact Hnd | repeat constructor; auto |].
  intros x Hx [<-|[]]. contradiction.
Qed.

Lemma In_set (k : string) (v : V) (m : Js.Map V) (kv : string * V) :
  In kv (Js.set k v m) -> kv = (k, v) \/ In kv m.
Proof.
  induction m as [|[c w] m IH]; simpl.
  - intuition.
  - destruct (String.eqb k c); simpl; intuition.
Qed.

Lemma keys_delete_incl (k : string) (m : Js.Map V) (kv : string * V) :
  In kv (Js.delete k m) -> In kv m.
Proof.
  induction m as [|[c w] m IH]; simpl; [tauto|].
  destruct (String.eqb k c); simpl; intuition.
Qed.

Lemma keys_delete_NoDup (k : string) (m : Js.Map V) :
  NoDup (Js.keys m) -> NoDup (Js.keys (Js.delete k m)).
Proof.
  unfold Js.keys. induction m as [|[c w] m IH]; simpl; [auto|].
  intros Hnd. inversion Hnd as [|? ? Hc Hnd']; subst.
  destruct (String.eqb k c); simpl; [exact Hnd'|].
  constructor; [|now apply IH].
  intros Hin. apply Hc. apply in_map_iff in Hin as (kv & Hfst & Hkv).
  apply in_map_iff. exists kv. split; [exact Hfst|].
  eapply keys_delete_incl. exact Hkv.
Qed.

Lemma get_delete_same (k : string) (m : Js.Map V) :
  NoDup (Js.keys m) -> Js.get k (Js.delete k m) = None.
Proof.
  unfold Js.keys. induction m as [|[c w] m IH]; simpl; [reflexivity|].
  intros Hnd. inversion Hnd as [|? ? Hc Hnd']; subst.
  destruct (String.eqb_spec k c) as [->|Hne]; simpl.
  - now apply get_None_keys.
  - destruct (String.eqb_spec k c); [contradiction | now apply IH].
Qed.

Lemma delete_absent (k : string) (m : Js.Map V) :
  Js.get k m = None -> Js.delete k m = m.
Proof.
  induction m as [|[c w] m IH]; simpl; [reflexivity|].
  destruct (String.eqb k c); [discriminate|]. intros H. now rewrite IH.
Qed.

(** Two Maps with the same keys in the same order and the same value under
    each key are one Map. *)
Lemma map_ext_keys (m1 m2 : Js.Map V) :
  NoDup (Js.keys m1) ->
  Js.keys m1 = Js.keys m2 ->
  (forall k, Js.get k m1 = Js.get k m2) ->
  m1 = m2.
Proof.
  unfold Js.keys. revert m2.
  induction m1 as [|[k v] m1 IH]; intros [|[k' v'] m2] Hnd Hkeys Hget;
    simpl in Hkeys; try discriminate; [reflexivity|].
  injection Hkeys as Hk0 Htl. subst k'.
  inversion Hnd as [|? ? Hk Hnd']; subst.
  pose proof (Hget k) as Hv. simpl in Hv. rewrite String.eqb_refl in Hv.
  injection Hv as Hv. subst v'. f_equal.
  apply IH; [exact Hnd' | exact Htl |].
  intros c. pose proof (Hget c) as Hc. cbn [Js.get] in Hc.
  destruct (String.eqb_spec c k) as [Heq|Hne]; [subst c|exact Hc].
  transitivity (@None V); [|symmetry]; apply get_None_keys; unfold Js.keys.
  - exact Hk.
  - now rewrite <- Htl.
Qed.

(** What a run of [set]s leaves under a key: the last value set under it,
    or what the Map held. *)
Lemma get_fold_set (kvs : list (string * V)) :
  forall (m : Js.Map V) (k : string),
    Js.get k (fold_left (fun m kv => Js.set (fst kv) (snd kv) m) kvs m)
    = match find (fun kv => String.eqb (fst kv) k) (rev kvs) with
      | Some kv => Some (snd kv)
      | None => Js.get k m
      end.
Proof.
  induction kvs as [|[c v] kvs IH]; intros m k; [reflexivity|].
  cbn [fold_left fst snd rev]. rewrite IH.
  assert (Happ : forall l : list (string * V),
             find (fun kv => String.eqb (fst kv) k) (l ++ [(c, v)])
             = match find (fun kv => String.eqb (fst kv) k) l with
               | Some kv => Some kv
               | None => if String.eqb c k then Some (c, v) else None
               end).
  { induction l as [|kv l IHl]; [reflexivity|]. cbn [app find].
    now destruct (String.eqb (fst kv) k). }
  rewrite Happ. destruct (find _ (rev kvs)); [reflexivity|].
  destruct (String.eqb_spec c k) as [->|Hne].
  - apply get_set_same.
  - apply get_set_other. congruence.
Qed.

Lemma keys_fold_set_NoDup (kvs : list (string * V)) :
  forall m : Js.Map V,
    NoDup (Js.keys m) ->
    NoDup (Js.keys (fold_left (fun m kv => Js.set (fst kv) (snd kv) m) kvs m)).
Proof.
  induction kvs as [|kv kvs IH]; intros m Hnd; [exact Hnd|].
  apply IH. now apply keys_set_NoDup.
Qed.

(** The keys a Map had keep their places. *)
Lemma keys_fold_set_prefix (kvs : list (string * V)) :
  forall m : Js.Map V,
    exists added,
      Js.keys (fold_left (fun m kv => Js.set (fst kv) (snd kv) m) kvs m)
      = Js.keys m ++ added.
Proof.
  induction kvs as [|kv kvs IH]; intros m.
  - exists []. now rewrite app_nil_r.
  - cbn [fold_left]. destruct (IH (Js.set (fst kv) (snd kv) m)) as [added Hadded].
    rewrite Hadded, keys_set. destruct (Js.has (fst kv) m); [now exists added|].
    exists (fst kv :: added). now rewrite <- app_assoc.
Qed.

(** A run of [set]s under keys that the Map has already keeps the keys. *)
Lemma keys_fold_set_present (kvs : list (string * V)) :
  forall m : Js.Map V,
    (forall kv, In kv kvs -> In (fst kv) (Js.keys m)) ->
    Js.keys (fold_left (fun m kv => Js.set (fst kv) (snd kv) m) kvs m) = Js.keys m.
Proof.
  induction kvs as [|kv kvs IH]; intros m Hin; [reflexivity|].
  assert (Hkeys : Js.keys (Js.set (fst kv) (snd kv) m) = Js.keys m).
  { rewrite keys_set. unfold Js.has.
    destruct (Js.get (fst kv) m) eqn:Hget; [reflexivity|].
    apply get_None_keys in Hget. exfalso. apply Hget, Hin. now left. }
  cbn [fold_left]. rewrite IH, Hkeys; [reflexivity|].
  intros kv' Hkv'. rewrite Hkeys. apply Hin. now right.
Qed.

End MapFacts.

(** ** [generateEmbeddings] *)

Section GenerateEmbeddings.

Import EmbeddingEngine.

Lemma mock_loop_length (rest : list ascii) :
  forall (i : nat) (emb : list float),
    List.length (mock_loop rest i emb) = List.length emb.
Proof.
  induction rest as [|c rest IH]; intros i emb; [reflexivity|].
  cbn [mock_loop]. destruct (i <? List.length emb)%nat; [|reflexivity].
  now rewrite IH, add_at_length.
Qed.

Lemma mock_embedding_length (text : string) :
  List.length (generateMockEmbedding text) = DIMENSION.
Proof.
  unfold generateMockEmbedding, generateMockEmbeddingOfDim.
  now rewrite length_map, mock_loop_length, repeat_length.
Qed.

(** The three branches of the provider switch compute the same vector. *)
Lemma generate_mock (provider : string) (api : APIConfig) :
  generate provider api = generateMockEmbedding (createAPIText api).
Proof.
  unfold generate, generateOpenAIEmbedding, generateHuggingFaceEmbedding,
    generateLocalEmbedding.
  now destruct (String.eqb provider "openai"), (String.eqb provider "huggingface").
Qed.

Lemma embed_local (provider : string) (api : APIConfig) :
  embed provider api = embed "local" api.
Proof. unfold embed. now rewrite !generate_mock. Qed.

Lemma embed_length (provider : string) (api : APIConfig) :
  List.length (embedding (embed provider api)) = DIMENSION.
Proof. cbn [embed embedding]. rewrite generate_mock. apply mock_embedding_length. Qed.

Lemma embeddings_loop_eq (provider : string) (apis : list APIConfig) :
  forall cache : Cache,
    embeddings_loop provider apis cache
    = (map (embed "local") apis,
       fold_left (fun c kv => Js.set (fst kv) (snd kv) c)
         (map (fun api => (cfg_id api, embed "local" api)) apis) cache).
Proof.
  induction apis as [|api apis IH]; intros cache; [reflexivity|].
  cbn [embeddings_loop map fold_left fst snd]. rewrite IH.
  now rewrite (embed_local provider api).
Qed.

Lemma find_map_pair {A B : Type} (key : A -> string) (val : A -> B) (k : string)
    (l : list A) :
  find (fun kv : string * B => String.eqb (fst kv) k) (map (fun a => (key a, val a)) l)
  = option_map (fun a => (key a, val a)) (find (fun a => String.eqb (key a) k) l).
Proof.
  induction l as [|a l IH]; [reflexivity|]. cbn [map find fst].
  destruct (String.eqb (key a) k); [reflexivity | exact IH].
Qed.

(** The cache after a run, read under any id. *)
Lemma generateEmbeddings_get (setting : option string) (apis : list APIConfig)
    (cache : Cache) (id : string) :
  Js.get id (snd (generateEmbeddings setting apis cache))
  = match find (fun api => String.eqb (cfg_id api) id) (rev apis) with
    | Some api => Some (embed "local" api)
    | None => Js.get id cache
    end.
Proof.
  unfold generateEmbeddings. rewrite embeddings_loop_eq. cbn [snd].
  rewrite get_fold_set, <- map_rev, find_map_pair.
  now destruct (find _ (rev apis)).
Qed.

Lemma generateEmbeddings_keys_NoDup (setting : option string) (apis : list APIConfig)
    (cache : Cache) :
  NoDup (Js.keys cache) ->
  NoDup (Js.keys (snd (generateEmbeddings setting apis cache))).
Proof.
  intros Hnd. unfold generateEmbeddings. rewrite embeddings_loop_eq. cbn [snd].
  now apply keys_fold_set_NoDup.
Qed.

(** Every api of a run is cached afterwards. *)
Lemma generated_api_cached (setting : option string) (apis : list APIConfig)
    (cache : Cache) (api : APIConfig) :
  In api apis ->
  In (cfg_id api) (Js.keys (snd (generateEmbeddings setting apis cache))).
Proof.
  intros Hin.
  destruct (Js.get (cfg_id api) (snd (generateEmbeddings setting apis cache))) eqn:Hget.
  - apply get_Some_In in Hget. unfold Js.keys. apply in_map_iff.
    now exists (cfg_id api, a).
  - exfalso. rewrite generateEmbeddings_get in Hget.
    destruct (find _ (rev apis)) eqn:Hfind; [discriminate|].
    apply in_rev in Hin. pose proof (find_none _ _ Hfind api Hin) as Hf.
    cbn beta in Hf. rewrite String.eqb_refl in Hf. discriminate Hf.
Qed.

Lemma set_dimension (k : string) (e : APIEmbedding) (cache : Cache) :
  List.length (embedding e) = DIMENSION ->
  CacheSpec.cache_dimension cache -> CacheSpec.cache_dimension (Js.set k e cache).
Proof.
  unfold CacheSpec.cache_dimension. intros He Hc. apply Forall_forall. intros kv Hkv.
  apply In_set in Hkv as [->|Hkv]; [exact He|].
  now apply (proj1 (Forall_forall _ _) Hc).
Qed.

Lemma generateEmbeddings_dimension (setting : option string) (apis : list APIConfig) :
  forall cache : Cache,
    CacheSpec.cache_dimension cache ->
    CacheSpec.cache_dimension (snd (generateEmbeddings setting apis cache)).
Proof.
  unfold generateEmbeddings. generalize (provider_of setting) as provider.
  intros provider. induction apis as [|api apis IH]; intros cache Hc; [exact Hc|].
  cbn [embeddings_loop].
  specialize (IH (Js.set (cfg_id api) (embed provider api) cache)).
  destruct (embeddings_loop provider apis _) as [es cache'] eqn:Hloop.
  cbn [snd] in *. apply IH. apply set_dimension; [apply embed_length | exact Hc].
Qed.

End GenerateEmbeddings.

Section GeneratedEmbeddings.

Import EmbeddingEngine.

Lemma embed_embedding_of (provider : string) (api : APIConfig) :
  embed provider api = CacheSpec.embedding_of api.
Proof. unfold embed, CacheSpec.embedding_of. now rewrite generate_mock. Qed.

Lemma generateEmbeddings_fst (setting : option string) (apis : list APIConfig)
    (cache : Cache) :
  fst (generateEmbeddings setting apis cache) = map CacheSpec.embedding_of apis.
Proof.
  unfold generateEmbeddings. rewrite embeddings_loop_eq. cbn [fst].
  apply map_ext. intros api. apply embed_embedding_of.
Qed.

Lemma embedding_of_length (api : APIConfig) :
  List.length (embedding (CacheSpec.embedding_of api)) = DIMENSION.
Proof. apply mock_embedding_length. Qed.

(** In a list of vectors of one dimension, every pair has the same
    dimension. *)
Lemma same_dimension_all (d : nat) (embeddings : list APIEmbedding) :
  Forall (fun e => List.length (embedding e) = d) embeddings ->
  forallb EdgeSpec.same_dimension (EdgeSpec.ordered_pairs embeddings) = true.
Proof.
  intros Hall. rewrite Forall_forall in Hall. apply forallb_forall.
  intros [a b] Hab. apply ordered_pairs_In in Hab as (i & j & _ & Hi & Hj).
  apply nth_error_In in Hi, Hj. unfold EdgeSpec.same_dimension. cbn [fst snd].
  rewrite (Hall a Hi), (Hall b Hj). apply Nat.eqb_refl.
Qed.

End GeneratedEmbeddings.


(** X6. The cache after [generateEmbeddings]: under an id that one of the
    apis has, it holds the embedding of the last such api of the list; under
    any other id it holds what it held.  The keys the cache had keep their
    places, new keys come behind them, and keys stay unique. *)
Theorem generateEmbeddings_cache (setting : option string) (apis : list APIConfig)
    (cache : EmbeddingEngine.Cache) :
  (forall id : string,
      Js.get id (snd (EmbeddingEngine.generateEmbeddings setting apis cache))
      = match CacheSpec.last_with_id id apis with
        | Some api => Some (CacheSpec.embedding_of api)
        | None => Js.get id cache
        end)
  /\ (exists added : list string,
        Js.keys (snd (EmbeddingEngine.generateEmbeddings setting apis cache))
        = Js.keys cache ++ added)
  /\ (NoDup (Js.keys cache) ->
      NoDup (Js.keys (snd (EmbeddingEngine.generateEmbeddings setting apis cache)))).
Proof.
  split; [|split].
  - intros id. rewrite generateEmbeddings_get. unfold CacheSpec.last_with_id.
    destruct (find _ (rev apis)); [|reflexivity].
    now rewrite embed_embedding_of.
  - unfold EmbeddingEngine.generateEmbeddings. rewrite embeddings_loop_eq. cbn [snd].
    apply keys_fold_set_prefix.
  - apply generateEmbeddings_keys_NoDup.
Qed.

(** X7. Generating the embeddings of the same apis again, under whatever
    provider setting, returns the same embeddings and leaves the cache as the
    first run left it. *)
Theorem generateEmbeddings_idempotent (setting setting' : option string)
    (apis : list APIConfig) (cache : EmbeddingEngine.Cache) :
  NoDup (Js.keys cache) ->
  EmbeddingEngine.generateEmbeddings setting' apis
    (snd (EmbeddingEngine.generateEmbeddings setting apis cache))
  = EmbeddingEngine.generateEmbeddings setting apis cache.
Proof.
  intros Hnd. apply injective_projections; [now rewrite !generateEmbeddings_fst|].
  set (cache' := snd (EmbeddingEngine.generateEmbeddings setting apis cache)).
  assert (Hkeys : Js.keys (snd (EmbeddingEngine.generateEmbeddings setting' apis cache'))
                  = Js.keys cache').
  { unfold EmbeddingEngine.generateEmbeddings at 1. rewrite embeddings_loop_eq.
    cbn [snd]. apply keys_fold_set_present. intros kv Hkv.
    apply in_map_iff in Hkv as (api & <- & Hapi). cbn [fst].
    now apply generated_api_cached. }
  apply map_ext_keys.
  - rewrite Hkeys. now apply generateEmbeddings_keys_NoDup.
  - exact Hkeys.
  - intros id. rewrite generateEmbeddings_get. unfold cache'.
    rewrite generateEmbeddings_get. now destruct (find _ (rev apis)).
Qed.

Lemma generateEmbeddings_idempotent_witness :
  EmbeddingEngine.generateEmbeddings (Some "openai") discovered
    (snd (EmbeddingEngine.generateEmbeddings None discovered []))
  = EmbeddingEngine.generateEmbeddings None discovered [].
Proof. apply generateEmbeddings_idempotent. constructor. Defined.

(** X8. The graph pipeline of the extension never fails on a dimension
    mismatch: [createSemanticGraph] on what [generateEmbeddings] returned
    yields a graph, with one node per api, in order, that copies the api's
    id, name, type, capabilities and description. *)
Theorem generated_embeddings_graph (setting : option string) (apis : list APIConfig)
    (cache : EmbeddingEngine.Cache) (generatedAt : string) :
  exists g : SemanticGraph,
    SemanticGraphGenerator.createSemanticGraph generatedAt
      (fst (EmbeddingEngine.generateEmbeddings setting apis cache)) = Ok g
    /\ graph_nodes g
       = map (fun api => {| node_id := cfg_id api;
                            node_name := cfg_name api;
                            node_type := cfg_type api;
                            node_capabilities := cfg_capabilities api;
                            node_description := cfg_description api |}) apis
    /\ gm_totalAPIs (graph_metadata g) = List.length apis.
Proof.
  rewrite generateEmbeddings_fst.
  destruct (createSemanticGraph_returns generatedAt (map CacheSpec.embedding_of apis))
    as [g Hg].
  { apply (same_dimension_all EmbeddingEngine.DIMENSION).
    apply Forall_forall. intros e He. apply in_map_iff in He as (api & <- & _).
    apply embedding_of_length. }
  exists g. split; [exact Hg|].
  pose proof (createSemanticGraph_edges _ _ _ Hg) as (_ & _ & Hnodes).
  split.
  - rewrite Hnodes, map_map. reflexivity.
  - unfold SemanticGraphGenerator.createSemanticGraph in Hg.
    destruct (SemanticGraphGenerator.outer_loop _ [] []) as [[edges sims]|err];
      cbn in Hg; [|discriminate].
    injection Hg as <-. cbn. apply length_map.
Qed.

(** X9. A cache that only [generateEmbeddings] has filled holds vectors of
    one dimension, so [findSimilarAPIs] on it returns for every id and
    threshold: it never throws the dimension mismatch. *)
Theorem generated_cache_similar (setting : option string) (apis : list APIConfig)
    (cache : EmbeddingEngine.Cache) (targetApiId : string) (threshold : float) :
  CacheSpec.cache_dimension cache ->
  CacheSpec.cache_dimension (snd (EmbeddingEngine.generateEmbeddings setting apis cache))
  /\ exists l : list SemanticSimilarity,
       EmbeddingEngine.findSimilarAPIs
         (snd (EmbeddingEngine.generateEmbeddings setting apis cache))
         targetApiId threshold = Ok l.
Proof.
  intros Hc. pose proof (generateEmbeddings_dimension setting apis cache Hc) as Hc'.
  split; [exact Hc'|].
  set (cache' := snd (EmbeddingEngine.generateEmbeddings setting apis cache)) in *.
  unfold EmbeddingEngine.findSimilarAPIs.
  destruct (Js.get targetApiId cache') as [t|] eqn:Hget; [|now exists []].
  apply get_Some_In in Hget.
  pose proof (proj1 (Forall_forall _ _) Hc' _ Hget) as Ht. cbn [snd] in Ht.
  destruct (similar_loop_returns targetApiId t threshold cache') with (acc := @nil SemanticSimilarity)
    as [l Hl].
  { unfold CacheSpec.cache_dimension in Hc'. eapply Forall_impl; [|exact Hc'].
    intros kv Hkv. cbn beta in *. now rewrite Hkv, Ht. }
  rewrite Hl. cbn. eexists. reflexivity.
Qed.

Lemma generated_cache_similar_witness :
  CacheSpec.cache_dimension
    (snd (EmbeddingEngine.generateEmbeddings None discovered []))
  /\ exists l : list SemanticSimilarity,
       EmbeddingEngine.findSimilarAPIs
         (snd (EmbeddingEngine.generateEmbeddings None discovered []))
         "github-1000" EmbeddingEngine.DEFAULT_THRESHOLD = Ok l.
Proof. apply generated_cache_similar. constructor. Defined.

(** ** [findSimilarAPIs]: which records are returned *)

Section SimilarRecords.

Import EmbeddingEngine.

Lemma similar_loop_records (tid : string) (t : APIEmbedding) (th : float)
    (entries : Cache) :
  forall acc l : list SemanticSimilarity,
    similar_loop tid t th entries acc = Ok l ->
    l = acc ++ flat_map (CacheSpec.record_of tid t th) entries.
Proof.
  induction entries as [|[id e] rest IH]; intros acc l Hl; cbn [similar_loop] in Hl.
  - injection Hl as <-. cbn. now rewrite app_nil_r.
  - cbn [flat_map]. unfold CacheSpec.record_of at 1. cbn [fst snd].
    destruct (String.eqb id tid); [now apply IH|].
    destruct (calculateSimilarity (embedding t) (embedding e)) as [s|err];
      cbn [bind] in Hl; [|discriminate].
    destruct (th <=? s)%float.
    + rewrite (IH _ _ Hl), <- app_assoc. reflexivity.
    + now apply IH.
Qed.

(** Whether the loop returns does not depend on the threshold. *)
Lemma similar_loop_threshold (tid : string) (t : APIEmbedding) (th th' : float)
    (entries : Cache) :
  forall acc l : list SemanticSimilarity,
    similar_loop tid t th entries acc = Ok l ->
    forall acc', exists l', similar_loop tid t th' entries acc' = Ok l'.
Proof.
  induction entries as [|[id e] rest IH]; intros acc l Hl acc';
    cbn [similar_loop] in *.
  - now exists acc'.
  - destruct (String.eqb id tid); [now apply (IH _ _ Hl)|].
    destruct (calculateSimilarity (embedding t) (embedding e)) as [s|err];
      cbn [bind] in *; [|discriminate].
    destruct (th <=? s)%float, (th' <=? s)%float; now apply (IH _ _ Hl).
Qed.

Lemma findSimilarAPIs_sorted_records (cache : Cache) (tid : string) (th : float)
    (l : list SemanticSimilarity) (t : APIEmbedding) :
  Js.get tid cache = Some t ->
  findSimilarAPIs cache tid th = Ok l ->
  l = Js.sort by_similarity_desc (flat_map (CacheSpec.record_of tid t th) cache).
Proof.
  unfold findSimilarAPIs. intros -> Hl.
  destruct (similar_loop tid t th cache []) as [sims|err] eqn:Hloop;
    cbn [bind] in Hl; [|discriminate].
  injection Hl as <-. now rewrite (similar_loop_records _ _ _ _ _ _ Hloop).
Qed.

Lemma findSimilarAPIs_In (cache : Cache) (tid : string) (th : float)
    (l : list SemanticSimilarity) (t : APIEmbedding) (r : SemanticSimilarity) :
  Js.get tid cache = Some t ->
  findSimilarAPIs cache tid th = Ok l ->
  In r l
  <-> exists id e s,
        In (id, e) cache /\ id <> tid
        /\ calculateSimilarity (embedding t) (embedding e) = Ok s
        /\ (th <=? s)%float = true
        /\ r = {| api1 := tid; api2 := id; similarity := s;
                  sharedCapabilities := shared t e |}.
Proof.
  intros Hget Hl. rewrite (findSimilarAPIs_sorted_records _ _ _ _ _ Hget Hl).
  rewrite sort_In, in_flat_map. split.
  - intros ([id e] & Hin & Hr). unfold CacheSpec.record_of in Hr. cbn [fst snd] in Hr.
    destruct (String.eqb_spec id tid) as [->|Hne]; [destruct Hr|].
    destruct (calculateSimilarity (embedding t) (embedding e)) as [s|err] eqn:Hs;
      [|destruct Hr].
    destruct (th <=? s)%float eqn:Hth; [|destruct Hr].
    destruct Hr as [<-|[]]. now exists id, e, s.
  - intros (id & e & s & Hin & Hne & Hs & Hth & ->). exists (id, e).
    split; [exact Hin|]. unfold CacheSpec.record_of. cbn [fst snd].
    destruct (String.eqb_spec id tid) as [->|_]; [contradiction|].
    rewrite Hs, Hth. now left.
Qed.

(** The order of binary64 numbers is transitive. *)
Lemma float_leb_trans (x y z : float) :
  (x <=? y)%float = true -> (y <=? z)%float = true -> (x <=? z)%float = true.
Proof.
  intros Hxy Hyz.
  destruct (leb_true_not_nan _ _ Hxy) as [Nx Ny].
  destruct (leb_true_not_nan _ _ Hyz) as [_ Nz].
  rewrite leb_frank in * by assumption.
  apply Z.leb_le in Hxy, Hyz. apply Z.leb_le. lia.
Qed.

End SimilarRecords.

(** X10. [findSimilarAPIs] leaves nothing out: when it returns for a cached
    target, its list is the stable sort, by descending similarity, of one
    record for each cache entry other than the target's whose similarity to
    the target is at least the threshold, taken in the order of the cache.
    So every such entry is paired with the target, and the list has as many
    records as there are such entries. *)
Theorem findSimilarAPIs_complete (cache : EmbeddingEngine.Cache) (targetApiId : string)
    (threshold : float) (t : APIEmbedding) (l : list SemanticSimilarity) :
  Js.get targetApiId cache = Some t ->
  EmbeddingEngine.findSimilarAPIs cache targetApiId threshold = Ok l ->
  l = Js.sort EmbeddingEngine.by_similarity_desc
        (flat_map (CacheSpec.record_of targetApiId t threshold) cache)
  /\ Permutation (flat_map (CacheSpec.record_of targetApiId t threshold) cache) l
  /\ (forall (id : string) (e : APIEmbedding) (s : float),
        In (id, e) cache -> id <> targetApiId ->
        EmbeddingEngine.calculateSimilarity (embedding t) (embedding e) = Ok s ->
        (threshold <=? s)%float = true ->
        In {| api1 := targetApiId; api2 := id; similarity := s;
              sharedCapabilities := EmbeddingEngine.shared t e |} l).
Proof.
  intros Hget Hl. split; [|split].
  - now apply findSimilarAPIs_sorted_records.
  - rewrite (findSimilarAPIs_sorted_records _ _ _ _ _ Hget Hl). apply sort_perm.
  - intros id e s Hin Hne Hs Hth.
    apply (findSimilarAPIs_In _ _ _ _ _ _ Hget Hl). now exists id, e, s.
Qed.

Lemma findSimilarAPIs_complete_witness :
  [ {| api1 := "a"; api2 := "c"; similarity := 1;
       sharedCapabilities := ["embeddings"] |};
    {| api1 := "a"; api2 := "b"; similarity := 0x1.6a09e667f3bccp-1;
       sharedCapabilities := ["chat"] |} ]
  = Js.sort EmbeddingEngine.by_similarity_desc
      (flat_map
         (CacheSpec.record_of "a" (snd (SimilarSpec.plane "a" 1 0 ["chat"; "embeddings"]))
            EmbeddingEngine.DEFAULT_THRESHOLD)
         SimilarSpec.sample_cache).
Proof.
  refine (proj1 (findSimilarAPIs_complete SimilarSpec.sample_cache "a"
                   EmbeddingEngine.DEFAULT_THRESHOLD _ _ _ _)).
  - reflexivity.
  - vm_compute. reflexivity.
Defined.

(** X11. Raising the threshold only drops records: when [findSimilarAPIs]
    returns at a threshold, it returns at every threshold above it too, and
    the records it returns there are the records returned at the lower
    threshold whose similarity reaches the higher one. *)
Theorem findSimilarAPIs_threshold (cache : EmbeddingEngine.Cache) (targetApiId : string)
    (low high : float) (l : list SemanticSimilarity) :
  (low <=? high)%float = true ->
  EmbeddingEngine.findSimilarAPIs cache targetApiId low = Ok l ->
  exists l' : list SemanticSimilarity,
    EmbeddingEngine.findSimilarAPIs cache targetApiId high = Ok l'
    /\ forall r : SemanticSimilarity,
         In r l' <-> In r l /\ (high <=? similarity r)%float = true.
Proof.
  intros Hle Hl.
  destruct (Js.get targetApiId cache) as [t|] eqn:Hget.
  - assert (Hret : exists l', EmbeddingEngine.findSimilarAPIs cache targetApiId high = Ok l').
    { unfold EmbeddingEngine.findSimilarAPIs in *. rewrite Hget in *.
      destruct (EmbeddingEngine.similar_loop targetApiId t low cache []) as [sims|err]
        eqn:Hloop; cbn [bind] in Hl; [|discriminate].
      destruct (similar_loop_threshold _ _ _ high _ _ _ Hloop []) as [l' Hl'].
      rewrite Hl'. cbn [bind]. eauto. }
    destruct Hret as [l' Hl']. exists l'. split; [exact Hl'|].
    intros r. rewrite (findSimilarAPIs_In _ _ _ _ _ r Hget Hl),
      (findSimilarAPIs_In _ _ _ _ _ r Hget Hl'). split.
    + intros (id & e & s & Hin & Hne & Hs & Hth & ->). cbn [similarity].
      split; [|exact Hth]. exists id, e, s. repeat split; auto.
      now apply (float_leb_trans _ high).
    + intros [(id & e & s & Hin & Hne & Hs & Hth & ->) Hhigh]. cbn [similarity] in Hhigh.
      now exists id, e, s.
  - unfold EmbeddingEngine.findSimilarAPIs in *. rewrite Hget in *.
    injection Hl as <-. exists []. split; [reflexivity|]. intros r. cbn. tauto.
Qed.

(** At the default threshold the sample target has two similar apis; at
    0.9 only the more similar one is left. *)
Lemma findSimilarAPIs_threshold_witness :
  exists l' : list SemanticSimilarity,
    EmbeddingEngine.findSimilarAPIs SimilarSpec.sample_cache "a" 0x1.ccccccccccccdp-1 = Ok l'
    /\ forall r : SemanticSimilarity,
         In r l'
         <-> In r [ {| api1 := "a"; api2 := "c"; similarity := 1;
                       sharedCapabilities := ["embeddings"] |};
                    {| api1 := "a"; api2 := "b"; similarity := 0x1.6a09e667f3bccp-1;
                       sharedCapabilities := ["chat"] |} ]
             /\ (0x1.ccccccccccccdp-1 <=? similarity r)%float = true.
Proof.
  apply (findSimilarAPIs_threshold SimilarSpec.sample_cache "a"
           EmbeddingEngine.DEFAULT_THRESHOLD).
  - vm_compute. reflexivity.
  - vm_compute. reflexivity.
Defined.

(** X12. Similarity found from one side is found from the other: in a
    cache with unique keys, when [findSimilarAPIs] for [a] lists [b] with a
    similarity, [findSimilarAPIs] for [b] at the same threshold, when it
    returns, lists [a] with the same similarity. *)
Theorem findSimilarAPIs_symmetric (cache : EmbeddingEngine.Cache) (a b : string)
    (threshold s : float) (la lb : list SemanticSimilarity) :
  NoDup (Js.keys cache) ->
  EmbeddingEngine.findSimilarAPIs cache a threshold = Ok la ->
  EmbeddingEngine.findSimilarAPIs cache b threshold = Ok lb ->
  (exists r, In r la /\ api2 r = b /\ similarity r = s) ->
  exists r', In r' lb /\ api1 r' = b /\ api2 r' = a /\ similarity r' = s.
Proof.
  intros Hnd Hla Hlb (r & Hr & Hb & Hs).
  destruct (Js.get a cache) as [ta|] eqn:Hga.
  - apply (findSimilarAPIs_In _ _ _ _ _ r Hga Hla) in Hr
      as (id & tb & w & Hin & Hne & Hw & Hth & ->).
    cbn [api2 similarity] in Hb, Hs. subst id w.
    pose proof (In_get_Some _ _ _ Hnd Hin) as Hgb.
    exists {| api1 := b; api2 := a; similarity := s;
              sharedCapabilities := EmbeddingEngine.shared tb ta |}.
    split; [|now cbn].
    apply (findSimilarAPIs_In _ _ _ _ _ _ Hgb Hlb).
    exists a, ta, s. repeat split; auto.
    + now apply get_Some_In.
    + now apply similarity_swap.
  - unfold EmbeddingEngine.findSimilarAPIs in Hla. rewrite Hga in Hla.
    injection Hla as <-. destruct Hr.
Qed.

Lemma findSimilarAPIs_symmetric_witness :
  exists r', In r' [ {| api1 := "c"; api2 := "a"; similarity := 1;
                        sharedCapabilities := ["embeddings"] |};
                     {| api1 := "c"; api2 := "b"; similarity := 0x1.6a09e667f3bccp-1;
                        sharedCapabilities := [] |} ]
             /\ api1 r' = "c" /\ api2 r' = "a" /\ similarity r' = 1%float.
Proof.
  apply (findSimilarAPIs_symmetric SimilarSpec.sample_cache "a" "c"
           EmbeddingEngine.DEFAULT_THRESHOLD 1
           [ {| api1 := "a"; api2 := "c"; similarity := 1;
                sharedCapabilities := ["embeddings"] |};
             {| api1 := "a"; api2 := "b"; similarity := 0x1.6a09e667f3bccp-1;
                sharedCapabilities := ["chat"] |} ]).
  - vm_compute. repeat constructor; cbn; intuition discriminate.
  - vm_compute. reflexivity.
  - vm_compute. reflexivity.
  - eexists. split; [left; reflexivity|]. split; reflexivity.
Defined.

(** ** The graph as a whole *)

Section GraphFacts.

Import EmbeddingEngine SemanticGraphGenerator EdgeSpec Grouping.

Lemma createSemanticGraph_parts (generatedAt : string) (embeddings : list APIEmbedding)
    (g : SemanticGraph) :
  createSemanticGraph generatedAt embeddings = Ok g ->
  g = {| graph_metadata :=
           {| gm_title := "API Semantic Communication Graph";
              gm_description := "Semantic relationships between discovered APIs";
              gm_generatedAt := generatedAt;
              gm_totalAPIs := List.length embeddings;
              gm_totalConnections := List.length (edges_of embeddings) |};
         graph_nodes := map toNode embeddings;
         graph_edges := edges_of embeddings;
         graph_clusters := identifyClusters (map toNode embeddings) (edges_of embeddings);
         graph_recommendations := generateRecommendations (similarities_of embeddings) |}.
Proof.
  unfold createSemanticGraph. rewrite outer_loop_eq.
  destruct (forallb same_dimension (ordered_pairs embeddings)); cbn [bind];
    [|discriminate].
  intros H. injection H as <-. reflexivity.
Qed.

Lemma ordered_pairs_length {A : Type} (l : list A) :
  (2 * List.length (ordered_pairs l) = List.length l * (List.length l - 1))%nat.
Proof.
  induction l as [|x l IH]; [reflexivity|].
  cbn [ordered_pairs List.length]. rewrite length_app, length_map. nia.
Qed.

Lemma edges_of_length (embeddings : list APIEmbedding) :
  (List.length (edges_of embeddings) <= List.length (ordered_pairs embeddings))%nat.
Proof.
  unfold edges_of. induction (ordered_pairs embeddings) as [|p l IH]; [reflexivity|].
  cbn [flat_map]. rewrite length_app. cbn [List.length]. unfold edge_of_pair at 1.
  destruct (calculateSimilarity _ _) as [w|]; [|cbn; lia].
  destruct (EDGE_THRESHOLD <? w)%float; cbn; lia.
Qed.

Lemma similarities_of_In (embeddings : list APIEmbedding) (s : SemanticSimilarity) :
  In s (similarities_of embeddings)
  <-> exists a b w,
        In (a, b) (ordered_pairs embeddings)
        /\ calculateSimilarity (embedding a) (embedding b) = Ok w
        /\ (EDGE_THRESHOLD <? w)%float = true
        /\ s = makeSimilarity a b w.
Proof.
  unfold similarities_of. rewrite in_flat_map. split.
  - intros ([a b] & Hp & Hs). unfold similarity_of_pair in Hs. cbn [fst snd] in Hs.
    destruct (calculateSimilarity _ _) as [w|] eqn:Hw; [|destruct Hs].
    destruct (EDGE_THRESHOLD <? w)%float eqn:Hth; [|destruct Hs].
    destruct Hs as [<-|[]]. exists a, b, w. auto.
  - intros (a & b & w & Hp & Hw & Hth & ->). exists (a, b). split; [exact Hp|].
    unfold similarity_of_pair. cbn [fst snd]. rewrite Hw, Hth. now left.
Qed.

Lemma ordered_pairs_members {A : Type} (l : list A) (a b : A) :
  In (a, b) (ordered_pairs l) -> In a l /\ In b l.
Proof.
  intros Hab. apply ordered_pairs_In in Hab as (i & j & _ & Hi & Hj).
  split; eapply nth_error_In; eassumption.
Qed.

Lemma node_id_In (embeddings : list APIEmbedding) (a : APIEmbedding) :
  In a embeddings -> In (apiId a) (map node_id (map toNode embeddings)).
Proof.
  intros Ha. rewrite map_map. apply in_map_iff. now exists a.
Qed.

(** The members of a group are nodes that the group's key describes. *)
Lemma typeGroups_members (nodes : list GraphNode) (t : string) (group : list GraphNode)
    (n : GraphNode) :
  In (t, group) (typeGroups nodes) -> In n group -> In n nodes /\ node_type n = t.
Proof.
  rewrite typeGroups_grouped. intros Hin Hn.
  apply in_map_iff in Hin as (t' & Heq & _). injection Heq as -> <-.
  unfold ClusterSpec.nodes_of_type in Hn. apply filter_In in Hn as [Hn Ht].
  split; [exact Hn|]. now apply String.eqb_eq in Ht.
Qed.

Lemma capabilityGroups_members (nodes : list GraphNode) (k : string)
    (group : list GraphNode) (n : GraphNode) :
  In (k, group) (capabilityGroups nodes) -> In n group ->
  In n nodes /\ In k (node_capabilities n).
Proof.
  unfold capabilityGroups.
  rewrite (fold_nested_upsert [] (fun group n => group ++ [n])
             node_capabilities (fun n => n)).
  rewrite fold_upsert_grouped. unfold grouped. intros Hin Hn.
  apply in_map_iff in Hin as (k' & Heq & _). injection Heq as -> <-.
  rewrite fold_snoc_id in Hn. cbn [app] in Hn. unfold under in Hn.
  apply in_map_iff in Hn as ([k' n'] & Hsnd & Hke). cbn [snd] in Hsnd. subst n'.
  apply filter_In in Hke as [Hke Hk]. cbn [fst] in Hk. apply String.eqb_eq in Hk.
  subst k'. apply in_flat_map in Hke as (x & Hx & Hkx).
  apply in_map_iff in Hkx as (c & Heq & Hc). injection Heq as -> ->. auto.
Qed.

Lemma cluster_members_nodes (nodes : list GraphNode) (edges : list GraphEdge)
    (c : Cluster) (m : string) :
  In c (identifyClusters nodes edges) -> In m (cluster_members c) ->
  In m (map node_id nodes).
Proof.
  rewrite identifyClusters_kept, in_app_iff, !kept_In.
  intros [([t group] & Hin & Hc) | ([k group] & Hin & Hc)] Hm.
  - apply typeCluster_members in Hc as (_ & Hmem & _). rewrite Hmem in Hm.
    apply in_map_iff in Hm as (n & <- & Hn). apply in_map.
    now apply (typeGroups_members nodes t group n).
  - apply capabilityCluster_members in Hc as (_ & Hmem & _). rewrite Hmem in Hm.
    apply in_map_iff in Hm as (n & <- & Hn). apply in_map.
    now apply (capabilityGroups_members nodes k group n).
Qed.

Lemma generateRecommendations_eq (similarities : list SemanticSimilarity) :
  generateRecommendations similarities
  = map RecommendationSpec.high_recommendation
      (RecommendationSpec.high_records similarities)
    ++ map (fun cap =>
              RecommendationSpec.cluster_recommendation cap
                (RecommendationSpec.participants cap similarities))
         (RecommendationSpec.saturated similarities).
Proof.
  unfold generateRecommendations. rewrite !forEach_push_kept. cbn [app].
  rewrite kept_highSimilarity, capabilityClusters_grouped.
  now rewrite (kept_capabilityClusterRec _
                 (fun cap => RecommendationSpec.participants cap similarities)).
Qed.

Lemma participants_In (cap : string) (similarities : list SemanticSimilarity)
    (a : string) :
  In a (RecommendationSpec.participants cap similarities) ->
  exists s, In s similarities /\ (a = api1 s \/ a = api2 s).
Proof.
  unfold RecommendationSpec.participants. rewrite distinct_In, in_flat_map.
  intros (s & Hs & Ha). exists s. split; [exact Hs|].
  destruct (Js.includes (sharedCapabilities s) cap); [|destruct Ha].
  destruct Ha as [<-|[<-|[]]]; auto.
Qed.

End GraphFacts.

(** X13. The kind of an edge: "same-type" exactly when the two apis have the
    same type; "complementary" exactly when the types differ and are, in
    either order, "ai" with "version-control", "ai" with "storage", or
    "version-control" with "ci-cd"; "cross-type" in every other case.  The
    kind does not depend on which api comes first. *)
Theorem determineEdgeType_kinds (a b : APIEmbedding) :
  let ta := md_type (metadata a) in
  let tb := md_type (metadata b) in
  let complementary :=
    [ ("ai", "version-control"); ("version-control", "ai");
      ("ai", "storage"); ("storage", "ai");
      ("version-control", "ci-cd"); ("ci-cd", "version-control") ] in
  (SemanticGraphGenerator.determineEdgeType a b = "same-type" <-> ta = tb)
  /\ (SemanticGraphGenerator.determineEdgeType a b = "complementary"
      <-> In (ta, tb) complementary)
  /\ (SemanticGraphGenerator.determineEdgeType a b = "cross-type"
      <-> ta <> tb /\ ~ In (ta, tb) complementary)
  /\ SemanticGraphGenerator.determineEdgeType a b
     = SemanticGraphGenerator.determineEdgeType b a.
Proof.
  intros ta tb complementary.
  assert (Hpairs :
            existsb (fun pair => Js.includes pair ta && Js.includes pair tb)
              SemanticGraphGenerator.complementaryPairs = true
            <-> (ta = tb /\ In ta ["ai"; "version-control"; "storage"; "ci-cd"])
                \/ In (ta, tb) complementary).
  { unfold SemanticGraphGenerator.complementaryPairs, complementary.
    clearbody ta tb. clear complementary.
    cbn [existsb]. rewrite !orb_true_iff, !andb_true_iff, !includes_In.
    cbn [In]. split.
    - intros H. repeat match goal with
                       | H : _ \/ _ |- _ => destruct H
                       | H : _ /\ _ |- _ => destruct H
                       | H : False |- _ => destruct H
                       | H : false = true |- _ => discriminate H
                       end; subst; auto 20.
    - intros H. repeat match goal with
                       | H : _ \/ _ |- _ => destruct H
                       | H : _ /\ _ |- _ => destruct H
                       | H : False |- _ => destruct H
                       | H : (_, _) = (_, _) |- _ => injection H as <- <-
                       end; subst; auto 20. }
  assert (Hdiff : In (ta, tb) complementary -> ta <> tb).
  { unfold complementary. clearbody ta tb. cbn [In]. intros H.
    repeat match goal with
           | H : _ \/ _ |- _ => destruct H
           | H : False |- _ => destruct H
           | H : (_, _) = (_, _) |- _ => injection H as <- <-
           end; discriminate. }
  split; [|split; [|split]]; [| | |apply determineEdgeType_comm].
  - unfold SemanticGraphGenerator.determineEdgeType. fold ta tb.
    destruct (String.eqb_spec ta tb) as [Heq|Hne]; [tauto|].
    destruct (existsb _ _); split; intros H; try discriminate H; contradiction.
  - unfold SemanticGraphGenerator.determineEdgeType. fold ta tb.
    destruct (String.eqb_spec ta tb) as [Heq|Hne].
    + split; [discriminate|]. intros H. now apply Hdiff in H.
    + destruct (existsb _ _) eqn:Hex.
      * split; [|reflexivity]. intros _.
        destruct (proj1 Hpairs eq_refl) as [[Heq _]|H]; tauto.
      * split; [discriminate|]. intros H.
        assert (Htrue : false = true) by (apply Hpairs; now right). discriminate.
  - unfold SemanticGraphGenerator.determineEdgeType. fold ta tb.
    destruct (String.eqb_spec ta tb) as [Heq|Hne].
    + split; [discriminate | tauto].
    + destruct (existsb _ _) eqn:Hex.
      * split; [discriminate|]. intros [_ Hn].
        destruct (proj1 Hpairs eq_refl) as [[Heq _]|H]; tauto.
      * split; [|reflexivity]. intros _. split; [exact Hne|]. intros H.
        assert (Htrue : false = true) by (apply Hpairs; now right). discriminate.
Qed.

(** X14. The counts of a graph: [totalAPIs] is the number of nodes and of
    embeddings, [totalConnections] the number of edges, and there are at
    most [n (n - 1) / 2] edges over [n] embeddings; the graph carries the
    time stamp it was given. *)
Theorem createSemanticGraph_counts (generatedAt : string)
    (embeddings : list APIEmbedding) (g : SemanticGraph) :
  SemanticGraphGenerator.createSemanticGraph generatedAt embeddings = Ok g ->
  gm_totalAPIs (graph_metadata g) = List.length (graph_nodes g)
  /\ List.length (graph_nodes g) = List.length embeddings
  /\ map node_id (graph_nodes g) = map apiId embeddings
  /\ gm_totalConnections (graph_metadata g) = List.length (graph_edges g)
  /\ (2 * List.length (graph_edges g)
      <= List.length embeddings * (List.length embeddings - 1))%nat
  /\ gm_generatedAt (graph_metadata g) = generatedAt.
Proof.
  intros Hg. rewrite (createSemanticGraph_parts _ _ _ Hg). cbn.
  rewrite length_map, map_map. repeat split; try reflexivity.
  pose proof (edges_of_length embeddings). pose proof (ordered_pairs_length embeddings).
  lia.
Qed.

Lemma createSemanticGraph_counts_witness :
  exists g : SemanticGraph,
    SemanticGraphGenerator.createSemanticGraph "2024-01-01T00:00:00.000Z"
      EdgeSpec.demo_embeddings = Ok g
    /\ gm_totalAPIs (graph_metadata g) = 3%nat
    /\ map node_id (graph_nodes g) = ["x"; "y"; "z"]
    /\ gm_totalConnections (graph_metadata g) = List.length (graph_edges g)
    /\ (2 * List.length (graph_edges g) <= 3 * (3 - 1))%nat.
Proof.
  destruct (createSemanticGraph_returns "2024-01-01T00:00:00.000Z"
              EdgeSpec.demo_embeddings eq_refl) as [g Hg].
  exists g. split; [exact Hg|].
  destruct (createSemanticGraph_counts _ _ _ Hg) as (H1 & H2 & H3 & H4 & H5 & _).
  split; [now rewrite H1, H2|]. split; [exact H3|]. split; [exact H4 | exact H5].
Defined.

(** X15. A graph refers to its own nodes only: every member of a cluster and
    every api that a recommendation names is the id of a node of the graph.
    The "high-similarity" recommendations are the edges of weight above 0.8:
    each one names the two ends of such an edge, and each such edge has
    one. *)
Theorem createSemanticGraph_references (generatedAt : string)
    (embeddings : list APIEmbedding) (g : SemanticGraph) :
  SemanticGraphGenerator.createSemanticGraph generatedAt embeddings = Ok g ->
  (forall (c : Cluster) (m : string),
      In c (graph_clusters g) -> In m (cluster_members c) ->
      In m (map node_id (graph_nodes g)))
  /\ (forall (r : Recommendation) (a : string),
        In r (graph_recommendations g) -> In a (rec_affectedAPIs r) ->
        In a (map node_id (graph_nodes g)))
  /\ (forall r : Recommendation,
        In r (graph_recommendations g) -> rec_type r = "high-similarity" ->
        exists e : GraphEdge,
          In e (graph_edges g)
          /\ (SemanticGraphGenerator.HIGH_SIMILARITY <? edge_weight e)%float = true
          /\ rec_affectedAPIs r = [edge_from e; edge_to e])
  /\ (forall e : GraphEdge,
        In e (graph_edges g) ->
        (SemanticGraphGenerator.HIGH_SIMILARITY <? edge_weight e)%float = true ->
        exists r : Recommendation,
          In r (graph_recommendations g)
          /\ rec_type r = "high-similarity"
          /\ rec_priority r = high
          /\ rec_affectedAPIs r = [edge_from e; edge_to e]).
Proof.
  intros Hg. rewrite (createSemanticGraph_parts _ _ _ Hg).
  cbn [graph_clusters graph_recommendations graph_nodes graph_edges].
  assert (Hsim : forall s, In s (EdgeSpec.similarities_of embeddings) ->
                           In (api1 s) (map node_id (map SemanticGraphGenerator.toNode embeddings))
                           /\ In (api2 s) (map node_id (map SemanticGraphGenerator.toNode embeddings))).
  { intros s Hs. apply similarities_of_In in Hs as (a & b & w & Hp & _ & _ & ->).
    apply ordered_pairs_members in Hp as [Ha Hb]. cbn [api1 api2 SemanticGraphGenerator.makeSimilarity].
    split; now apply node_id_In. }
  split; [|split; [|split]].
  - intros c m. apply cluster_members_nodes.
  - intros r a. rewrite generateRecommendations_eq. intros Hr Ha.
    apply in_app_iff in Hr as [Hr|Hr];
      [apply in_map_iff in Hr as (s & <- & Hs) | apply in_map_iff in Hr as (cap & <- & Hcap)].
    + apply filter_In in Hs as [Hs _]. destruct (Hsim s Hs) as [H1 H2].
      destruct Ha as [<-|[<-|[]]]; assumption.
    + cbn [rec_affectedAPIs RecommendationSpec.cluster_recommendation] in Ha.
      apply participants_In in Ha as (s & Hs & [->| ->]); now apply Hsim.
  - intros r. rewrite generateRecommendations_eq. intros Hr Htype.
    apply in_app_iff in Hr as [Hr|Hr];
      [apply in_map_iff in Hr as (s & <- & Hs)
      | apply in_map_iff in Hr as (cap & <- & Hcap); discriminate Htype].
    apply filter_In in Hs as [Hs Hhigh].
    apply similarities_of_In in Hs as (a & b & w & Hp & Hw & Hth & ->).
    exists (SemanticGraphGenerator.makeEdge a b w). split; [|split].
    + apply edges_of_In. now exists a, b, w.
    + exact Hhigh.
    + reflexivity.
  - intros e He Hhigh. apply edges_of_In in He as (a & b & w & Hp & Hw & Hth & ->).
    exists (RecommendationSpec.high_recommendation
              (SemanticGraphGenerator.makeSimilarity a b w)).
    split; [|now cbn].
    rewrite generateRecommendations_eq, in_app_iff. left. apply in_map.
    apply filter_In. split; [|exact Hhigh].
    apply similarities_of_In. now exists a, b, w.
Qed.

(** The demo graph: its one cluster is made of nodes of the graph. *)
Lemma createSemanticGraph_references_witness :
  exists g : SemanticGraph,
    SemanticGraphGenerator.createSemanticGraph "2024-01-01T00:00:00.000Z"
      EdgeSpec.demo_embeddings = Ok g
    /\ map cluster_members (graph_clusters g) = [["x"; "y"]; ["x"; "y"]]
    /\ forall (c : Cluster) (m : string),
         In c (graph_clusters g) -> In m (cluster_members c) ->
         In m (map node_id (graph_nodes g)).
Proof.
  destruct (createSemanticGraph_returns "2024-01-01T00:00:00.000Z"
              EdgeSpec.demo_embeddings eq_refl) as [g Hg].
  exists g. split; [exact Hg|]. split.
  - rewrite (createSemanticGraph_parts _ _ _ Hg). vm_compute. reflexivity.
  - exact (proj1 (createSemanticGraph_references _ _ _ Hg)).
Defined.

(** X16. With fewer than two embeddings there is nothing to compare: the
    graph is built, whatever the vectors, and has no edge and no
    recommendation; it has no cluster either when no capability is listed
    twice. *)
Theorem createSemanticGraph_small (generatedAt : string)
    (embeddings : list APIEmbedding) :
  (List.length embeddings <= 1)%nat ->
  exists g : SemanticGraph,
    SemanticGraphGenerator.createSemanticGraph generatedAt embeddings = Ok g
    /\ graph_nodes g = map SemanticGraphGenerator.toNode embeddings
    /\ graph_edges g = []
    /\ graph_recommendations g = []
    /\ (Forall (fun e => NoDup (md_capabilities (metadata e))) embeddings ->
        graph_clusters g = []).
Proof.
  intros Hlen.
  destruct embeddings as [|e [|e' rest]]; [| |cbn in Hlen; lia].
  - eexists. split; [reflexivity|]. cbn. auto.
  - eexists. split; [reflexivity|].
    cbn [graph_nodes graph_edges graph_recommendations graph_clusters].
    split; [reflexivity|]. split; [reflexivity|]. split; [reflexivity|].
    intros Hnd. inversion Hnd as [|? ? Hcaps _]; subst.
    rewrite identifyClusters_kept. cbn [map].
    rewrite typeGroups_grouped, capabilityGroups_grouped
      by (repeat constructor; exact Hcaps).
    assert (Hnone : forall (A : Type) (f : A -> option Cluster) (l : list A),
               (forall x, In x l -> f x = None) -> Grouping.kept f l = []).
    { intros A f l Hf. unfold Grouping.kept. induction l as [|x l IH]; [reflexivity|].
      cbn [flat_map]. rewrite (Hf x (or_introl eq_refl)), IH; [reflexivity|].
      intros y Hy. apply Hf. now right. }
    rewrite !Hnone; [reflexivity | |].
    + intros [k group] Hin. apply in_map_iff in Hin as (k' & Heq & _).
      injection Heq as <- <-. unfold SemanticGraphGenerator.capabilityCluster.
      unfold ClusterSpec.nodes_with. cbn [filter].
      now destruct (Js.includes _ _).
    + intros [t group] Hin. apply in_map_iff in Hin as (t' & Heq & _).
      injection Heq as <- <-. unfold SemanticGraphGenerator.typeCluster.
      unfold ClusterSpec.nodes_of_type. cbn [filter].
      now destruct (String.eqb _ _).
Qed.

Lemma createSemanticGraph_small_witness :
  exists g : SemanticGraph,
    SemanticGraphGenerator.createSemanticGraph "2024-01-01T00:00:00.000Z"
      [EdgeSpec.point "x" "ai" 1 0 ["chat"]] = Ok g
    /\ graph_nodes g
       = map SemanticGraphGenerator.toNode [EdgeSpec.point "x" "ai" 1 0 ["chat"]]
    /\ graph_edges g = []
    /\ graph_recommendations g = []
    /\ (Forall (fun e => NoDup (md_capabilities (metadata e)))
          [EdgeSpec.point "x" "ai" 1 0 ["chat"]] ->
        graph_clusters g = []).
Proof. apply createSemanticGraph_small. cbn. lia. Defined.

(** ** The registry through the life of an engine *)

Section LifecycleFacts.

Import OrchestrationEngine Lifecycle FlowSpec.

Context {handlers : StepHandlers}.

Lemma set_status_found (flowId : string) (s : FlowStatus) (engine : Engine)
    (flow : APIOrchestrationFlow) :
  Js.get flowId engine = Some flow ->
  set_status flowId s engine = Js.set flowId (with_status flow s) engine.
Proof. unfold set_status. now intros ->. Qed.

Lemma keys_set_found {V : Type} (k : string) (v w : V) (m : Js.Map V) :
  Js.get k m = Some w -> Js.keys (Js.set k v m) = Js.keys m.
Proof. intros Hget. rewrite keys_set. unfold Js.has. now rewrite Hget. Qed.

Lemma well_formed_get (engine : Engine) (id : string) (flow : APIOrchestrationFlow) :
  well_formed engine -> Js.get id engine = Some flow ->
  flow_id flow = id /\ ascending (flow_steps flow).
Proof. intros [_ Hall] Hget. apply Hall. now apply get_Some_In. Qed.

Lemma well_formed_set (engine : Engine) (id : string) (flow : APIOrchestrationFlow) :
  well_formed engine -> flow_id flow = id -> ascending (flow_steps flow) ->
  well_formed (Js.set id flow engine).
Proof.
  intros [Hnd Hall] Hid Hasc. split; [now apply keys_set_NoDup|].
  intros id' f Hin. apply In_set in Hin as [Heq|Hin]; [|now apply Hall].
  injection Heq as -> ->. auto.
Qed.

Lemma well_formed_set_status (engine : Engine) (id : string) (s : FlowStatus) :
  well_formed engine -> well_formed (set_status id s engine).
Proof.
  intros Hwf. unfold set_status.
  destruct (Js.get id engine) as [flow|] eqn:Hget; [|exact Hwf].
  destruct (well_formed_get _ _ _ Hwf Hget) as [Hid Hasc].
  now apply well_formed_set.
Qed.

Lemma well_formed_add (now : N) (flowId : string) (step : StepInput)
    (engine engine' : Engine) :
  well_formed engine ->
  addOrchestrationStep now flowId step engine = Ok engine' ->
  well_formed engine'.
Proof.
  intros Hwf. unfold addOrchestrationStep.
  destruct (Js.get flowId engine) as [flow|] eqn:Hget; [|discriminate].
  intros H. injection H as <-.
  destruct (well_formed_get _ _ _ Hwf Hget) as [Hid _].
  apply well_formed_set; [exact Hwf | exact Hid |].
  apply sort_by_order_ascending.
Qed.

Lemma well_formed_execute (flowId : string) (engine : Engine) :
  well_formed engine -> well_formed (fst (fst (executeFlow flowId engine))).
Proof.
  intros Hwf. unfold executeFlow.
  destruct (Js.get flowId engine) as [flow|]; [|exact Hwf].
  destruct (run_steps (flow_steps flow)) as [events [u|err]]; cbn [fst];
    now repeat apply well_formed_set_status.
Qed.

Lemma well_formed_delete (flowId : string) (engine : Engine) :
  well_formed engine -> well_formed (deleteFlow flowId engine).
Proof.
  intros [Hnd Hall]. split; [now apply keys_delete_NoDup|].
  intros id f Hin. apply Hall. eapply keys_delete_incl. exact Hin.
Qed.

Lemma reachable_well_formed (engine : Engine) :
  reachable engine -> well_formed engine.
Proof.
  induction 1 as [|now name apis engine _ IH|now flowId step engine engine' _ IH Hadd
                  |flowId engine _ IH|flowId engine _ IH].
  - split; [constructor | intros id f []].
  - cbn [createOrchestrationFlow snd].
    apply well_formed_set; [exact IH | reflexivity | constructor].
  - eapply well_formed_add; eassumption.
  - now apply well_formed_execute.
  - now apply well_formed_delete.
Qed.

(** The flows of a registry in good order, listed: their ids are the keys. *)
Lemma well_formed_ids (engine : Engine) :
  well_formed engine -> map flow_id (getActiveFlows engine) = Js.keys engine.
Proof.
  intros [_ Hall]. unfold getActiveFlows, Js.values, Js.keys. rewrite map_map.
  apply map_ext_in. intros [id f] Hin. cbn [fst snd]. now apply Hall.
Qed.

(** The steps that an execution runs are the first steps of the flow, and
    all of them when no step throws. *)
Lemma run_steps_prefix (steps : list OrchestrationStep) :
  exists rest,
    steps = steps_run (fst (run_steps steps)) ++ rest
    /\ (snd (run_steps steps) = Ok tt -> rest = []).
Proof.
  induction steps as [|s steps (rest & Heq & Hok)]; cbn [run_steps].
  - exists []. auto.
  - destruct (executeStep s) as [u|err].
    + destruct (run_steps steps) as [events result]. cbn [fst snd] in *.
      exists rest. split; [|exact Hok].
      change (steps_run (StepRun s :: events)) with (s :: steps_run events).
      cbn [app]. now f_equal.
    + exists steps. split; [reflexivity|]. cbn. discriminate.
Qed.

Lemma steps_run_app (l l' : list Event) :
  steps_run (l ++ l') = steps_run l ++ steps_run l'.
Proof. unfold steps_run. apply flat_map_app. Qed.

Lemma executeFlow_steps_run (flowId : string) (engine : Engine)
    (flow : APIOrchestrationFlow) :
  Js.get flowId engine = Some flow ->
  steps_run (snd (fst (executeFlow flowId engine)))
  = steps_run (fst (run_steps (flow_steps flow)))
  /\ snd (executeFlow flowId engine) = snd (run_steps (flow_steps flow)).
Proof.
  intros Hget. unfold executeFlow. rewrite Hget.
  destruct (run_steps (flow_steps flow)) as [events [[]|err]]; cbn [fst snd];
    (split; [|reflexivity]);
    change (steps_run (StatusSet flowId running :: ?l)) with (steps_run l);
    rewrite steps_run_app; cbn; now rewrite app_nil_r.
Qed.

Lemma StronglySorted_app_l {A : Type} (R : A -> A -> Prop) (p rest : list A) :
  StronglySorted R (p ++ rest) -> StronglySorted R p.
Proof.
  induction p as [|x p IH]; intros Hs; [constructor|].
  cbn [app] in Hs. inversion Hs as [|? ? Hs' Hall]; subst.
  constructor; [now apply IH|].
  apply Forall_app in Hall. tauto.
Qed.

(** What an execution leaves in the registry. *)
Lemma executeFlow_engine (flowId : string) (engine : Engine)
    (flow : APIOrchestrationFlow) :
  Js.get flowId engine = Some flow ->
  exists status,
    fst (fst (executeFlow flowId engine))
    = Js.set flowId (with_status flow status)
        (Js.set flowId (with_status flow running) engine)
    /\ (status = completed \/ status = failed)
    /\ (status = completed <-> snd (executeFlow flowId engine) = Ok tt).
Proof.
  intros Hget. unfold executeFlow. rewrite Hget.
  rewrite (set_status_found _ running _ _ Hget).
  assert (Hget' : Js.get flowId (Js.set flowId (with_status flow running) engine)
                  = Some (with_status flow running)) by apply get_set_same.
  destruct (run_steps (flow_steps flow)) as [events [[]|err]]; cbn [fst snd];
    rewrite (set_status_found _ _ _ _ Hget').
  - exists completed. split; [reflexivity|]. split; [now left | tauto].
  - exists failed. split; [reflexivity|]. split; [now right|].
    split; discriminate.
Qed.

End LifecycleFacts.

(** X17. Whatever operations an engine has gone through, its registry is in
    good order: [getActiveFlows] lists no id twice, it lists exactly the
    flows that [getFlow] finds under their own ids, every flow is registered
    under its own id, and the steps of every flow are in ascending order of
    [order]. *)
Theorem reachable_registry {handlers : StepHandlers}
    (engine : OrchestrationEngine.Engine) :
  Lifecycle.reachable engine ->
  NoDup (map flow_id (OrchestrationEngine.getActiveFlows engine))
  /\ (forall flow : APIOrchestrationFlow,
        In flow (OrchestrationEngine.getActiveFlows engine)
        <-> OrchestrationEngine.getFlow (flow_id flow) engine = Some flow)
  /\ (forall (id : string) (flow : APIOrchestrationFlow),
        OrchestrationEngine.getFlow id engine = Some flow ->
        flow_id flow = id /\ Lifecycle.ascending (flow_steps flow)).
Proof.
  intros Hreach. pose proof (reachable_well_formed engine Hreach) as Hwf.
  split; [|split].
  - rewrite (well_formed_ids engine Hwf). exact (proj1 Hwf).
  - intros flow. unfold OrchestrationEngine.getActiveFlows,
      OrchestrationEngine.getFlow, Js.values. split.
    + intros Hin. apply in_map_iff in Hin as ([id f] & Heq & Hin).
      cbn [snd] in Heq. subst f.
      destruct (proj2 Hwf id flow Hin) as [-> _].
      exact (In_get_Some _ _ _ (proj1 Hwf) Hin).
    + intros Hget. apply get_Some_In in Hget. apply in_map_iff.
      now exists (flow_id flow, flow).
  - intros id flow Hget. exact (well_formed_get engine id flow Hwf Hget).
Qed.

Lemma demo_engine_reachable :
  @Lifecycle.reachable OrchestrationEngine.mockHandlers FlowSpec.demo_engine.
Proof.
  apply (Lifecycle.reach_add 1003 "flow-1000" (FlowSpec.step "forward" 3)
           (FlowSpec.then_add 1002 "flow-1000" (FlowSpec.step "sync" 2)
              (FlowSpec.then_add 1001 "flow-1000" (FlowSpec.step "authenticate" 1)
                 FlowSpec.one_flow)));
    [|vm_compute; reflexivity].
  apply (Lifecycle.reach_add 1002 "flow-1000" (FlowSpec.step "sync" 2)
           (FlowSpec.then_add 1001 "flow-1000" (FlowSpec.step "authenticate" 1)
              FlowSpec.one_flow));
    [|vm_compute; reflexivity].
  apply (Lifecycle.reach_add 1001 "flow-1000" (FlowSpec.step "authenticate" 1)
           FlowSpec.one_flow);
    [|vm_compute; reflexivity].
  apply (Lifecycle.reach_create 1000 "docs" [] []). constructor.
Qed.

Lemma reachable_registry_witness :
  NoDup (map flow_id (OrchestrationEngine.getActiveFlows FlowSpec.demo_engine))
  /\ (forall flow : APIOrchestrationFlow,
        In flow (OrchestrationEngine.getActiveFlows FlowSpec.demo_engine)
        <-> OrchestrationEngine.getFlow (flow_id flow) FlowSpec.demo_engine = Some flow)
  /\ (forall (id : string) (flow : APIOrchestrationFlow),
        OrchestrationEngine.getFlow id FlowSpec.demo_engine = Some flow ->
        flow_id flow = id /\ Lifecycle.ascending (flow_steps flow)).
Proof.
  exact (@reachable_registry OrchestrationEngine.mockHandlers FlowSpec.demo_engine
           demo_engine_reachable).
Defined.

(** X18. [deleteFlow] on an engine: the flow is gone, so [getFlow] finds
    nothing under the id and [addOrchestrationStep] and [executeFlow] throw
    "not found" for it; every other flow is still found as it was; and
    deleting an id that is not registered changes nothing. *)
Theorem deleteFlow_removes {handlers : StepHandlers} (flowId : string)
    (engine : OrchestrationEngine.Engine) :
  Lifecycle.reachable engine ->
  OrchestrationEngine.getFlow flowId (OrchestrationEngine.deleteFlow flowId engine) = None
  /\ (forall id : string,
        id <> flowId ->
        OrchestrationEngine.getFlow id (OrchestrationEngine.deleteFlow flowId engine)
        = OrchestrationEngine.getFlow id engine)
  /\ (forall (now : N) (step : StepInput),
        OrchestrationEngine.addOrchestrationStep now flowId step
          (OrchestrationEngine.deleteFlow flowId engine)
        = Throw (FlowNotFound flowId))
  /\ OrchestrationEngine.executeFlow flowId (OrchestrationEngine.deleteFlow flowId engine)
     = (OrchestrationEngine.deleteFlow flowId engine, [], Throw (FlowNotFound flowId))
  /\ (OrchestrationEngine.getFlow flowId engine = None ->
      OrchestrationEngine.deleteFlow flowId engine = engine).
Proof.
  intros Hreach. destruct (reachable_well_formed engine Hreach) as [Hnd _].
  assert (Hgone : Js.get flowId (Js.delete flowId engine) = None)
    by now apply get_delete_same.
  unfold OrchestrationEngine.getFlow, OrchestrationEngine.deleteFlow.
  split; [exact Hgone|]. split; [|split; [|split]].
  - intros id Hne. now apply get_delete_other.
  - intros now step. unfold OrchestrationEngine.addOrchestrationStep.
    now rewrite Hgone.
  - unfold OrchestrationEngine.executeFlow. now rewrite Hgone.
  - apply delete_absent.
Qed.

Lemma deleteFlow_removes_witness :
  OrchestrationEngine.getFlow "flow-1000"
    (OrchestrationEngine.deleteFlow "flow-1000" FlowSpec.demo_engine) = None
  /\ (forall id : string,
        id <> "flow-1000" ->
        OrchestrationEngine.getFlow id
          (OrchestrationEngine.deleteFlow "flow-1000" FlowSpec.demo_engine)
        = OrchestrationEngine.getFlow id FlowSpec.demo_engine)
  /\ (forall (now : N) (step : StepInput),
        OrchestrationEngine.addOrchestrationStep now "flow-1000" step
          (OrchestrationEngine.deleteFlow "flow-1000" FlowSpec.demo_engine)
        = Throw (FlowNotFound "flow-1000"))
  /\ @OrchestrationEngine.executeFlow OrchestrationEngine.mockHandlers "flow-1000"
       (OrchestrationEngine.deleteFlow "flow-1000" FlowSpec.demo_engine)
     = (OrchestrationEngine.deleteFlow "flow-1000" FlowSpec.demo_engine, [],
        Throw (FlowNotFound "flow-1000"))
  /\ (OrchestrationEngine.getFlow "flow-1000" FlowSpec.demo_engine = None ->
      OrchestrationEngine.deleteFlow "flow-1000" FlowSpec.demo_engine
      = FlowSpec.demo_engine).
Proof.
  exact (@deleteFlow_removes OrchestrationEngine.mockHandlers "flow-1000"
           FlowSpec.demo_engine demo_engine_reachable).
Defined.

(** X19. An execution runs the steps of the flow from the first on, in
    ascending order of [order] whatever the order in which they were added,
    and skips none: the steps it runs are the first steps of the flow's
    list, and the whole list when it returns. *)
Theorem executeFlow_in_order {handlers : StepHandlers} (flowId : string)
    (engine : OrchestrationEngine.Engine) (flow : APIOrchestrationFlow) :
  Lifecycle.reachable engine ->
  OrchestrationEngine.getFlow flowId engine = Some flow ->
  Lifecycle.starts_with (flow_steps flow)
    (FlowSpec.steps_run (snd (fst (OrchestrationEngine.executeFlow flowId engine))))
  /\ Lifecycle.ascending
       (FlowSpec.steps_run (snd (fst (OrchestrationEngine.executeFlow flowId engine))))
  /\ (snd (OrchestrationEngine.executeFlow flowId engine) = Ok tt ->
      FlowSpec.steps_run (snd (fst (OrchestrationEngine.executeFlow flowId engine)))
      = flow_steps flow).
Proof.
  intros Hreach Hget.
  destruct (well_formed_get engine flowId flow (reachable_well_formed engine Hreach) Hget)
    as [_ Hasc].
  destruct (executeFlow_steps_run flowId engine flow Hget) as [-> ->].
  destruct (run_steps_prefix (flow_steps flow)) as (rest & Heq & Hok).
  split; [now exists rest|]. split.
  - unfold Lifecycle.ascending in *. rewrite Heq in Hasc.
    exact (StronglySorted_app_l _ _ _ Hasc).
  - intros Hres. rewrite (Hok Hres), app_nil_r in Heq. now symmetry.
Qed.

(** The demo flow: its steps were added in order 1, 2, 3; the second has
    no handler, so the first two run. *)
Lemma executeFlow_in_order_witness :
  FlowSpec.steps_run
    (snd (fst (@OrchestrationEngine.executeFlow OrchestrationEngine.mockHandlers
                 "flow-1000" FlowSpec.demo_engine)))
  = [ FlowSpec.demo_step 1001 "authenticate" 1; FlowSpec.demo_step 1002 "sync" 2 ]
  /\ Lifecycle.ascending
       (FlowSpec.steps_run
          (snd (fst (@OrchestrationEngine.executeFlow OrchestrationEngine.mockHandlers
                       "flow-1000" FlowSpec.demo_engine)))).
Proof.
  split; [vm_compute; reflexivity|].
  refine (proj1 (proj2 (@executeFlow_in_order OrchestrationEngine.mockHandlers
                          "flow-1000" FlowSpec.demo_engine _ demo_engine_reachable _))).
  vm_compute. reflexivity.
Defined.

(** X20. [addOrchestrationStep] and [executeFlow] touch the one flow they
    name and nothing else: every other flow is found as it was, and the
    flows keep their places in the registry.  Of the flow itself, adding a
    step changes the step list only, and an execution changes the status
    only. *)
Theorem operations_touch_one_flow {handlers : StepHandlers} (flowId : string)
    (engine : OrchestrationEngine.Engine) (flow : APIOrchestrationFlow) :
  OrchestrationEngine.getFlow flowId engine = Some flow ->
  (forall (now : N) (step : StepInput),
      exists engine' : OrchestrationEngine.Engine,
        OrchestrationEngine.addOrchestrationStep now flowId step engine = Ok engine'
        /\ Js.keys engine' = Js.keys engine
        /\ (forall id, id <> flowId ->
              OrchestrationEngine.getFlow id engine'
              = OrchestrationEngine.getFlow id engine)
        /\ OrchestrationEngine.getFlow flowId engine'
           = Some (Lifecycle.with_steps flow
                     (Js.sort OrchestrationEngine.by_order
                        (flow_steps flow ++ [Lifecycle.new_step now step]))))
  /\ (exists status : FlowStatus,
        Js.keys (fst (fst (OrchestrationEngine.executeFlow flowId engine)))
        = Js.keys engine
        /\ (forall id, id <> flowId ->
              OrchestrationEngine.getFlow id
                (fst (fst (OrchestrationEngine.executeFlow flowId engine)))
              = OrchestrationEngine.getFlow id engine)
        /\ OrchestrationEngine.getFlow flowId
             (fst (fst (OrchestrationEngine.executeFlow flowId engine)))
           = Some (Lifecycle.with_status flow status)
        /\ (status = completed \/ status = failed)).
Proof.
  unfold OrchestrationEngine.getFlow. intros Hget. split.
  - intros now step. unfold OrchestrationEngine.addOrchestrationStep. rewrite Hget.
    eexists. split; [reflexivity|]. split; [|split].
    + exact (keys_set_found _ _ _ _ Hget).
    + intros id Hne. now apply get_set_other.
    + apply get_set_same.
  - destruct (executeFlow_engine flowId engine flow Hget) as (status & -> & Hst & _).
    exists status.
    assert (Hget' : Js.get flowId
                      (Js.set flowId (Lifecycle.with_status flow running) engine)
                    = Some (Lifecycle.with_status flow running)) by apply get_set_same.
    split; [|split; [|split]].
    + now rewrite (keys_set_found _ _ _ _ Hget'), (keys_set_found _ _ _ _ Hget).
    + intros id Hne. now rewrite !get_set_other.
    + apply get_set_same.
    + exact Hst.
Qed.

Lemma operations_touch_one_flow_witness :
  exists status : FlowStatus,
    Js.keys (fst (fst (@OrchestrationEngine.executeFlow OrchestrationEngine.mockHandlers
                         "flow-1000" FlowSpec.one_flow)))
    = ["flow-1000"]
    /\ (status = completed \/ status = failed).
Proof.
  destruct (proj2 (@operations_touch_one_flow OrchestrationEngine.mockHandlers
                     "flow-1000" FlowSpec.one_flow _ eq_refl))
    as (status & Hkeys & _ & _ & Hst).
  exists status. split; [exact Hkeys | exact Hst].
Defined.

(** ** Routes and suggested flows *)

Section Suggestions.

Import OrchestrationEngine Lifecycle SuggestSpec.

(** [filter(...)[0]] is the first element that passes. *)
Lemma filter_head_find {A : Type} (f : A -> bool) (l : list A) :
  match filter f l with x :: _ => Some x | [] => None end = find f l.
Proof.
  induction l as [|x l IH]; [reflexivity|]. cbn [filter find].
  now destruct (f x).
Qed.

Lemma findOptimalRoute_eq (setting : option string) (apis : list APIConfig)
    (sourceApi targetApi capability : string) (cache : EmbeddingEngine.Cache) :
  findOptimalRoute setting apis sourceApi targetApi capability cache
  = (match find (bridges sourceApi targetApi capability) apis with
     | Some api => [sourceApi; cfg_id api; targetApi]
     | None => [sourceApi; targetApi]
     end,
     snd (EmbeddingEngine.generateEmbeddings setting apis cache)).
Proof.
  unfold findOptimalRoute.
  destruct (EmbeddingEngine.generateEmbeddings setting apis cache) as [es cache'].
  cbn [snd]. f_equal.
  rewrite <- (filter_head_find (bridges sourceApi targetApi capability) apis).
  unfold bridges. now destruct (filter _ apis).
Qed.

Lemma addOrchestrationStep_found (now : N) (flowId : string) (step : StepInput)
    (engine : Engine) (flow : APIOrchestrationFlow) :
  Js.get flowId engine = Some flow ->
  addOrchestrationStep now flowId step engine
  = Ok (Js.set flowId
          (with_steps flow (Js.sort by_order (flow_steps flow ++ [new_step now step])))
          engine).
Proof. unfold addOrchestrationStep. now intros ->. Qed.

(** One conditional addition of [suggestOrchestration]. *)
Lemma suggested_addition (cond : bool) (found : list APIConfig)
    (input : APIConfig -> StepInput) (now : N) (flowId : string) (engine : Engine)
    (flow : APIOrchestrationFlow) :
  Js.get flowId engine = Some flow ->
  let added := if cond
               then match found with api :: _ => [new_step now (input api)] | [] => [] end
               else [] in
  let flow' := match added with
               | [] => flow
               | _ => with_steps flow (Js.sort by_order (flow_steps flow ++ added))
               end in
  exists engine',
    (if cond
     then match found with
          | api :: _ => addOrchestrationStep now flowId (input api) engine
          | [] => Ok engine
          end
     else Ok engine) = Ok engine'
    /\ Js.get flowId engine' = Some flow'
    /\ (forall id, id <> flowId -> Js.get id engine' = Js.get id engine).
Proof.
  intros Hget. destruct cond; [destruct found as [|api rest]|]; cbn zeta iota.
  - exists engine. auto.
  - rewrite (addOrchestrationStep_found _ _ _ _ _ Hget). eexists.
    split; [reflexivity|]. split; [apply get_set_same|].
    intros id Hne. now apply get_set_other.
  - exists engine. auto.
Qed.

Lemma suggestOrchestration_eq (now0 now1 now2 : N) (apis : list APIConfig)
    (requirement : string) (engine : Engine) :
  exists engine' : Engine,
    let flow :=
      {| flow_id := "flow-" ++ Js.decimal now0;
         flow_name := "Auto-generated: " ++ requirement;
         flow_steps := query_steps now1 apis requirement
                       ++ forward_steps now2 apis requirement;
         flow_apis := map cfg_id apis;
         flow_status := pending |}%string in
    suggestOrchestration now0 now1 now2 apis requirement engine = Ok (flow, engine')
    /\ Js.get (flow_id flow) engine' = Some flow
    /\ (forall id, id <> flow_id flow -> Js.get id engine' = Js.get id engine).
Proof.
  unfold suggestOrchestration, createOrchestrationFlow.
  set (flow0 := {| flow_id := ("flow-" ++ Js.decimal now0)%string;
                   flow_name := ("Auto-generated: " ++ requirement)%string;
                   flow_steps := []; flow_apis := map cfg_id apis;
                   flow_status := pending |}).
  set (fid := ("flow-" ++ Js.decimal now0)%string).
  change (flow_id flow0) with fid.
  set (engine0 := Js.set fid flow0 engine).
  assert (Hget0 : Js.get fid engine0 = Some flow0) by apply get_set_same.
  assert (Hother0 : forall id, id <> fid -> Js.get id engine0 = Js.get id engine)
    by (intros id Hne; now apply get_set_other).
  destruct (suggested_addition
              (JsString.includes (JsString.toLowerCase requirement) "text"
               || JsString.includes (JsString.toLowerCase requirement) "content")
              (filter (fun api => String.eqb (cfg_type api) "ai") apis)
              (fun api => {| in_action := "query"; in_apiId := cfg_id api;
                             in_payload := PayloadObject [("query", requirement)];
                             in_order := 1 |})
              now1 fid engine0 flow0 Hget0) as (engine1 & -> & Hget1 & Hother1).
  cbn [bind].
  match type of Hget1 with _ = Some ?f => set (flow1 := f) in * end.
  destruct (suggested_addition
              (JsString.includes (JsString.toLowerCase requirement) "save"
               || JsString.includes (JsString.toLowerCase requirement) "store")
              (filter (fun api => Js.includes (cfg_capabilities api) "repository-management"
                                  || String.eqb (cfg_type api) "version-control") apis)
              (fun api => {| in_action := "forward"; in_apiId := cfg_id api;
                             in_payload := PayloadObject [("data", "processed content")];
                             in_order := 2 |})
              now2 fid engine1 flow1 Hget1) as (engine2 & -> & Hget2 & Hother2).
  cbn [bind]. exists engine2. cbn zeta. cbn [flow_id].
  unfold current. change (flow_id flow0) with fid. rewrite Hget2.
  match type of Hget2 with _ = Some ?f => set (flow2 := f) in * end.
  assert (Heq : flow2
                = {| flow_id := fid;
                     flow_name := ("Auto-generated: " ++ requirement)%string;
                     flow_steps := query_steps now1 apis requirement
                                   ++ forward_steps now2 apis requirement;
                     flow_apis := map cfg_id apis;
                     flow_status := pending |}).
  { unfold flow2, flow1, flow0, query_steps, forward_steps, wants_text, wants_storage.
    rewrite <- (filter_head_find is_ai apis), <- (filter_head_find is_storage apis).
    unfold is_ai, is_storage.
    destruct (JsString.includes (JsString.toLowerCase requirement) "text"
              || JsString.includes (JsString.toLowerCase requirement) "content");
      destruct (JsString.includes (JsString.toLowerCase requirement) "save"
                || JsString.includes (JsString.toLowerCase requirement) "store");
      destruct (filter (fun api => String.eqb (cfg_type api) "ai") apis);
      destruct (filter (fun api => Js.includes (cfg_capabilities api) "repository-management"
                                   || String.eqb (cfg_type api) "version-control") apis);
      reflexivity. }
  rewrite <- Heq. split; [reflexivity|]. split; [reflexivity|].
  intros id Hne. now rewrite Hother2, Hother1, Hother0.
Qed.

(** The mock handlers run a step whose action has a handler and whose
    payload is an object. *)
Lemma mock_step_runs (s : OrchestrationStep) (props : Js.Map string) :
  In (step_action s) ["authenticate"; "query"; "transform"; "forward"] ->
  step_payload s = PayloadObject props ->
  @executeStep mockHandlers s = Ok tt.
Proof.
  intros Hact Hpay. unfold executeStep. cbn [authenticateAPI queryAPI transformData
    forwardData mockHandlers]. rewrite Hpay. cbn [reads_payload].
  destruct Hact as [<-|[<-|[<-|[<-|[]]]]]; reflexivity.
Qed.

Lemma suggested_steps_run (now1 now2 : N) (apis : list APIConfig) (requirement : string) :
  Forall (fun s => @executeStep mockHandlers s = Ok tt)
    (query_steps now1 apis requirement ++ forward_steps now2 apis requirement).
Proof.
  apply Forall_app. split.
  - unfold query_steps. destruct (wants_text requirement); [|constructor].
    destruct (find is_ai apis); repeat constructor.
  - unfold forward_steps. destruct (wants_storage requirement); [|constructor].
    destruct (find is_storage apis); repeat constructor.
Qed.

End Suggestions.

(** X21. The route of [findOptimalRoute]: the source, then the first api of
    the discovered list that is neither the source nor the target and has
    the capability, when there is one, then the target.  So a route has two
    or three stops, a stop in between is never the source or the target and
    always has the capability, and the route is direct exactly when no api
    qualifies.  The embeddings play no part in the choice; the search
    leaves the cache as [generateEmbeddings] fills it. *)
Theorem findOptimalRoute_route (setting : option string) (apis : list APIConfig)
    (sourceApi targetApi capability : string) (cache : EmbeddingEngine.Cache) :
  let route :=
    fst (OrchestrationEngine.findOptimalRoute setting apis sourceApi targetApi
           capability cache) in
  route = match find (SuggestSpec.bridges sourceApi targetApi capability) apis with
          | Some api => [sourceApi; cfg_id api; targetApi]
          | None => [sourceApi; targetApi]
          end
  /\ (forall mid : string,
        route = [sourceApi; mid; targetApi] ->
        mid <> sourceApi /\ mid <> targetApi
        /\ exists api, In api apis /\ cfg_id api = mid
                       /\ In capability (cfg_capabilities api))
  /\ (route = [sourceApi; targetApi]
      <-> forall api, In api apis ->
                      SuggestSpec.bridges sourceApi targetApi capability api = false)
  /\ snd (OrchestrationEngine.findOptimalRoute setting apis sourceApi targetApi
            capability cache)
     = snd (EmbeddingEngine.generateEmbeddings setting apis cache).
Proof.
  intros route. unfold route. rewrite findOptimalRoute_eq. cbn [fst snd].
  split; [reflexivity|]. split; [|split; [|reflexivity]].
  - intros mid.
    destruct (find (SuggestSpec.bridges sourceApi targetApi capability) apis)
      as [api|] eqn:Hfind; [|discriminate].
    intros H. injection H as <-. apply find_some in Hfind as [Hin Hb].
    unfold SuggestSpec.bridges in Hb.
    apply andb_true_iff in Hb as [Hb Hcap]. apply andb_true_iff in Hb as [Hs Ht].
    apply negb_true_iff in Hs, Ht. apply String.eqb_neq in Hs, Ht.
    apply includes_In in Hcap. split; [exact Hs|]. split; [exact Ht|].
    now exists api.
  - destruct (find (SuggestSpec.bridges sourceApi targetApi capability) apis)
      as [api|] eqn:Hfind.
    + split; [discriminate|]. intros Hnone.
      apply find_some in Hfind as [Hin Hb]. rewrite (Hnone api Hin) in Hb.
      discriminate.
    + split; [|reflexivity]. intros _ api Hin. exact (find_none _ _ Hfind api Hin).
Qed.


(** X23. A suggested flow runs: with the handlers of the engine, executing
    the flow that [suggestOrchestration] registered returns, runs every
    suggested step, and leaves the flow [completed]. *)
Theorem suggested_flow_completes (now0 now1 now2 : N) (apis : list APIConfig)
    (requirement : string) (engine : OrchestrationEngine.Engine) :
  exists (flow : APIOrchestrationFlow) (engine' engine'' : OrchestrationEngine.Engine)
         (events : list Event),
    OrchestrationEngine.suggestOrchestration now0 now1 now2 apis requirement engine
    = Ok (flow, engine')
    /\ @OrchestrationEngine.executeFlow OrchestrationEngine.mockHandlers
         (flow_id flow) engine'
       = (engine'', events, Ok tt)
    /\ FlowSpec.steps_run events = flow_steps flow
    /\ OrchestrationEngine.getFlow (flow_id flow) engine''
       = Some (Lifecycle.with_status flow completed).
Proof.
  destruct (suggestOrchestration_eq now0 now1 now2 apis requirement engine)
    as (engine' & Heq & Hget & _).
  cbn zeta in Heq, Hget. cbn [flow_id] in Hget.
  match type of Heq with _ = Ok (?f, _) => set (flow := f) in * end.
  pose proof (@run_steps_all OrchestrationEngine.mockHandlers (flow_steps flow)
                (suggested_steps_run now1 now2 apis requirement)) as Hrun.
  destruct (@executeFlow_engine OrchestrationEngine.mockHandlers
              (flow_id flow) engine' flow Hget) as (status & Hengine & _ & Hstatus).
  destruct (@executeFlow_steps_run OrchestrationEngine.mockHandlers
              (flow_id flow) engine' flow Hget) as [Hsteps Hres].
  rewrite Hrun in Hsteps, Hres. cbn [fst snd] in Hsteps, Hres.
  assert (Hst : status = completed) by now apply Hstatus. subst status.
  destruct (@OrchestrationEngine.executeFlow OrchestrationEngine.mockHandlers
              (flow_id flow) engine') as [[engine'' events] result] eqn:Hexec.
  cbn [fst snd] in *. subst result.
  exists flow, engine', engine'', events. split; [exact Heq|].
  split; [exact Hexec|]. split.
  - rewrite Hsteps. clear. induction (flow_steps flow) as [|s l IH]; [reflexivity|].
    cbn [map]. change (FlowSpec.steps_run (StepRun s :: map StepRun l))
      with (s :: FlowSpec.steps_run (map StepRun l)). now rewrite IH.
  - rewrite Hengine. apply get_set_same.
Qed.

(** X24. [isCompatibleAPIs] holds exactly when the two apis have a
    capability in common; it does not depend on the order of the two, and an
    api is compatible with itself unless it has no capability. *)
Theorem isCompatibleAPIs_shared (api1 api2 : APIConfig) :
  (APIDiscoveryService.isCompatibleAPIs api1 api2 = true
   <-> exists c : string,
         In c (cfg_capabilities api1) /\ In c (cfg_capabilities api2))
  /\ APIDiscoveryService.isCompatibleAPIs api1 api2
     = APIDiscoveryService.isCompatibleAPIs api2 api1
  /\ (APIDiscoveryService.isCompatibleAPIs api1 api1 = true
      <-> cfg_capabilities api1 <> []).
Proof.
  assert (Hiff : forall a b,
             APIDiscoveryService.isCompatibleAPIs a b = true
             <-> exists c, In c (cfg_capabilities a) /\ In c (cfg_capabilities b)).
  { intros a b. unfold APIDiscoveryService.isCompatibleAPIs.
    rewrite Nat.ltb_lt. split.
    - destruct (filter _ _) as [|c l] eqn:Hf; [cbn; lia|]. intros _.
      assert (Hc : In c (filter (Js.includes (cfg_capabilities b)) (cfg_capabilities a)))
        by (rewrite Hf; now left).
      apply filter_In in Hc as [Ha Hb]. apply includes_In in Hb. now exists c.
    - intros (c & Ha & Hb).
      assert (Hc : In c (filter (Js.includes (cfg_capabilities b)) (cfg_capabilities a)))
        by (apply filter_In; split; [exact Ha | now apply includes_In]).
      destruct (filter _ _); [destruct Hc | cbn; lia]. }
  split; [apply Hiff|]. split.
  - apply Bool.eq_iff_eq_true. rewrite !Hiff. split; intros (c & H1 & H2); now exists c.
  - rewrite Hiff. split.
    + intros (c & Hc & _) Hnil. rewrite Hnil in Hc. destruct Hc.
    + destruct (cfg_capabilities api1) as [|c l]; [congruence|].
      intros _. exists c. split; now left.
Qed.

(** ** [String.prototype.includes] and [toLowerCase] *)

Section Substrings.

Lemma prefix_append (a b : string) :
  String.prefix a b = true <-> exists post, b = (a ++ post)%string.
Proof.
  revert b. induction a as [|c a IH]; intros b.
  - split; [intros _; now exists b | intros _; now destruct b].
  - destruct b as [|d b]; cbn [String.prefix].
    + split; [discriminate|]. intros (post & H). discriminate H.
    + destruct (Ascii.ascii_dec c d) as [->|Hne].
      * rewrite IH. split; intros (post & H); exists post.
        -- cbn. now rewrite H.
        -- cbn in H. now injection H.
      * split; [discriminate|]. intros (post & H). cbn in H. injection H as H _.
        congruence.
Qed.

(** [s.includes(sub)]: [sub] occurs somewhere in [s]. *)
Lemma includes_substring (s sub : string) :
  JsString.includes s sub = true
  <-> exists pre post, s = (pre ++ sub ++ post)%string.
Proof.
  induction s as [|c s IH]; cbn [JsString.includes].
  - rewrite orb_false_r, prefix_append. split.
    + intros (post & H). now exists EmptyString, post.
    + intros ([|d pre] & post & H); [now exists post | discriminate H].
  - rewrite orb_true_iff, prefix_append, IH. split.
    + intros [(post & H) | (pre & post & H)].
      * now exists EmptyString, post.
      * exists (String c pre), post. cbn. now rewrite H.
    + intros ([|d pre] & post & H).
      * left. now exists post.
      * right. cbn in H. injection H as _ H. now exists pre, post.
Qed.

Lemma toLowerCase_length (s : string) :
  String.length (JsString.toLowerCase s) = String.length s.
Proof. induction s as [|c s IH]; cbn; [reflexivity | now rewrite IH]. Qed.

End Substrings.

(** For the three discovered apis and a requirement that speaks of text
    and, in capitals, of saving, the suggestion queries the first ai api and
    forwards to the version-control api. *)
Example suggestOrchestration_discovered :
  option_map
    (fun flow => map (fun s => (step_action s, step_apiId s, step_order s)) (flow_steps flow))
    (match OrchestrationEngine.suggestOrchestration 2000 2001 2002 discovered
             "Generate text and SAVE it" [] with
     | Ok (flow, _) => Some flow
     | Throw _ => None
     end)
  = Some [ ("query", "openai-1000", 1%Z); ("forward", "github-1000", 2%Z) ].
Proof. vm_compute. reflexivity. Qed.

(** The route between the two ai apis through the one api that manages
    repositories. *)
Example findOptimalRoute_discovered :
  fst (OrchestrationEngine.findOptimalRoute None discovered "openai-1000"
         "hugging face-1000" "repository-management" [])
  = ["openai-1000"; "github-1000"; "hugging face-1000"].
Proof.
  destruct (OrchestrationEngine.findOptimalRoute None discovered "openai-1000"
              "hugging face-1000" "repository-management" []) as [route cache] eqn:H.
  unfold OrchestrationEngine.findOptimalRoute in H.
  destruct (EmbeddingEngine.generateEmbeddings None discovered []) as [es cache'].
  cbn in H. now injection H as <- _.
Qed.

(** ** The descriptors that discovery builds *)

(** The example descriptors are what discovery builds for the three keys. *)
Example discovered_descriptors :
  discovered
  = [ APIDiscoveryService.descriptor 1000 "OPENAI_API_KEY" "sk" ".env"
        {| APIDiscoveryService.pat_name := "OpenAI";
           APIDiscoveryService.pat_type := "ai";
           APIDiscoveryService.pat_description :=
             "OpenAI API for language models and embeddings";
           APIDiscoveryService.pat_endpoints := ["https://api.openai.com/v1"];
           APIDiscoveryService.pat_capabilities :=
             ["text-generation"; "embeddings"; "chat"] |};
      APIDiscoveryService.descriptor 1000 "GITHUB_TOKEN" "'ghp'" ".env"
        {| APIDiscoveryService.pat_name := "GitHub";
           APIDiscoveryService.pat_type := "version-control";
           APIDiscoveryService.pat_description := "GitHub API for repository management";
           APIDiscoveryService.pat_endpoints := ["https://api.github.com"];
           APIDiscoveryService.pat_capabilities :=
             ["repository-management"; "user-management"; "webhook"] |};
      APIDiscoveryService.descriptor 1000 "HUGGINGFACE_API_KEY" "hf" ".env"
        {| APIDiscoveryService.pat_name := "Hugging Face";
           APIDiscoveryService.pat_type := "ai";
           APIDiscoveryService.pat_description :=
             "Hugging Face API for machine learning models";
           APIDiscoveryService.pat_endpoints := ["https://api-inference.huggingface.co"];
           APIDiscoveryService.pat_capabilities :=
             ["text-generation"; "embeddings"; "classification"] |} ].
Proof. vm_compute. reflexivity. Qed.

(** X25. The descriptors of the known apis hang together: the capabilities
    that [getAPICapabilities] finds under the name of a discovered api are
    the capabilities of its descriptor (and none under an unknown name), and
    two discovered apis are compatible, in the sense of [isCompatibleAPIs],
    exactly when they have the same type. *)
Theorem known_apis_compatible :
  (forall (key : string) (pattern : APIDiscoveryService.Pattern)
          (now : N) (value filePath : string),
      In (key, pattern) APIDiscoveryService.knownAPIPatterns ->
      APIDiscoveryService.getAPICapabilities
        (cfg_name (APIDiscoveryService.descriptor now key value filePath pattern))
      = cfg_capabilities (APIDiscoveryService.descriptor now key value filePath pattern))
  /\ (forall name : string,
        ~ In name (map (fun kp => APIDiscoveryService.pat_name (snd kp))
                     APIDiscoveryService.knownAPIPatterns) ->
        APIDiscoveryService.getAPICapabilities name = [])
  /\ (forall (key key' : string) (pattern pattern' : APIDiscoveryService.Pattern)
             (now now' : N) (value value' filePath filePath' : string),
        In (key, pattern) APIDiscoveryService.knownAPIPatterns ->
        In (key', pattern') APIDiscoveryService.knownAPIPatterns ->
        APIDiscoveryService.isCompatibleAPIs
          (APIDiscoveryService.descriptor now key value filePath pattern)
          (APIDiscoveryService.descriptor now' key' value' filePath' pattern')
        = String.eqb (APIDiscoveryService.pat_type pattern)
            (APIDiscoveryService.pat_type pattern')).
Proof.
  split; [|split].
  - intros key pattern now value filePath Hin.
    cbn [cfg_name cfg_capabilities APIDiscoveryService.descriptor].
    unfold APIDiscoveryService.knownAPIPatterns in Hin. cbn [In] in Hin.
    repeat match goal with
           | H : _ \/ _ |- _ => destruct H as [H|H]
           | H : False |- _ => destruct H
           | H : (_, _) = (_, _) |- _ => injection H as <- <-
           end; reflexivity.
  - intros name Hnot. unfold APIDiscoveryService.getAPICapabilities.
    destruct (find _ _) as [p|] eqn:Hfind; [|reflexivity].
    apply find_some in Hfind as [Hin Hname]. apply String.eqb_eq in Hname.
    exfalso. apply Hnot. rewrite <- Hname.
    apply in_map_iff in Hin as (kp & <- & Hkp). apply in_map_iff. now exists kp.
  - intros key key' pattern pattern' now now' value value' filePath filePath' Hin Hin'.
    unfold APIDiscoveryService.isCompatibleAPIs.
    cbn [cfg_capabilities APIDiscoveryService.descriptor].
    unfold APIDiscoveryService.knownAPIPatterns in Hin, Hin'. cbn [In] in Hin, Hin'.
    repeat match goal with
           | H : _ \/ _ |- _ => destruct H as [H|H]
           | H : False |- _ => destruct H
           | H : (_, _) = (_, _) |- _ => injection H as <- <-
           end; reflexivity.
Qed.
